(** * sol-wallet-monitor: the change-detection, resolution and classification
      pipeline of [src/monitor.ts], embedded and verified.

    Number model.  Lamport balances are ledger integers and are modelled in
    [Z]; the one division by [1e9] and the comparison against the noise
    threshold that the detector performs on them are modelled exactly in [Q].
    Quantities that the script handles as JavaScript numbers with a decimal
    part (native and token deltas of a transaction, prices) are IEEE binary64
    values and are modelled by Rocq's primitive floats, whose operations are
    the IEEE ones.

    String model.  A JavaScript string is modelled by the Rocq string that
    holds its UTF-8 encoding, one [ascii] per byte. *)

From Stdlib Require Import ZArith QArith Qabs Lia List Ascii String.
From Stdlib Require Import PrimFloat FloatOps SpecFloat FloatAxioms.
From stdpp Require Import gmap strings list.
Import ListNotations.

Set Warnings "-inexact-float".
Local Open Scope Z_scope.

(** ** Helpers shared by all components *)

(** [String.prototype.includes]: [sub] occurs somewhere in [s]. *)
Fixpoint includes (s sub : string) : bool :=
  if String.prefix sub s then true
  else match s with
       | EmptyString => false
       | String _ s' => includes s' sub
       end.

(** [x || 0] on [number | null | undefined]: [null], [undefined], [0],
    [-0] and [NaN] are falsy. *)
Definition orZero (x : option float) : float :=
  match x with
  | Some v => if (PrimFloat.eqb v 0 || PrimFloat.is_nan v)%bool then 0%float else v
  | None => 0%float
  end.

(** [chunkArray]: [for (i = 0; i < array.length; i += size)
    res.push(array.slice(i, i + size))].  The loop runs at most
    [array.length] times when [size > 0]; the fuel is that bound.  (With
    [size = 0] the source loop does not terminate; both call sites pass a
    positive constant.) *)
Fixpoint chunk_loop {T} (size fuel : nat) (rest : list T) : list (list T) :=
  match fuel with
  | O => []
  | S fuel' =>
      match rest with
      | [] => []
      | _ :: _ => firstn size rest :: chunk_loop size fuel' (skipn size rest)
      end
  end.

Definition chunkArray {T} (array : list T) (size : nat) : list (list T) :=
  chunk_loop size (length array) array.

Definition MAX_CONCURRENT_TASKS : nat := 5.
Definition CHUNK_SIZE : nat := 50.

(** ** Balance change detector ([startPolling]) *)

Module Detector.

Record WalletConfig := {
  address : string;
  name : string;
  emoji : string
}.

(** What [getMultipleAccountsInfo] returns per account; [None] is the [null]
    of an account that does not exist. *)
Record AccountInfo := { lamports : Z }.

Inductive rpc_result :=
| RpcOk (infos : list (option AccountInfo))
| RpcErr (message : string).

Definition lamportsToSol (l : Z) : Q := l # 1000000000.

(** [0.000000001] *)
Definition NOISE : Q := 1 # 1000000000.

Definition Qgtb (x y : Q) : bool := negb (Qle_bool x y).

Record update := {
  u_wallet : WalletConfig;
  u_cur : Z;
  u_diffSol : Q
}.

(** [info ? info.lamports : 0] *)
Definition balanceOfInfo (info : option AccountInfo) : Z :=
  match info with
  | Some i => lamports i
  | None => 0
  end.

(** [balanceCache.get(a) ?? 0] *)
Definition cached (balanceCache : gmap string Z) (a : string) : Z :=
  default 0 (balanceCache !! a).

(** The initialisation pass over one chunk:
    [infos.forEach((info, i) => balanceCache.set(chunk[i].address, ...))].
    The [bool] is [true] when [chunk[i]] is [undefined] and the access to
    [.address] throws. *)
Fixpoint initBatch (infos : list (option AccountInfo)) (chunk : list WalletConfig)
    (balanceCache : gmap string Z) : gmap string Z * bool :=
  match infos with
  | [] => (balanceCache, false)
  | info :: infos' =>
      match chunk with
      | [] => (balanceCache, true)
      | wallet :: chunk' =>
          initBatch infos' chunk' (<[address wallet := balanceOfInfo info]> balanceCache)
      end
  end.

Definition initChunk (resp : rpc_result) (chunk : list WalletConfig)
    (balanceCache : gmap string Z) : gmap string Z :=
  match resp with
  | RpcOk infos => fst (initBatch infos chunk balanceCache)
  | RpcErr _ => balanceCache
  end.

(** The detection loop [for (let i = 0; i < infos.length; i++)] of one
    polling cycle over one chunk. *)
Fixpoint scanBatch (infos : list (option AccountInfo)) (chunk : list WalletConfig)
    (balanceCache : gmap string Z) (updates : list update)
  : gmap string Z * list update * bool :=
  match infos with
  | [] => (balanceCache, updates, false)
  | info :: infos' =>
      match chunk with
      | [] => (balanceCache, updates, true)
      | wallet :: chunk' =>
          let cur := balanceOfInfo info in
          let old := cached balanceCache (address wallet) in
          if negb (cur =? old) then
            let diffSol := lamportsToSol (cur - old) in
            if Qgtb (Qabs diffSol) NOISE then
              scanBatch infos' chunk' (<[address wallet := cur]> balanceCache)
                (updates ++ [{| u_wallet := wallet; u_cur := cur; u_diffSol := diffSol |}])
            else
              scanBatch infos' chunk' (<[address wallet := cur]> balanceCache) updates
          else scanBatch infos' chunk' balanceCache updates
      end
  end.

Record poll_state := {
  balanceCache : gmap string Z;
  dynamicInterval : Z
}.

(** One iteration of [for (const chunk of dynamicChunks)]: the new state and
    the batches of updates handed, one batch after the other, to the
    resolve-and-classify tasks. *)
Definition pollChunk (resp : rpc_result) (chunk : list WalletConfig) (st : poll_state)
  : poll_state * list (list update) :=
  match resp with
  | RpcOk infos =>
      let interval := if 1000 <? dynamicInterval st
                      then dynamicInterval st - 100 else dynamicInterval st in
      let '(cache', updates, threw) := scanBatch infos chunk (balanceCache st) [] in
      ({| balanceCache := cache'; dynamicInterval := interval |},
       if threw then []
       else match updates with
            | [] => []
            | _ :: _ => chunkArray updates MAX_CONCURRENT_TASKS
            end)
  | RpcErr message =>
      ({| balanceCache := balanceCache st;
          dynamicInterval :=
            if includes message "429"
            then (if 10000 <? dynamicInterval st + 1000 then 10000
                  else dynamicInterval st + 1000)
            else dynamicInterval st |},
       [])
  end.

(** The body of one [while (true)] round over the chunks with their query
    outcomes, in order. *)
Fixpoint pollChunks (batches : list (list WalletConfig * rpc_result)) (st : poll_state)
  : poll_state * list (list update) :=
  match batches with
  | [] => (st, [])
  | (chunk, resp) :: batches' =>
      let '(st1, dispatched) := pollChunk resp chunk st in
      let '(st2, dispatched') := pollChunks batches' st1 in
      (st2, dispatched ++ dispatched')
  end.

(** [rpc i] is the outcome of the balance query of the [i]-th chunk. *)
Definition pollCycle (wallets : list WalletConfig) (rpc : nat -> rpc_result)
    (st : poll_state) : poll_state * list (list update) :=
  pollChunks (imap (fun i chunk => (chunk, rpc i)) (chunkArray wallets CHUNK_SIZE)) st.

End Detector.

(** ** Market data records ([interface TokenMarketData], [RugCheckData]) *)

Record TokenMarketData := {
  symbol : string;
  name : string;
  priceUsd : string;
  fdv : float;
  liquidity : float
}.

Record RugCheckData := {
  score : float;
  riskLevel : string;
  isNew : bool
}.

(** ** Token metadata and risk resolvers ([fetchTokenMarketData],
    [fetchRugCheckData]) *)

Module Resolver.

(** *** Upstream payloads, as optional-field structures *)

(** A settled promise of [Promise.allSettled], or the outcome of an
    awaited [fetch]. *)
Inductive settled (A : Type) :=
| Fulfilled (value : A)
| Rejected.
Arguments Fulfilled {A} value.
Arguments Rejected {A}.

(** An HTTP response; [body] is what [res.json()] resolves to, [None] when
    it throws (or resolves to [null], on which the first property access
    throws inside the same [try]). *)
Record Response (B : Type) := {
  status : Z;
  ok : bool;
  body : option B
}.
Arguments status {B} _.
Arguments ok {B} _.
Arguments body {B} _.

Record JupExtraInfo := { extraSymbol : option string }.

Record JupInfo := {
  price : option string;
  extraInfo : option JupExtraInfo
}.

(** [jupData.data], a map keyed by mint. *)
Record JupBody := { data : option (gmap string JupInfo) }.

Record DexLiquidity := { usd : option float }.

(** A pair of the secondary source.  [baseToken.symbol], [baseToken.name]
    and [priceUsd], which the code only ever reads unguarded, are present;
    [fdv] and [liquidity], which it guards with [|| 0] and [?.], are
    optional. *)
Record DexPair := {
  baseSymbol : string;
  baseName : string;
  pairPriceUsd : string;
  pairFdv : option float;
  pairLiquidity : option DexLiquidity
}.

Record DexBody := { pairs : option (list DexPair) }.

Record RugBody := { rugScore : option float }.

(** *** The caches *)

Record cached (A : Type) := {
  cachedData : A;
  timestamp : Z
}.
Arguments cachedData {A} _.
Arguments timestamp {A} _.

Definition CACHE_TTL : Z := 60 * 1000.

Inductive request :=
| JupiterPrice (mint : string)
| DexTokens (mint : string)
| RugSummary (mint : string).

(** [cached && (Date.now() - cached.timestamp < CACHE_TTL)] *)
Definition fresh {A} (entry : option (cached A)) (now : Z) : option A :=
  match entry with
  | Some c => if now - timestamp c <? CACHE_TTL then Some (cachedData c) else None
  | None => None
  end.

(** *** [fetchTokenMarketData] *)

(** A string is truthy when it is not empty. *)
Definition orString (s : option string) (fallback : string) : string :=
  match s with
  | Some (String c r) => String c r
  | _ => fallback
  end.

(** The local variables of the function. *)
Record market_vars := {
  v_symbol : string;
  v_name : string;
  v_priceUsd : string;
  v_fdv : float;
  v_liquidity : float;
  v_found : bool
}.

Definition initialVars : market_vars :=
  {| v_symbol := "UNKNOWN"; v_name := "Unknown Token"; v_priceUsd := "0";
     v_fdv := 0%float; v_liquidity := 0%float; v_found := false |}.

(** [jupData.data?.[mint]], when the primary request was fulfilled with an
    ok response whose body parses. *)
Definition jupiterInfo (jupRes : settled (Response JupBody)) (mint : string)
  : option JupInfo :=
  match jupRes with
  | Fulfilled r =>
      if ok r then
        match body r with
        | Some b => match data b with
                    | Some d => d !! mint
                    | None => None
                    end
        | None => None
        end
      else None
  | Rejected => None
  end.

(** Step 3, the primary source. *)
Definition parseJupiter (jupRes : settled (Response JupBody)) (mint : string)
    (v : market_vars) : market_vars :=
  match jupiterInfo jupRes mint with
  | Some info =>
      let priceUsd := orString (price info) "0" in
      match extraInfo info with
      | Some extra =>
          let symbol := orString (extraSymbol extra) (v_symbol v) in
          {| v_symbol := symbol; v_name := symbol; v_priceUsd := priceUsd;
             v_fdv := v_fdv v; v_liquidity := v_liquidity v; v_found := true |}
      | None =>
          {| v_symbol := v_symbol v; v_name := v_name v; v_priceUsd := priceUsd;
             v_fdv := v_fdv v; v_liquidity := v_liquidity v; v_found := v_found v |}
      end
  | None => v
  end.

(** [b.liquidity.usd - a.liquidity.usd]; [None] when a [liquidity] object
    is missing and the property access throws.  A missing [usd] is
    [undefined], which the subtraction turns into [NaN]. *)
Definition compareLiquidity (a b : DexPair) : option float :=
  match pairLiquidity a, pairLiquidity b with
  | Some la, Some lb =>
      Some (default PrimFloat.nan (usd lb) - default PrimFloat.nan (usd la))%float
  | _, _ => None
  end.

(** Stable insertion of [x] into a list sorted by the comparator: [x] goes
    before the first [y] that the comparator orders after it. *)
Fixpoint insertPair (x : DexPair) (sorted : list DexPair) : option (list DexPair) :=
  match sorted with
  | [] => Some [x]
  | y :: rest =>
      match compareLiquidity y x with
      | None => None
      | Some c =>
          if (0 <? c)%float then Some (x :: y :: rest)
          else option_map (cons y) (insertPair x rest)
      end
  end.

(** [pairs.sort((a, b) => b.liquidity.usd - a.liquidity.usd)], a stable
    sort; [None] when the comparator throws.  When the comparator is not
    consistent on the pairs (a missing or non-finite [usd] makes it return
    NaN), ECMAScript leaves the resulting order to the implementation and
    this definition gives one possible order only: what is proved about
    the first pair either holds for every order or assumes a consistent
    comparator. *)
Fixpoint sortPairs (ps : list DexPair) (sorted : list DexPair) : option (list DexPair) :=
  match ps with
  | [] => Some sorted
  | p :: ps' =>
      match insertPair p sorted with
      | Some sorted' => sortPairs ps' sorted'
      | None => None
      end
  end.

(** [dexData.pairs], when the secondary request was fulfilled with an ok
    response whose body parses and lists at least one pair. *)
Definition dexPairs (dexRes : settled (Response DexBody)) : option (list DexPair) :=
  match dexRes with
  | Fulfilled r =>
      if ok r then
        match body r with
        | Some b => match pairs b with
                    | Some (p :: ps) => Some (p :: ps)
                    | _ => None
                    end
        | None => None
        end
      else None
  | Rejected => None
  end.

(** [bestPair], when it is reached. *)
Definition bestPair (dexRes : settled (Response DexBody)) : option DexPair :=
  match dexPairs dexRes with
  | Some ps => match sortPairs ps [] with
               | Some (best :: _) => Some best
               | _ => None
               end
  | None => None
  end.

(** Step 4, the secondary source. *)
Definition parseDex (dexRes : settled (Response DexBody)) (v : market_vars)
  : market_vars :=
  match bestPair dexRes with
  | Some best =>
      {| v_symbol := if String.eqb (v_symbol v) "UNKNOWN"
                     then baseSymbol best else v_symbol v;
         v_name := if String.eqb (v_name v) "Unknown Token"
                   then baseName best else v_name v;
         v_priceUsd := if String.eqb (v_priceUsd v) "0"
                       then pairPriceUsd best else v_priceUsd v;
         v_fdv := orZero (pairFdv best);
         v_liquidity := orZero (match pairLiquidity best with
                                | Some l => usd l
                                | None => None
                                end);
         v_found := true |}
  | None => v
  end.

Record token_outcome := {
  tokenResult : option TokenMarketData;
  tokenCacheAfter : gmap string (cached TokenMarketData);
  tokenRequests : list request   (* network calls issued *)
}.

(** [now] is the clock at the cache check, [jupRes] and [dexRes] the
    outcomes of the two requests, [later] the clock when the result is
    stored. *)
Definition fetchTokenMarketData (mint : string) (now : Z)
    (jupRes : settled (Response JupBody)) (dexRes : settled (Response DexBody))
    (later : Z) (tokenCache : gmap string (cached TokenMarketData))
  : token_outcome :=
  match fresh (tokenCache !! mint) now with
  | Some d =>
      {| tokenResult := Some d; tokenCacheAfter := tokenCache; tokenRequests := [] |}
  | None =>
      let v := parseDex dexRes (parseJupiter jupRes mint initialVars) in
      let requests := [JupiterPrice mint; DexTokens mint] in
      if negb (v_found v) then
        {| tokenResult := None; tokenCacheAfter := tokenCache;
           tokenRequests := requests |}
      else
        let result := {| symbol := v_symbol v; name := v_name v;
                         priceUsd := v_priceUsd v; fdv := v_fdv v;
                         liquidity := v_liquidity v |} in
        {| tokenResult := Some result;
           tokenCacheAfter :=
             <[mint := {| cachedData := result; timestamp := later |}]> tokenCache;
           tokenRequests := requests |}
  end.

(** *** [fetchRugCheckData] *)

Record rug_outcome := {
  rugResult : RugCheckData;
  rugCacheAfter : gmap string (cached RugCheckData);
  rugRequests : list request
}.

Definition rugError : RugCheckData :=
  {| score := 0%float; riskLevel := "error"; isNew := false |}.

Definition rugUnknown : RugCheckData :=
  {| score := 0%float; riskLevel := "unknown"; isNew := true |}.

(** The report built from a parsed body. *)
Definition rugReport (b : RugBody) : RugCheckData :=
  let score := orZero (rugScore b) in
  {| score := score;
     riskLevel := if (2000 <? score)%float then "danger"
                  else if (500 <? score)%float then "warn" else "good";
     isNew := false |}.

Definition fetchRugCheckData (mint : string) (now : Z)
    (res : settled (Response RugBody)) (later : Z)
    (rugCache : gmap string (cached RugCheckData)) : rug_outcome :=
  match fresh (rugCache !! mint) now with
  | Some d => {| rugResult := d; rugCacheAfter := rugCache; rugRequests := [] |}
  | None =>
      let requests := [RugSummary mint] in
      let failed r := {| rugResult := r; rugCacheAfter := rugCache;
                         rugRequests := requests |} in
      match res with
      | Rejected => failed rugError
      | Fulfilled r =>
          if status r =? 404 then failed rugUnknown
          else if negb (ok r) then failed rugError
          else match body r with
               | None => failed rugError
               | Some b =>
                   let result := rugReport b in
                   {| rugResult := result;
                      rugCacheAfter :=
                        <[mint := {| cachedData := result; timestamp := later |}]> rugCache;
                      rugRequests := requests |}
               end
      end
  end.

End Resolver.

(** ** Bounded dispatch of the resolve-and-classify tasks

    [for (const batch of updateBatches) { await Promise.all(batch.map(async
    (update) => { ... })); await sleep(200); }]: [batch.map] starts the task
    of every update of the batch, in order; the tasks then finish in any
    order; [await Promise.all] resumes the loop once all of them have
    finished, and only then is the next batch mapped. *)

Module Dispatch.

Inductive event (T : Type) :=
| Start (task : T)
| Finish (task : T).
Arguments Start {T} task.
Arguments Finish {T} task.

Inductive dispatch_run {T : Type} : list (list T) -> list (event T) -> Prop :=
| run_done : dispatch_run [] []
| run_batch (batch finished : list T) (batches : list (list T)) (tr : list (event T)) :
    Permutation finished batch ->
    dispatch_run batches tr ->
    dispatch_run (batch :: batches)
      ((Start <$> batch) ++ (Finish <$> finished) ++ tr).

(** Tasks started and not yet finished at the end of a trace. *)
Fixpoint inflight {T : Type} (tr : list (event T)) : Z :=
  match tr with
  | [] => 0
  | Start _ :: tr' => 1 + inflight tr'
  | Finish _ :: tr' => inflight tr' - 1
  end.

(** One possible run: the tasks of each batch finish in the order in which
    they were started. *)
Fixpoint run_in_order {T : Type} (batches : list (list T)) : list (event T) :=
  match batches with
  | [] => []
  | batch :: batches' =>
      (Start <$> batch) ++ (Finish <$> batch) ++ run_in_order batches'
  end.

End Dispatch.

(** ** Signature resolution retrier (the [while] loop of
    [fetchLastTransactionDetails]) *)

Module Retrier.

Record SignatureInfo := {
  signature : string;
  err : bool   (* [err] is not [null] *)
}.

(** Outcome of one [getSignaturesForAddress] call: the array it resolves
    to, or the [message] of the error it throws ([None] when the thrown
    value has no message). *)
Inductive sig_response :=
| SigOk (sigs : list SignatureInfo)
| SigThrow (message : option string).

Inductive effect :=
| Query
| Sleep (ms : Z).

Record retry_state := {
  signatures : list SignatureInfo;
  attempts : nat;
  log : list effect   (* queries issued and sleeps taken, oldest first *)
}.

Definition MAX_ATTEMPTS : nat := 15.

(** [signatures.length > 0 && !signatures[0].err] *)
Definition usable (sigs : list SignatureInfo) : bool :=
  match sigs with
  | [] => false
  | s :: _ => negb (err s)
  end.

(** [e.message?.includes('429')] *)
Definition rateLimited (message : option string) : bool :=
  match message with
  | Some m => includes m "429"
  | None => false
  end.

(** One round of the loop body; the [bool] is [true] when it leaves the
    loop through [break]. *)
Definition attempt (resp : sig_response) (st : retry_state) : retry_state * bool :=
  match resp with
  | SigOk sigs =>
      if usable sigs then
        ({| signatures := sigs; attempts := attempts st;
            log := log st ++ [Query] |}, true)
      else
        ({| signatures := sigs; attempts := S (attempts st);
            log := log st ++ [Query; Sleep 200] |}, false)
  | SigThrow message =>
      ({| signatures := signatures st; attempts := S (attempts st);
          log := log st ++ [Query]
                   ++ (if rateLimited message then [Sleep 1000] else [])
                   ++ [Sleep 200] |}, false)
  end.

(** [while (attempts < MAX_ATTEMPTS) { ... }]; [rpc k] is the outcome of
    the query issued when [attempts = k].  [fuel] bounds the number of
    rounds. *)
Fixpoint retryLoop (fuel : nat) (rpc : nat -> sig_response) (st : retry_state)
  : retry_state :=
  match fuel with
  | O => st
  | S fuel' =>
      if (attempts st <? MAX_ATTEMPTS)%nat then
        let '(st', stop) := attempt (rpc (attempts st)) st in
        if stop then st' else retryLoop fuel' rpc st'
      else st
  end.

Definition resolveSignatures (rpc : nat -> sig_response) : retry_state :=
  retryLoop MAX_ATTEMPTS rpc {| signatures := []; attempts := 0; log := [] |}.

(** Milliseconds slept in a log. *)
Fixpoint slept (l : list effect) : Z :=
  match l with
  | [] => 0
  | Query :: l' => slept l'
  | Sleep ms :: l' => ms + slept l'
  end.

Fixpoint queries (l : list effect) : nat :=
  match l with
  | [] => O
  | Query :: l' => S (queries l')
  | Sleep _ :: l' => queries l'
  end.

End Retrier.

(** ** Transaction classifier (the part of [fetchLastTransactionDetails]
    after the signature is known) *)

Module Classifier.

Definition WSOL_MINT : string := "So11111111111111111111111111111111111111112".

(** An entry of [meta.preTokenBalances] / [meta.postTokenBalances].
    [uiAmount] is [number | null]. *)
Record TokenBalance := {
  mint : string;
  owner : option string;
  uiAmount : option float
}.

Record TxMeta := {
  logMessages : option (list string);
  preBalances : list float;
  postBalances : list float;
  preTokenBalances : option (list TokenBalance);
  postTokenBalances : option (list TokenBalance)
}.

(** [accountKeys] holds the base58 form of each key of the message. *)
Record ParsedTransaction := {
  accountKeys : list string;
  meta : option TxMeta
}.

Inductive trade_type := SWAP | TRANSFER | WRAP.

Record TradeDetails := {
  signature : string;
  tokenMint : string;
  tokenData : option TokenMarketData;
  rugData : option RugCheckData;
  tokenChange : float;
  solChange : float;
  isBuy : bool;
  type : trade_type
}.

(** [xs[i]] used as a number: a missing element is [undefined], which
    arithmetic turns into [NaN]. *)
Definition numberAt (xs : list float) (i : nat) : float :=
  nth i xs PrimFloat.nan.

(** [accountKeys.findIndex(k => k.pubkey.toBase58() === pubKey.toBase58())] *)
Fixpoint findIndex (keys : list string) (pubKey : string) : option nat :=
  match keys with
  | [] => None
  | k :: keys' =>
      if String.eqb k pubKey then Some O
      else option_map S (findIndex keys' pubKey)
  end.

(** [logMessages.some(log => log.includes('Program JUP') || ...)] *)
Definition isSwapProgram (logMessages : list string) : bool :=
  existsb (fun log =>
             includes log "Program JUP"
             || includes log "Program 675kPX9M"
             || includes log "Instruction: Swap")%bool
          logMessages.

(** [Set.prototype.add] on a set kept in insertion order. *)
Definition setAdd (set : list string) (x : string) : list string :=
  if existsb (String.eqb x) set then set else set ++ [x].

(** [allMints] after both [forEach] passes. *)
Definition allMints (preTokenBals postTokenBals : list TokenBalance) : list string :=
  fold_left setAdd (mint <$> postTokenBals)
    (fold_left setAdd (mint <$> preTokenBals) []).

(** [bals.find(b => b.mint === mint && b.owner === pubKey.toBase58())] *)
Definition findBalance (bals : list TokenBalance) (m pubKey : string)
  : option TokenBalance :=
  List.find (fun b =>
               String.eqb (mint b) m
               && match owner b with
                  | Some o => String.eqb o pubKey
                  | None => false
                  end)%bool
            bals.

(** [obj?.uiTokenAmount.uiAmount || 0] *)
Definition amountOf (obj : option TokenBalance) : float :=
  match obj with
  | Some b => orZero (uiAmount b)
  | None => 0%float
  end.

(** [diff] of one mint for the watched account. *)
Definition tokenDiff (preTokenBals postTokenBals : list TokenBalance)
    (pubKey m : string) : float :=
  (amountOf (findBalance postTokenBals m pubKey)
   - amountOf (findBalance preTokenBals m pubKey))%float.

Record scan_state := {
  targetMint : string;
  targetChange : float;
  wSolDiff : float
}.

(** The body of [for (const mint of allMints)]. *)
Definition scanMint (preTokenBals postTokenBals : list TokenBalance)
    (pubKey : string) (st : scan_state) (m : string) : scan_state :=
  let diff := tokenDiff preTokenBals postTokenBals pubKey m in
  if (0 <? abs diff)%float then
    if String.eqb m WSOL_MINT then
      {| targetMint := targetMint st; targetChange := targetChange st;
         wSolDiff := (wSolDiff st + diff)%float |}
    else if (abs (targetChange st) <? abs diff)%float then
      {| targetMint := m; targetChange := diff; wSolDiff := wSolDiff st |}
    else st
  else st.

(** What the loop knows about its current target: either none was chosen
    yet, or the target is a token other than wrapped-native whose delta is
    the recorded one and has a non-zero magnitude. *)
Definition scan_invariant (preTokenBals postTokenBals : list TokenBalance)
    (pubKey : string) (st : scan_state) : Prop :=
  (targetMint st = ""%string /\ targetChange st = 0%float)
  \/ (targetMint st <> ""%string
      /\ targetMint st <> WSOL_MINT
      /\ targetChange st = tokenDiff preTokenBals postTokenBals pubKey (targetMint st)
      /\ (0 <? abs (targetChange st))%float = true).

Definition scanMints (preTokenBals postTokenBals : list TokenBalance)
    (pubKey : string) : scan_state :=
  fold_left (scanMint preTokenBals postTokenBals pubKey)
    (allMints preTokenBals postTokenBals)
    {| targetMint := ""; targetChange := 0%float; wSolDiff := 0%float |}.

(** [(postNative - preNative) / 1e9] *)
Definition nativeDiffOf (m : TxMeta) (accountIndex : nat) : float :=
  ((numberAt (postBalances m) accountIndex - numberAt (preBalances m) accountIndex)
   / 1e9)%float.

(** A non-empty string is truthy. *)
Definition truthy (s : string) : bool :=
  match s with
  | EmptyString => false
  | String _ _ => true
  end.

(** Steps 3 to 6 of [fetchLastTransactionDetails] on the transaction
    [tx] fetched for signature [sig].  [fetchToken] and [fetchRug] stand
    for the two awaited resolver calls of the SWAP branch.  [None] is the
    [null] the function returns when the transaction cannot be used. *)
Definition classify (fetchToken : string -> option TokenMarketData)
    (fetchRug : string -> RugCheckData)
    (pubKey sig : string) (tx : option ParsedTransaction) : option TradeDetails :=
  match tx with
  | None => None
  | Some t =>
  match meta t with
  | None => None
  | Some m =>
      let swapProgram := isSwapProgram (default [] (logMessages m)) in
      match findIndex (accountKeys t) pubKey with
      | None => None
      | Some accountIndex =>
          let nativeDiff := nativeDiffOf m accountIndex in
          let preTokenBals := default [] (preTokenBalances m) in
          let postTokenBals := default [] (postTokenBalances m) in
          let st := scanMints preTokenBals postTokenBals pubKey in
          let totalSolFlow := (nativeDiff + wSolDiff st)%float in
          if truthy (targetMint st) then
            let isRealSwap :=
              if (negb swapProgram && (0.05 <? abs nativeDiff)%float)%bool
              then true else swapProgram in
            if isRealSwap then
              Some {| signature := sig;
                      tokenMint := targetMint st;
                      tokenData := fetchToken (targetMint st);
                      rugData := Some (fetchRug (targetMint st));
                      tokenChange := targetChange st;
                      solChange := totalSolFlow;
                      isBuy := (0 <? targetChange st)%float;
                      type := SWAP |}
            else
              Some {| signature := sig;
                      tokenMint := targetMint st;
                      tokenData := None;
                      rugData := None;
                      tokenChange := targetChange st;
                      solChange := nativeDiff;
                      isBuy := false;
                      type := TRANSFER |}
          else if ((0.001 <? abs nativeDiff)%float
                   && (0.001 <? abs (wSolDiff st))%float
                   && (abs totalSolFlow <? 0.01)%float)%bool then
            Some {| signature := sig;
                    tokenMint := "WSOL";
                    tokenData := None;
                    rugData := None;
                    tokenChange := wSolDiff st;
                    solChange := nativeDiff;
                    isBuy := (0 <? wSolDiff st)%float;
                    type := WRAP |}
          else
            Some {| signature := sig;
                    tokenMint := "SOL";
                    tokenData := None;
                    rugData := None;
                    tokenChange := totalSolFlow;
                    solChange := totalSolFlow;
                    isBuy := (0 <? totalSolFlow)%float;
                    type := TRANSFER |}
      end
  end
  end.

(** The whole function: the newest signature found by the retry loop, the
    transaction fetched for it ([getParsedTransaction sig] is [None] when
    the call throws, which the [catch] turns into [null]), and its
    classification. *)
Definition fetchLastTransactionDetails
    (fetchToken : string -> option TokenMarketData)
    (fetchRug : string -> RugCheckData)
    (rpc : nat -> Retrier.sig_response)
    (getParsedTransaction : string -> option (option ParsedTransaction))
    (pubKey : string) : option TradeDetails :=
  match Retrier.signatures (Retrier.resolveSignatures rpc) with
  | [] => None
  | newest :: _ =>
      let sig := Retrier.signature newest in
      match getParsedTransaction sig with
      | Some tx => classify fetchToken fetchRug pubKey sig tx
      | None => None
      end
  end.

End Classifier.

(** ** The scenarios of the specification, as data *)

Module Scenarios.
Import Classifier.

Definition watched : string := "Watched1111".
Definition someToken : string := "Token111111".

Definition noToken (_ : string) : option TokenMarketData := None.
Definition goodRug (_ : string) : RugCheckData :=
  {| score := 0%float; riskLevel := "good"; isNew := false |}.

(** Token quantity +1,000,000, native value -0.5, a swap marker in the
    logs. *)
Definition buyMeta : TxMeta :=
  {| logMessages := Some ["Program JUP6LkbZbjS1jKKwapdHNy74zcZ3tLUZoi5QNyVTaV4 invoke [1]"%string];
     preBalances := [7000000%float; 2000000000%float];
     postBalances := [7000000%float; 1500000000%float];
     preTokenBalances := Some [];
     postTokenBalances :=
       Some [{| mint := someToken; owner := Some watched;
                uiAmount := Some 1000000%float |}] |}.

Definition buyTx : ParsedTransaction :=
  {| accountKeys := ["Payer111111"%string; watched]; meta := Some buyMeta |}.

(** Native delta +0.4, wrapped-native delta -0.4, no other token. *)
Definition unwrapMeta : TxMeta :=
  {| logMessages := None;
     preBalances := [1000000000%float];
     postBalances := [1400000000%float];
     preTokenBalances :=
       Some [{| mint := WSOL_MINT; owner := Some watched;
                uiAmount := Some 0.4%float |}];
     postTokenBalances :=
       Some [{| mint := WSOL_MINT; owner := Some watched; uiAmount := None |}] |}.

Definition unwrapTx : ParsedTransaction :=
  {| accountKeys := [watched]; meta := Some unwrapMeta |}.

End Scenarios.

(** ** The order of binary64 numbers, through a key in [Z * Z * Z] ordered
    lexicographically (used to reason about the comparisons of the code) *)

Module FloatOrder.

Definition key : Type := (Z * Z * Z)%type.

(** [None] for NaN, which compares with nothing. *)
Definition rank (f : spec_float) : option key :=
  match f with
  | S754_nan => None
  | S754_infinity true => Some (-2, 0, 0)
  | S754_infinity false => Some (2, 0, 0)
  | S754_zero _ => Some (0, 0, 0)
  | S754_finite true m e => Some (-1, - e, Zneg m)
  | S754_finite false m e => Some (1, e, Zpos m)
  end.

Definition lt3b (a b : key) : bool :=
  let '(a1, a2, a3) := a in
  let '(b1, b2, b3) := b in
  (a1 <? b1) || ((a1 =? b1) && ((a2 <? b2) || ((a2 =? b2) && (a3 <? b3)))).

Definition frank (x : float) : option key := rank (Prim2SF x).

End FloatOrder.

(** ** Price formatting ([formatPrice]) *)

Module Format.

(** *** Decimal digits of a non-negative integer *)

Definition digitChar (d : Z) : ascii := ascii_of_nat (48 + Z.to_nat d).

Fixpoint decimal_loop (fuel : nat) (n : Z) (acc : string) : string :=
  match fuel with
  | O => acc
  | S fuel' =>
      let acc' := String (digitChar (n mod 10)) acc in
      if n / 10 =? 0 then acc' else decimal_loop fuel' (n / 10) acc'
  end.

(** The decimal representation of [n >= 0]; ["0"] for 0.  A number has no
    more decimal digits than binary ones. *)
Definition decimal (n : Z) : string :=
  decimal_loop (S (Z.to_nat (Z.log2 n))) n "".

Fixpoint zeros (k : nat) : string :=
  match k with
  | O => ""%string
  | S k' => String "0" (zeros k')
  end.

Fixpoint takeChars (k : nat) (s : string) : string :=
  match k, s with
  | S k', String c s' => String c (takeChars k' s')
  | _, _ => ""%string
  end.

Fixpoint dropChars (k : nat) (s : string) : string :=
  match k, s with
  | S k', String _ s' => dropChars k' s'
  | _, _ => s
  end.

(** *** [parseFloat] (ECMA-262, StrDecimalLiteral prefix of the trimmed
    input), with the result rounded to the nearest binary64. *)

(** The characters that [parseFloat] skips are the StrWhiteSpaceChar of
    ECMA-262: WhiteSpace (TAB, VT, FF, U+FEFF and the space separators
    U+0020, U+00A0, U+1680, U+2000 to U+200A, U+202F, U+205F, U+3000) and
    LineTerminator (LF, CR, U+2028, U+2029).  A string holds the UTF-8
    encoding of the JavaScript string, so such a character takes one, two
    or three bytes. *)

(** TAB, LF, VT, FF, CR and SP; and a byte A0 that stands on its own,
    which begins no character of a UTF-8 text and is read as the code unit
    U+00A0. *)
Definition isWhite (c : ascii) : bool :=
  let n := nat_of_ascii c in
  ((n =? 32) || (n =? 9) || (n =? 10) || (n =? 11) || (n =? 12) || (n =? 13)
   || (n =? 160))%nat.

(** U+00A0, encoded as C2 A0. *)
Definition isWhite2 (a b : ascii) : bool :=
  ((nat_of_ascii a =? 194) && (nat_of_ascii b =? 160))%nat.

(** U+1680 (E1 9A 80); U+2000 to U+200A, U+2028, U+2029 and U+202F
    (E2 80 80 to E2 80 8A, E2 80 A8, E2 80 A9, E2 80 AF); U+205F
    (E2 81 9F); U+3000 (E3 80 80); U+FEFF (EF BB BF). *)
Definition isWhite3 (a b c : ascii) : bool :=
  let '(x, y, z) := (nat_of_ascii a, nat_of_ascii b, nat_of_ascii c) in
  (((x =? 225) && (y =? 154) && (z =? 128))
   || ((x =? 226) && (y =? 128)
       && (((128 <=? z) && (z <=? 138)) || (z =? 168) || (z =? 169) || (z =? 175)))
   || ((x =? 226) && (y =? 129) && (z =? 159))
   || ((x =? 227) && (y =? 128) && (z =? 128))
   || ((x =? 239) && (y =? 187) && (z =? 191)))%nat.

Fixpoint trimStart (s : string) : string :=
  match s with
  | String a s1 =>
      if isWhite a then trimStart s1
      else
        match s1 with
        | String b s2 =>
            if isWhite2 a b then trimStart s2
            else
              match s2 with
              | String c s3 => if isWhite3 a b c then trimStart s3 else s
              | EmptyString => s
              end
        | EmptyString => s
        end
  | EmptyString => s
  end.

Definition digitValue (c : ascii) : option Z :=
  let n := nat_of_ascii c in
  if ((48 <=? n) && (n <=? 57))%nat then Some (Z.of_nat n - 48) else None.

(** Reads the longest run of decimal digits: its value continuing [acc],
    the number of digits read, and the rest of the input. *)
Fixpoint readDigits (s : string) (acc : Z) (count : nat) : Z * nat * string :=
  match s with
  | String c s' =>
      match digitValue c with
      | Some d => readDigits s' (10 * acc + d) (S count)
      | None => (acc, count, s)
      end
  | EmptyString => (acc, count, s)
  end.

(** An ExponentPart at the head of [s], if there is a complete one. *)
Definition readExponent (s : string) : Z :=
  match s with
  | String c s' =>
      if ((nat_of_ascii c =? 101) || (nat_of_ascii c =? 69))%nat then
        let '(neg, s'') :=
          match s' with
          | String "-" r => (true, r)
          | String "+" r => (false, r)
          | _ => (false, s')
          end in
        let '(e, count, _) := readDigits s'' 0 O in
        match count with
        | O => 0
        | S _ => if neg then - e else e
        end
      else 0
  | EmptyString => 0
  end.

(** [(-1)^neg * n * 10^scale], correctly rounded. *)
Definition roundDecimal (neg : bool) (n scale : Z) : float :=
  match n with
  | Zpos p =>
      if 0 <=? scale then
        SF2Prim (binary_normalize prec emax
                   (if neg then - (n * 10 ^ scale) else n * 10 ^ scale) 0 false)
      else
        SF2Prim (SFdiv prec emax (S754_finite neg p 0)
                   (S754_finite false (Z.to_pos (10 ^ (- scale))) 0))
  | _ => if neg then neg_zero else zero
  end.

Definition parseFloat (input : string) : float :=
  let s := trimStart input in
  let '(neg, s) :=
    match s with
    | String "-" r => (true, r)
    | String "+" r => (false, r)
    | _ => (false, s)
    end in
  if String.prefix "Infinity" s then (if neg then neg_infinity else infinity)
  else
    let '(whole, wholeDigits, rest) := readDigits s 0 O in
    let '(mantissa, fracDigits, rest') :=
      match rest with
      | String "." r => readDigits r whole O
      | _ => (whole, O, rest)
      end in
    match wholeDigits, fracDigits with
    | O, O => nan
    | _, _ =>
        roundDecimal neg mantissa (readExponent rest' - Z.of_nat fracDigits)
    end.

(** *** [Number.prototype.toFixed] (ECMA-262 21.1.3.3) *)

(** The integer [n] for which [n / 10^f - m * 2^e] is as close to zero as
    possible, the larger one if there are two. *)
Definition scaledRound (m : positive) (e : Z) (f : nat) : Z :=
  let scaled := Zpos m * 10 ^ Z.of_nat f in
  if 0 <=? e then scaled * 2 ^ e
  else (2 * scaled + 2 ^ (- e)) / 2 ^ (- e + 1).

(** Steps 10.b to 10.c: the digits of [n] with a point before the last
    [f] of them, padded with zeros on the left to [f + 1] digits. *)
Definition pointed (n : Z) (f : nat) : string :=
  let m := decimal n in
  match f with
  | O => m
  | S _ =>
      let k := String.length m in
      let m := if (k <=? f)%nat then (zeros (S f - k) ++ m)%string else m in
      let k := String.length m in
      (takeChars (k - f) m ++ "." ++ dropChars (k - f) m)%string
  end.

(** *** [Number::toString] for finite values of magnitude at least 1e21,
    the only ones [toFixed] hands to it: scientific notation with the
    fewest significant digits that read back as the same number. *)

Definition readsBackAs (v : Z) (m : positive) (e : Z) : bool :=
  SFeqb (binary_normalize prec emax v 0 false) (S754_finite false m e).

Fixpoint decimalLength (fuel : nat) (n : Z) : Z :=
  match fuel with
  | O => 0
  | S fuel' => if n =? 0 then 0 else 1 + decimalLength fuel' (n / 10)
  end.

(** Tries [k], [k+1], ... significant digits; returns the digits [s] and
    the decimal exponent [n] of the first [k] that reads back. *)
Fixpoint shortest (fuel : nat) (k : Z) (x : Z) (len : Z) (m : positive) (e : Z)
  : Z * Z :=
  match fuel with
  | O => (x, len)
  | S fuel' =>
      let p := 10 ^ (len - k) in
      let lo := x / p in
      let hi := lo + 1 in
      let okLo := readsBackAs (lo * p) m e in
      let okHi := readsBackAs (hi * p) m e in
      let pickHi := if hi =? 10 ^ k then (1, len + 1) else (hi, len) in
      if (okLo && okHi)%bool then
        match (x - lo * p) ?= (hi * p - x) with
        | Lt => (lo, len)
        | Gt => pickHi
        | Eq => if Z.even lo then (lo, len) else pickHi
        end
      else if okLo then (lo, len)
      else if okHi then pickHi
      else shortest fuel' (k + 1) x len m e
  end.

Definition toStringLarge (m : positive) (e : Z) : string :=
  let x := Zpos m * 2 ^ e in
  let len := decimalLength (S (Z.to_nat (Z.log2 x))) x in
  let '(s, n) := shortest 17 1 x len m e in
  let digits := decimal s in
  let mantissa :=
    match digits with
    | String a EmptyString => digits
    | String a b => String a ("." ++ b)%string
    | EmptyString => digits
    end in
  (mantissa ++ "e+" ++ decimal (n - 1))%string.

Definition toFixed (x : float) (fractionDigits : nat) : string :=
  match Prim2SF x with
  | S754_nan => "NaN"%string
  | S754_infinity s => if s then "-Infinity"%string else "Infinity"%string
  | S754_zero _ => pointed 0 fractionDigits
  | S754_finite s m e =>
      ((if s then "-" else "")
       ++ (if (1e21 <=? abs x)%float then toStringLarge m e
           else pointed (scaledRound m e fractionDigits) fractionDigits))%string
  end.

(** *** [formatPrice] *)

(** [!price] for a number: [0], [-0] and [NaN] are falsy. *)
Definition falsy (price : float) : bool :=
  ((price =? 0)%float || is_nan price)%bool.

(** [!price || isNaN(price)] *)
Definition noPrice (price : float) : bool :=
  (falsy price || is_nan price)%bool.

Definition formatPrice (priceStr : string) : string :=
  let price := parseFloat priceStr in
  if noPrice price then "$0"%string
  else if (price <? 0.00000001)%float then ("$" ++ toFixed price 10)%string
  else if (price <? 0.00001)%float then ("$" ++ toFixed price 8)%string
  else if (price <? 0.01)%float then ("$" ++ toFixed price 6)%string
  else if (price <? 1)%float then ("$" ++ toFixed price 4)%string
  else ("$" ++ toFixed price 2)%string.

(** The [toFixed] argument of the branch that [formatPrice] takes. *)
Definition chosenDecimals (price : float) : nat :=
  if (price <? 0.00000001)%float then 10
  else if (price <? 0.00001)%float then 8
  else if (price <? 0.01)%float then 6
  else if (price <? 1)%float then 4
  else 2.

(** The precision rule in the words of the specification. *)
Definition bracketDecimals (price : float) : nat :=
  if (1 <=? price)%float then 2
  else if (0.01 <=? price)%float then 4
  else if (0.00001 <=? price)%float then 6
  else if (0.00000001 <=? price)%float then 8
  else 10.

Definition isDigit (c : ascii) : bool :=
  let n := nat_of_ascii c in ((48 <=? n) && (n <=? 57))%nat.

Fixpoint allDigits (s : string) : bool :=
  match s with
  | EmptyString => true
  | String c s' => isDigit c && allDigits s'
  end.

(** The string has an exponent marker. *)
Fixpoint hasExponent (s : string) : bool :=
  match s with
  | EmptyString => false
  | String c s' =>
      (nat_of_ascii c =? 101)%nat || (nat_of_ascii c =? 69)%nat || hasExponent s'
  end.

End Format.

(** ** Upstream responses used in examples *)

Module Upstream.
Import Resolver.

Definition aMint : string := "Mint1111111".

Definition okResponse {B : Type} (b : B) : settled (Response B) :=
  Fulfilled {| status := 200; ok := true; body := Some b |}.

(** The primary source knows a price for the token and nothing else. *)
Definition priceOnly : settled (Response JupBody) :=
  okResponse {| data := Some {[ aMint := {| price := Some "0.5"%string;
                                            extraInfo := None |} ]} |}.

(** The primary source has an [extraInfo] object without a symbol, and no
    price. *)
Definition extraOnly : settled (Response JupBody) :=
  okResponse {| data := Some {[ aMint := {| price := None;
                                            extraInfo := Some {| extraSymbol := None |} |} ]} |}.

(** The secondary source lists no pair. *)
Definition noPairs : settled (Response DexBody) :=
  okResponse {| pairs := Some [] |}.

Definition onePair : settled (Response DexBody) :=
  okResponse {| pairs := Some [ {| baseSymbol := "BONK"; baseName := "Bonk";
                                   pairPriceUsd := "0.00002";
                                   pairFdv := Some 1500000%float;
                                   pairLiquidity := Some {| usd := Some 250000%float |} |} ] |}.

Definition rugOk : settled (Response RugBody) :=
  okResponse {| rugScore := Some 700%float |}.

End Upstream.

(** ** Wallet list loading and hot reload ([loadWalletConfigs],
    [startConfigWatcher]) *)

Module Wallets.
Import Detector.

(** An element of the JSON array of [wallets.json]; every field may be
    missing. *)
Record RawItem := {
  r_address : option string;
  r_trackedWalletAddress : option string;
  r_name : option string;
  r_emoji : option string
}.

(** What the function finds on disk: no file, a file that cannot be read
    or parsed into an array (the [try] block throws), or the parsed array,
    whose elements may be [null] ([None]). *)
Inductive file_state :=
| Missing
| Unreadable
| Parsed (raw : list (option RawItem)).

(** A string operand of [||] or [if]: absent and empty strings are
    falsy. *)
Definition truthyString (s : option string) : option string :=
  match s with
  | Some (String c r) => Some (String c r)
  | _ => None
  end.

(** [item.address || item.trackedWalletAddress], when truthy. *)
Definition itemAddress (item : RawItem) : option string :=
  match truthyString (r_address item) with
  | Some a => Some a
  | None => truthyString (r_trackedWalletAddress item)
  end.

(** The wallet pushed for an item, if any.  [isPublicKey addr] tells
    whether [new PublicKey(addr)] succeeds. *)
Definition loadItem (isPublicKey : string -> bool) (item : RawItem)
  : option WalletConfig :=
  match itemAddress item with
  | Some addr =>
      if isPublicKey addr then
        Some {| address := addr;
                name := default "未知"%string (truthyString (r_name item));
                emoji := default "👻"%string (truthyString (r_emoji item)) |}
      else None
  | None => None
  end.

(** [for (const item of raw)]; [None] when a [null] element makes
    [item.address] throw. *)
Fixpoint loadLoop (isPublicKey : string -> bool) (raw : list (option RawItem))
    (valid : list WalletConfig) : option (list WalletConfig) :=
  match raw with
  | [] => Some valid
  | None :: _ => None
  | Some item :: raw' =>
      match loadItem isPublicKey item with
      | Some w => loadLoop isPublicKey raw' (valid ++ [w])
      | None => loadLoop isPublicKey raw' valid
      end
  end.

Definition loadWalletConfigs (isPublicKey : string -> bool) (file : file_state)
    (GLOBAL_WALLETS : list WalletConfig) : list WalletConfig :=
  match file with
  | Missing => []
  | Unreadable => GLOBAL_WALLETS
  | Parsed raw =>
      match loadLoop isPublicKey raw [] with
      | Some valid => valid
      | None => GLOBAL_WALLETS
      end
  end.

(** The body of the [watchFile] callback: the new value of
    [GLOBAL_WALLETS]. *)
Definition reload (isPublicKey : string -> bool) (file : file_state)
    (GLOBAL_WALLETS : list WalletConfig) : list WalletConfig :=
  let newWallets := loadWalletConfigs isPublicKey file GLOBAL_WALLETS in
  if (0 <? length newWallets)%nat then newWallets else GLOBAL_WALLETS.

End Wallets.

(** ** Notification of a classified event (the task body of
    [startPolling]) and [formatNumber] *)

Module Notify.
Import Classifier.

(** [formatNumber]: [!num] is true for [0], [-0] and [NaN]. *)
Definition formatNumber (num : float) : string :=
  if Format.falsy num then "$0"%string
  else if (1000000000 <=? num)%float
       then ("$" ++ Format.toFixed (num / 1000000000)%float 2 ++ "B")%string
  else if (1000000 <=? num)%float
       then ("$" ++ Format.toFixed (num / 1000000)%float 2 ++ "M")%string
  else if (1000 <=? num)%float
       then ("$" ++ Format.toFixed (num / 1000)%float 2 ++ "K")%string
  else ("$" ++ Format.toFixed num 2)%string.

(** The scaled value and the suffix of the branch [formatNumber] takes. *)
Definition numberBracket (num : float) : float * string :=
  if (1000000000 <=? num)%float then ((num / 1000000000)%float, "B"%string)
  else if (1000000 <=? num)%float then ((num / 1000000)%float, "M"%string)
  else if (1000 <=? num)%float then ((num / 1000)%float, "K"%string)
  else (num, ""%string).

(** [0] in the source, to be raised in production. *)
Definition MIN_SOL_THRESHOLD : float := 0%float.

(** The risk line of a swap message ([rugEmoji], [rugText]); the score is
    kept as a number. *)
Inductive risk_badge :=
| Checking                  (* no risk data *)
| NewPool                   (* [isNew] *)
| Safe (s : float)          (* [s < 500] *)
| Caution (s : float)       (* [s < 1500] *)
| Dangerous (s : float).

Definition riskBadge (rugData : option RugCheckData) : risk_badge :=
  match rugData with
  | None => Checking
  | Some r =>
      if isNew r then NewPool
      else
        let s := score r in
        if (s <? 500)%float then Safe s
        else if (s <? 1500)%float then Caution s
        else Dangerous s
  end.

(** What is handed to [sendTgMessage], as the values interpolated into
    the message template. *)
Inductive notification :=
| TransferNotice (incoming : bool) (amount : string)
| SwapNotice (buy : bool) (symbolShown tokenChangeShown solInfo priceStr mc : string)
    (risk : risk_badge) (mint : string).

(** [details.tokenData?.symbol || details.tokenMint.slice(0, 4)] *)
Definition shownSymbol (details : TradeDetails) : string :=
  match tokenData details with
  | Some d =>
      match symbol d with
      | String c r => String c r
      | EmptyString => Format.takeChars 4 (tokenMint details)
      end
  | None => Format.takeChars 4 (tokenMint details)
  end.

(** The body of [if (details) { ... }]: the message sent, if any. *)
Definition notify (details : option TradeDetails) : option notification :=
  match details with
  | None => None
  | Some d =>
      match type d with
      | TRANSFER =>
          if negb (String.eqb (tokenMint d) "SOL") then None
          else if (abs (solChange d) <? MIN_SOL_THRESHOLD)%float then None
          else if (0.001 <? abs (solChange d))%float then
            Some (TransferNotice (0 <? solChange d)%float
                    (Format.toFixed (solChange d) 2))
          else None
      | WRAP => None
      | SWAP =>
          Some (SwapNotice (isBuy d)
                  (shownSymbol d)
                  ((if (0 <? tokenChange d)%float then "+" else "")
                   ++ Format.toFixed (tokenChange d) 2)%string
                  (Format.toFixed (abs (solChange d)) 4 ++ " SOL")%string
                  (match tokenData d with
                   | Some t => Format.formatPrice (priceUsd t)
                   | None => "N/A"%string
                   end)
                  (match tokenData d with
                   | Some t => formatNumber (fdv t)
                   | None => "N/A"%string
                   end)
                  (riskBadge (rugData d))
                  (tokenMint d))
      end
  end.

End Notify.

(** ** Views of a signature query outcome *)

Module RetrierViews.
Import Retrier.

(** The outcome lets the loop [break]. *)
Definition usableResponse (r : sig_response) : bool :=
  match r with
  | SigOk sigs => usable sigs
  | SigThrow _ => false
  end.

(** The outcome brings no signature at all: an empty array or a thrown
    error. *)
Definition noSignature (r : sig_response) : bool :=
  match r with
  | SigOk [] => true
  | SigOk (_ :: _) => false
  | SigThrow _ => true
  end.

End RetrierViews.

(** ** Further example transactions *)

Module MoreScenarios.
Import Classifier Scenarios.

(** A token arrives (+500) with no swap marker and no native change. *)
Definition airdropMeta : TxMeta :=
  {| logMessages := Some ["Program TokenkegQfeZyiNwAJbNbGKPFXCWuBvf9Ss623VQ5DA invoke [1]"%string];
     preBalances := [900000000%float; 2000000000%float];
     postBalances := [899995000%float; 2000000000%float];
     preTokenBalances := Some [];
     postTokenBalances :=
       Some [{| mint := someToken; owner := Some watched;
                uiAmount := Some 500%float |}] |}.

Definition airdropTx : ParsedTransaction :=
  {| accountKeys := ["Sender11111"%string; watched]; meta := Some airdropMeta |}.

(** The watched account receives 2 SOL; no token balance at all. *)
Definition incomeMeta : TxMeta :=
  {| logMessages := None;
     preBalances := [5000000000%float; 1000000000%float];
     postBalances := [2999995000%float; 3000000000%float];
     preTokenBalances := None;
     postTokenBalances := None |}.

Definition incomeTx : ParsedTransaction :=
  {| accountKeys := ["Sender11111"%string; watched]; meta := Some incomeMeta |}.

End MoreScenarios.

(** ** The order that the sort of the secondary source's pairs relies on *)

Module SortOrder.
Import Resolver.

(** The sign of [comparefn(a, b)], [b.liquidity.usd - a.liquidity.usd]:
    [Gt] when it is positive ([a] is placed after [b]), [Lt] when it is
    negative, [Eq] when it is zero; [None] when the call throws or
    returns NaN. *)
Definition comparatorSign (a b : DexPair) : option comparison :=
  match compareLiquidity a b with
  | Some c =>
      if (0 <? c)%float then Some Gt
      else if (c <? 0)%float then Some Lt
      else if (c =? 0)%float then Some Eq
      else None
  | None => None
  end.

Definition signIs (x : option comparison) (s : comparison) : bool :=
  match x, s with
  | Some Gt, Gt | Some Lt, Lt | Some Eq, Eq => true
  | _, _ => false
  end.

(** The comparator is consistent on the pairs [ps], the condition under
    which ECMA-262 fixes the result of [Array.prototype.sort]: for all
    [a], [b], [c] of [ps], [comparefn(a, b)] is a number [v] that is not
    NaN, [comparefn(b, a)] has the opposite sign, and a sign shared by
    [comparefn(a, b)] and [comparefn(b, c)] is that of [comparefn(a, c)].
    It holds when every pair has a finite [liquidity.usd]. *)
Definition consistentComparator (ps : list DexPair) : bool :=
  forallb (fun a =>
    forallb (fun b =>
      match comparatorSign a b with
      | Some s =>
          signIs (comparatorSign b a) (CompOpp s)
          && forallb (fun c =>
               implb (signIs (comparatorSign b c) s)
                     (signIs (comparatorSign a c) s)) ps
      | None => false
      end) ps) ps.

(** [h] is the first of the most liquid pairs of [seen]: it is one of
    them, the comparator places none of them strictly before it, and it
    places every pair listed earlier strictly after it.  This is the pair
    that a stable sort with a consistent comparator puts first. *)
Definition first_greatest (seen : list DexPair) (h : DexPair) : Prop :=
  exists i : nat,
    seen !! i = Some h
    /\ (forall q, q ∈ seen -> comparatorSign h q ≠ Some Gt)
    /\ (forall (j : nat) q, (j < i)%nat -> seen !! j = Some q ->
                            comparatorSign q h = Some Gt).

End SortOrder.

(** ** Further answers of the secondary source *)

Module MoreUpstream.
Import Resolver Upstream.

Definition pairOf (symbol : string) (usd fdv : float) : DexPair :=
  {| baseSymbol := symbol; baseName := symbol; pairPriceUsd := "0.00002";
     pairFdv := Some fdv;
     pairLiquidity := Some {| Resolver.usd := Some usd |} |}.

(** Three pools, the second and the third equally liquid. *)
Definition threePairs : settled (Response DexBody) :=
  okResponse {| pairs := Some [ pairOf "A" 1 10; pairOf "B" 5 20; pairOf "C" 5 30 ] |}.

End MoreUpstream.

(* ===================================================================== *)
(** * Properties *)
(* ===================================================================== *)

(** ** [chunkArray] *)

Section ChunkArrayFacts.
Context {T : Type}.

Lemma chunk_loop_concat (size fuel : nat) (l : list T) :
  (0 < size)%nat -> (length l <= fuel)%nat ->
  concat (chunk_loop size fuel l) = l.
Proof.
  intros Hsize. revert l.
  induction fuel as [|fuel IH]; intros l Hlen.
  - destruct l; [reflexivity | simpl in Hlen; lia].
  - destruct l as [|x l']; [reflexivity|].
    cbn [chunk_loop concat].
    rewrite IH.
    + apply firstn_skipn.
    + rewrite length_skipn. simpl in *. lia.
Qed.

Lemma chunk_loop_bounded (size fuel : nat) (l : list T) :
  Forall (fun b => (length b <= size)%nat) (chunk_loop size fuel l).
Proof.
  revert l. induction fuel as [|fuel IH]; intros l; [constructor|].
  destruct l as [|x l']; [constructor|].
  cbn [chunk_loop]. constructor; [|apply IH].
  rewrite length_firstn. lia.
Qed.

Lemma chunkArray_concat (l : list T) (size : nat) :
  (0 < size)%nat -> concat (chunkArray l size) = l.
Proof. intros H. apply chunk_loop_concat; [exact H | lia]. Qed.

Lemma chunkArray_bounded (l : list T) (size : nat) :
  Forall (fun b => (length b <= size)%nat) (chunkArray l size).
Proof. apply chunk_loop_bounded. Qed.

(** More fuel than the array length changes nothing: the loop has
    finished by then. *)
Lemma chunk_loop_fuel_irrelevant (size fuel1 fuel2 : nat) (l : list T) :
  (0 < size)%nat -> (length l <= fuel1)%nat -> (length l <= fuel2)%nat ->
  chunk_loop size fuel1 l = chunk_loop size fuel2 l.
Proof.
  intros Hsize. revert fuel2 l.
  induction fuel1 as [|fuel1 IH]; intros fuel2 l H1 H2.
  - destruct l; [destruct fuel2; reflexivity | simpl in H1; lia].
  - destruct l as [|x l']; [destruct fuel2; reflexivity|].
    destruct fuel2 as [|fuel2]; [simpl in H2; lia|].
    cbn [chunk_loop]. f_equal.
    apply IH; rewrite length_skipn; simpl in *; lia.
Qed.

Lemma chunk_loop_fuel (size fuel : nat) (l : list T) :
  (0 < size)%nat -> (length l <= fuel)%nat ->
  chunk_loop size fuel l = chunkArray l size.
Proof.
  intros Hsize Hlen. unfold chunkArray.
  apply chunk_loop_fuel_irrelevant; [exact Hsize | exact Hlen | lia].
Qed.
End ChunkArrayFacts.

(** ** Balance change detector *)

Section DetectorFacts.
Import Detector.

Lemma Qgtb_lt (x y : Q) : Qgtb x y = true <-> (y < x)%Q.
Proof.
  unfold Qgtb. rewrite negb_true_iff.
  split.
  - intros H. apply Qnot_le_lt. intros Hle.
    apply Qle_bool_iff in Hle. congruence.
  - intros H. destruct (Qle_bool x y) eqn:E; [|reflexivity].
    apply Qle_bool_iff in E. exfalso. exact (Qlt_not_le _ _ H E).
Qed.

Lemma still_is_not_moved (c : Z) :
  Qgtb (Qabs (lamportsToSol (c - c))) NOISE = false.
Proof. rewrite Z.sub_diag. reflexivity. Qed.

Lemma cached_insert_eq (c : gmap string Z) (a : string) (v : Z) :
  cached (<[a := v]> c) a = v.
Proof. unfold cached. by rewrite lookup_insert_eq. Qed.

Variable q : string -> option AccountInfo.

(** The balance the ledger reports for an address in this query. *)
Let cur (a : string) : Z := balanceOfInfo (q a).

Let answers (chunk : list WalletConfig) : list (option AccountInfo) :=
  (fun w => q (address w)) <$> chunk.

(** What one pass of the detection loop does when the query answered
    for every wallet of the chunk. *)
Lemma scanBatch_answers (chunk : list WalletConfig) :
  forall (cache : gmap string Z) (ups : list update),
  exists cache' new,
    scanBatch (answers chunk) chunk cache ups = (cache', ups ++ new, false)
    /\ (forall a, a ∈ address <$> chunk -> cached cache' a = cur a)
    /\ (forall a, a ∉ address <$> chunk -> cache' !! a = cache !! a)
    /\ (forall u, u ∈ new ->
          u_wallet u ∈ chunk
          /\ u_cur u = cur (address (u_wallet u))
          /\ u_diffSol u =
               lamportsToSol (cur (address (u_wallet u))
                              - cached cache (address (u_wallet u)))
          /\ (NOISE < Qabs (u_diffSol u))%Q)
    /\ (forall a, a ∈ address <$> chunk ->
          (NOISE < Qabs (lamportsToSol (cur a - cached cache a)))%Q ->
          exists u, u ∈ new /\ address (u_wallet u) = a).
Proof.
  induction chunk as [|w chunk IH]; intros cache ups.
  - exists cache, []. cbn. rewrite app_nil_r.
    split; [reflexivity|]. split; [|split; [|split]].
    + intros a Ha. by apply elem_of_nil in Ha.
    + done.
    + intros u Hu. by apply elem_of_nil in Hu.
    + intros a Ha. by apply elem_of_nil in Ha.
  - cbn [answers fmap list_fmap scanBatch].
    fold (answers chunk). fold (cur (address w)).
    set (old := cached cache (address w)).
    (* the state after the step on [w], whichever branch is taken *)
    assert (Hstep : exists cache1 new1,
      (if negb (cur (address w) =? old)
       then if Qgtb (Qabs (lamportsToSol (cur (address w) - old))) NOISE
            then scanBatch (answers chunk) chunk (<[address w := cur (address w)]> cache)
                   (ups ++ [{| u_wallet := w; u_cur := cur (address w);
                               u_diffSol := lamportsToSol (cur (address w) - old) |}])
            else scanBatch (answers chunk) chunk (<[address w := cur (address w)]> cache) ups
       else scanBatch (answers chunk) chunk cache ups)
      = scanBatch (answers chunk) chunk cache1 (ups ++ new1)
      /\ cached cache1 (address w) = cur (address w)
      /\ (forall b, b ≠ address w -> cache1 !! b = cache !! b)
      /\ ((Qgtb (Qabs (lamportsToSol (cur (address w) - old))) NOISE = true
           /\ new1 = [{| u_wallet := w; u_cur := cur (address w);
                         u_diffSol := lamportsToSol (cur (address w) - old) |}])
          \/ (Qgtb (Qabs (lamportsToSol (cur (address w) - old))) NOISE = false
              /\ new1 = []))).
    { destruct (cur (address w) =? old) eqn:Eeq; cbn [negb].
      - apply Z.eqb_eq in Eeq.
        exists cache, []. rewrite app_nil_r.
        split; [reflexivity|]. split; [symmetry; exact Eeq|].
        split; [done|].
        right. split; [|done]. rewrite Eeq. apply still_is_not_moved.
      - destruct (Qgtb _ NOISE) eqn:Emv.
        + eexists _, [_]. split; [reflexivity|].
          split; [apply cached_insert_eq|].
          split; [intros b Hb; by rewrite lookup_insert_ne|].
          left. done.
        + eexists _, []. rewrite app_nil_r. split; [reflexivity|].
          split; [apply cached_insert_eq|].
          split; [intros b Hb; by rewrite lookup_insert_ne|].
          right. done. }
    destruct Hstep as (cache1 & new1 & -> & Hw & Hother & Hnew1).
    destruct (IH cache1 (ups ++ new1)) as (cache' & new & -> & Hin & Hout & Hrec & Hex).
    assert (Hcached1 : forall b, b ≠ address w -> cached cache1 b = cached cache b).
    { intros b Hb. unfold cached. by rewrite Hother. }
    exists cache', (new1 ++ new). rewrite app_assoc.
    split; [reflexivity|].
    split; [|split; [|split]].
    + intros a Ha. apply elem_of_cons in Ha as [->|Ha]; [|by apply Hin].
      destruct (decide (address w ∈ address <$> chunk)) as [Hd|Hd]; [by apply Hin|].
      unfold cached. rewrite (Hout _ Hd). exact Hw.
    + intros a Ha. apply not_elem_of_cons in Ha as [Hne Ha].
      rewrite (Hout _ Ha). by apply Hother.
    + intros u Hu. apply elem_of_app in Hu as [Hu|Hu].
      * destruct Hnew1 as [[Hmv ->]|[_ ->]]; [|by apply elem_of_nil in Hu].
        apply list_elem_of_singleton in Hu as ->. cbn.
        split; [apply elem_of_cons; by left|].
        split; [done|]. split; [done|]. by apply Qgtb_lt.
      * destruct (Hrec u Hu) as (Hmem & Hc & Hd & Hn).
        split; [apply elem_of_cons; by right|].
        split; [done|].
        destruct (decide (address (u_wallet u) = address w)) as [Heq|Hne].
        -- exfalso. rewrite Hd, Heq, Hw, Z.sub_diag in Hn.
           revert Hn. apply Qle_not_lt. discriminate.
        -- rewrite <- (Hcached1 _ Hne). done.
    + intros a Ha Hmv.
      destruct (decide (a = address w)) as [->|Hne].
      * destruct Hnew1 as [[_ ->]|[Hno _]].
        -- eexists. split; [apply elem_of_app; left; apply list_elem_of_singleton; reflexivity|done].
        -- apply Qgtb_lt in Hmv. fold old in Hmv. congruence.
      * apply elem_of_cons in Ha as [Ha|Ha]; [done|].
        destruct (Hex a Ha) as (u & Hu & Hua).
        { by rewrite (Hcached1 _ Hne). }
        exists u. split; [apply elem_of_app; by right | done].
Qed.

Lemma pollChunk_answers (chunk : list WalletConfig) (st : poll_state) :
  exists cache' new,
    balanceCache (fst (pollChunk (RpcOk (answers chunk)) chunk st)) = cache'
    /\ concat (snd (pollChunk (RpcOk (answers chunk)) chunk st)) = new
    /\ (forall a, a ∈ address <$> chunk -> cached cache' a = cur a)
    /\ (forall a, a ∉ address <$> chunk -> cache' !! a = balanceCache st !! a)
    /\ (forall u, u ∈ new ->
          u_wallet u ∈ chunk
          /\ u_cur u = cur (address (u_wallet u))
          /\ u_diffSol u =
               lamportsToSol (cur (address (u_wallet u))
                              - cached (balanceCache st) (address (u_wallet u)))
          /\ (NOISE < Qabs (u_diffSol u))%Q)
    /\ (forall a, a ∈ address <$> chunk ->
          (NOISE < Qabs (lamportsToSol (cur a - cached (balanceCache st) a)))%Q ->
          exists u, u ∈ new /\ address (u_wallet u) = a).
Proof.
  destruct (scanBatch_answers chunk (balanceCache st) [])
    as (cache' & new & Hscan & Hrest).
  exists cache', new. unfold pollChunk. rewrite Hscan. cbn [fst snd balanceCache app].
  split; [reflexivity|]. split; [|exact Hrest].
  destruct new; [reflexivity|].
  apply chunkArray_concat. unfold MAX_CONCURRENT_TASKS. lia.
Qed.

Lemma initBatch_answers (chunk : list WalletConfig) :
  forall (cache : gmap string Z),
    snd (initBatch (answers chunk) chunk cache) = false
    /\ (forall a, a ∈ address <$> chunk ->
          fst (initBatch (answers chunk) chunk cache) !! a = Some (cur a))
    /\ (forall a, a ∉ address <$> chunk ->
          fst (initBatch (answers chunk) chunk cache) !! a = cache !! a).
Proof.
  induction chunk as [|w chunk IH]; intros cache.
  - cbn. split; [done|]. split; [|done].
    intros a Ha. by apply elem_of_nil in Ha.
  - cbn [answers fmap list_fmap initBatch]. fold (answers chunk).
    destruct (IH (<[address w := balanceOfInfo (q (address w))]> cache))
      as (Hok & Hin & Hout).
    split; [exact Hok|]. split.
    + intros a Ha.
      destruct (decide (a ∈ address <$> chunk)) as [Hd|Hd]; [by apply Hin|].
      apply elem_of_cons in Ha as [->|Ha]; [|done].
      rewrite (Hout _ Hd). apply lookup_insert_eq.
    + intros a Ha. apply not_elem_of_cons in Ha as [Hne Ha].
      rewrite (Hout _ Ha). by apply lookup_insert_ne.
Qed.
End DetectorFacts.

Section DetectorFrame.
Import Detector.

(** Whatever a query answers, scanning a chunk writes only entries of that
    chunk's addresses. *)
Lemma scanBatch_frame (infos : list (option AccountInfo)) :
  forall (chunk : list WalletConfig) (cache : gmap string Z) (ups : list update) a,
    a ∉ address <$> chunk ->
    (scanBatch infos chunk cache ups).1.1 !! a = cache !! a.
Proof.
  induction infos as [|info infos IH]; intros chunk cache ups a Ha; [done|].
  destruct chunk as [|w chunk]; [done|].
  apply not_elem_of_cons in Ha as [Hne Ha].
  cbn [scanBatch].
  destruct (negb _); [destruct (Qgtb _ _)|]; rewrite IH by done;
    try done; by apply lookup_insert_ne.
Qed.

(** Scanning only writes entries: an address that has an entry keeps
    one. *)
Lemma scanBatch_keeps_entries (infos : list (option AccountInfo)) :
  forall (chunk : list WalletConfig) (cache : gmap string Z) (ups : list update) a,
    is_Some (cache !! a) ->
    is_Some ((scanBatch infos chunk cache ups).1.1 !! a).
Proof.
  induction infos as [|info infos IH]; intros chunk cache ups a Ha; [done|].
  destruct chunk as [|w chunk]; [done|].
  cbn [scanBatch].
  destruct (negb _); [destruct (Qgtb _ _)|]; apply IH; try done;
    apply lookup_insert_is_Some;
    (destruct (decide (address w = a)); [by left | by right]).
Qed.

Lemma pollChunk_frame (resp : rpc_result) (chunk : list WalletConfig)
    (st : poll_state) (a : string) :
  a ∉ address <$> chunk ->
  balanceCache (fst (pollChunk resp chunk st)) !! a = balanceCache st !! a.
Proof.
  intros Ha. destruct resp as [infos|message]; [|done].
  unfold pollChunk.
  pose proof (scanBatch_frame infos chunk (balanceCache st) [] a Ha) as H.
  destruct (scanBatch infos chunk (balanceCache st) []) as [[c u] t]. exact H.
Qed.

(** The polling interval influences neither the snapshot nor the
    records. *)
Lemma pollChunk_interval_blind (resp : rpc_result) (chunk : list WalletConfig)
    (st st' : poll_state) :
  balanceCache st = balanceCache st' ->
  balanceCache (fst (pollChunk resp chunk st)) = balanceCache (fst (pollChunk resp chunk st'))
  /\ snd (pollChunk resp chunk st) = snd (pollChunk resp chunk st').
Proof.
  intros H. destruct resp as [infos|message]; unfold pollChunk.
  - rewrite H. destruct (scanBatch infos chunk (balanceCache st') []) as [[c u] t].
    done.
  - cbn. done.
Qed.

Lemma pollChunks_interval_blind (batches : list (list WalletConfig * rpc_result)) :
  forall st st',
    balanceCache st = balanceCache st' ->
    balanceCache (fst (pollChunks batches st)) = balanceCache (fst (pollChunks batches st'))
    /\ snd (pollChunks batches st) = snd (pollChunks batches st').
Proof.
  induction batches as [|[chunk resp] batches IH]; intros st st' H; [done|].
  cbn [pollChunks].
  destruct (pollChunk_interval_blind resp chunk st st' H) as [Hc Hd].
  destruct (pollChunk resp chunk st) as [st1 d1].
  destruct (pollChunk resp chunk st') as [st1' d1'].
  cbn [fst snd] in Hc, Hd. subst d1'.
  destruct (IH st1 st1' Hc) as [Hc2 Hd2].
  destruct (pollChunks batches st1) as [st2 d2].
  destruct (pollChunks batches st1') as [st2' d2'].
  cbn [fst snd] in *. by subst.
Qed.

Lemma pollChunks_frame (batches : list (list WalletConfig * rpc_result)) :
  forall st a,
    (forall chunk resp, (chunk, resp) ∈ batches ->
       a ∈ address <$> chunk -> exists message, resp = RpcErr message) ->
    balanceCache (fst (pollChunks batches st)) !! a = balanceCache st !! a.
Proof.
  induction batches as [|[chunk resp] batches IH]; intros st a H; [done|].
  cbn [pollChunks].
  assert (H1 : balanceCache (fst (pollChunk resp chunk st)) !! a = balanceCache st !! a).
  { destruct (decide (a ∈ address <$> chunk)) as [Hin|Hout].
    - destruct (H chunk resp) as [message ->]; [apply elem_of_cons; by left|done|done].
    - by apply pollChunk_frame. }
  destruct (pollChunk resp chunk st) as [st1 d1]. cbn [fst] in H1.
  specialize (IH st1 a).
  destruct (pollChunks batches st1) as [st2 d2]. cbn [fst] in *.
  rewrite IH; [done|].
  intros c r Hcr. apply H. apply elem_of_cons. by right.
Qed.
End DetectorFrame.

Section DetectorClaims.
Import Detector.

(** The noise test as the script evaluates it on binary64 numbers agrees
    with the exact test of the model at the boundary: a change of one
    lamport is not above the threshold, a change of two lamports is. *)
Lemma noise_test_in_binary64 :
  (0.000000001 <? abs (1 / 1e9))%float = false
  /\ (0.000000001 <? abs (2 / 1e9))%float = true
  /\ (0.000000001 <? abs (-2 / 1e9))%float = true
  /\ Qgtb (Qabs (lamportsToSol 1)) NOISE = false
  /\ Qgtb (Qabs (lamportsToSol 2)) NOISE = true
  /\ Qgtb (Qabs (lamportsToSol (-2))) NOISE = true.
Proof. repeat split; reflexivity. Qed.

(** C2.  In a batch whose balance query answered, an account gets a change
    record exactly when the absolute difference between its newly queried
    balance and its cached balance is strictly above 0.000000001 SOL, and
    after the batch the cache reads ([get(a) ?? 0]) the newly queried
    balance for every account of the batch, whether or not a record was
    produced: the entry is the queried balance, except that an account
    without an entry whose queried balance is 0 stays without one. *)
Theorem change_record_iff_above_noise
    (q : string -> option AccountInfo) (chunk : list WalletConfig)
    (st : poll_state) (w : WalletConfig) :
  w ∈ chunk ->
  let polled := pollChunk (RpcOk ((fun w => q (address w)) <$> chunk)) chunk st in
  let new := balanceOfInfo (q (address w)) in
  let old := cached (balanceCache st) (address w) in
  ((exists u, u ∈ concat (snd polled) /\ address (u_wallet u) = address w)
   <-> (NOISE < Qabs (lamportsToSol (new - old)))%Q)
  /\ cached (balanceCache (fst polled)) (address w) = new
  /\ (balanceCache (fst polled) !! address w = Some new
      \/ (new = 0 /\ balanceCache st !! address w = None)).
Proof.
  intros Hw polled new old.
  destruct (pollChunk_answers q chunk st)
    as (cache' & recs & Hcache & Hrecs & Hin & _ & Hrec & Hex).
  assert (Ha : address w ∈ address <$> chunk) by (by apply list_elem_of_fmap_2).
  assert (Hkeep : is_Some (balanceCache st !! address w) ->
                  is_Some (cache' !! address w)).
  { intros Hsome. rewrite <- Hcache. unfold pollChunk.
    pose proof (scanBatch_keeps_entries ((fun w => q (address w)) <$> chunk)
                  chunk (balanceCache st) [] (address w) Hsome) as Hk.
    destruct (scanBatch _ chunk (balanceCache st) []) as [[c u] t]. exact Hk. }
  subst polled. rewrite Hcache, Hrecs. split; [split|split].
  - intros (u & Hu & Hua). destruct (Hrec u Hu) as (_ & _ & Hd & Hn).
    rewrite Hd, Hua in Hn. exact Hn.
  - intros Hmv. exact (Hex _ Ha Hmv).
  - exact (Hin _ Ha).
  - specialize (Hin _ Ha). unfold cached in Hin. fold new in Hin.
    destruct (cache' !! address w) as [v|] eqn:Hv; cbn in Hin.
    + left. by rewrite Hin.
    + right. split; [by rewrite Hin|].
      destruct (balanceCache st !! address w) as [v|] eqn:Hst; [|reflexivity].
      destruct Hkeep as [v' Hv']; [by eexists | congruence].
Qed.

Lemma change_record_iff_above_noise_witness :
  let w1 := {| address := "A"; name := "a"; emoji := "" |} in
  let w2 := {| address := "B"; name := "b"; emoji := "" |} in
  let q := fun a : string =>
             if String.eqb a "A" then Some {| lamports := 7 |}
             else Some {| lamports := 501 |} in
  let st := {| balanceCache := <["A" := 5]> (<["B" := 500]> ∅);
               dynamicInterval := 1000 |} in
  let polled := pollChunk (RpcOk ((fun w => q (address w)) <$> [w1; w2])) [w1; w2] st in
  ((exists u, u ∈ concat (snd polled) /\ address (u_wallet u) = "A")
   <-> (NOISE < Qabs (lamportsToSol (7 - 5)))%Q)
  /\ cached (balanceCache (fst polled)) "B" = 501.
Proof.
  intros w1 w2 q st polled. split.
  - apply (change_record_iff_above_noise q [w1; w2] st w1).
    apply elem_of_cons. by left.
  - refine (proj1 (proj2 (change_record_iff_above_noise q [w1; w2] st w2 _))).
    apply elem_of_cons. right. apply elem_of_cons. by left.
Defined.

(** C8.  A batch whose balance query fails changes no cache entry and
    yields no change record; a polling round containing it ends with the
    same cache and the same records as the round without it, and every
    account that is only in failed batches keeps its entry exactly, for
    the next round to diff against. *)
Theorem failed_batch_leaves_snapshot
    (batches : list (list WalletConfig * rpc_result)) (i : nat)
    (chunk : list WalletConfig) (message : string) (st : poll_state) :
  batches !! i = Some (chunk, RpcErr message) ->
  (balanceCache (fst (pollChunk (RpcErr message) chunk st)) = balanceCache st
   /\ snd (pollChunk (RpcErr message) chunk st) = [])
  /\ balanceCache (fst (pollChunks batches st))
     = balanceCache (fst (pollChunks (delete i batches) st))
  /\ snd (pollChunks batches st) = snd (pollChunks (delete i batches) st)
  /\ (forall a,
        (forall c r, (c, r) ∈ batches -> a ∈ address <$> c ->
                     exists m, r = RpcErr m) ->
        balanceCache (fst (pollChunks batches st)) !! a = balanceCache st !! a).
Proof.
  intros Hi. split; [done|].
  assert (Hdel : balanceCache (fst (pollChunks batches st))
                 = balanceCache (fst (pollChunks (delete i batches) st))
                 /\ snd (pollChunks batches st)
                    = snd (pollChunks (delete i batches) st)).
  { revert i st Hi.
    induction batches as [|[c r] batches IH]; intros i st Hi; [done|].
    destruct i as [|i].
    - cbn in Hi. injection Hi as -> ->.
      cbn [delete list_delete pollChunks].
      change (pollChunk (RpcErr message) chunk st) with
        ({| balanceCache := balanceCache st;
            dynamicInterval :=
              if includes message "429"
              then (if 10000 <? dynamicInterval st + 1000 then 10000
                    else dynamicInterval st + 1000)
              else dynamicInterval st |}, @nil (list update)).
      cbv beta iota.
      match goal with
      | |- context [pollChunks batches ?s] =>
          destruct (pollChunks_interval_blind batches s st eq_refl) as [Hc Hd];
          destruct (pollChunks batches s) as [st2 d2]
      end.
      cbn [fst snd app] in *. done.
    - cbn in Hi. cbn [delete list_delete pollChunks].
      destruct (pollChunk r c st) as [st1 d1].
      specialize (IH i st1 Hi). destruct IH as [Hc Hd].
      destruct (pollChunks batches st1) as [st2 d2].
      destruct (pollChunks (delete i batches) st1) as [st2' d2'].
      cbn [fst snd] in *. by subst. }
  destruct Hdel as [Hc Hd]. split; [exact Hc|]. split; [exact Hd|].
  intros a Ha. by apply pollChunks_frame.
Qed.

Lemma failed_batch_leaves_snapshot_witness :
  let w1 := {| address := "A"; name := "a"; emoji := "" |} in
  let w2 := {| address := "B"; name := "b"; emoji := "" |} in
  let batches := [([w1], RpcErr "429 Too Many Requests");
                  ([w2], RpcOk [Some {| lamports := 900 |}])] in
  let st := {| balanceCache := <["A" := 5]> (<["B" := 500]> ∅);
               dynamicInterval := 1000 |} in
  balanceCache (fst (pollChunks batches st))
  = balanceCache (fst (pollChunks (delete 0%nat batches) st))
  /\ snd (pollChunks batches st) = snd (pollChunks (delete 0%nat batches) st).
Proof.
  intros w1 w2 batches st.
  destruct (failed_batch_leaves_snapshot batches 0 [w1] "429 Too Many Requests" st
              eq_refl) as (_ & Hc & Hd & _).
  split; [exact Hc | exact Hd].
Defined.

(** C10.  An account for which the batched lookup returns no account info
    is recorded with balance exactly 0, in the initial snapshot and in
    every polling round.  So an account that disappears while the cache
    holds b, with b above the noise threshold, gets a change record with
    delta -b, and an account recorded at 0 that appears with balance b
    above the threshold gets a change record with delta +b. *)
Theorem missing_account_counts_as_zero
    (q : string -> option AccountInfo) (chunk : list WalletConfig)
    (st : poll_state) (w : WalletConfig) :
  w ∈ chunk ->
  let answers := RpcOk ((fun w => q (address w)) <$> chunk) in
  let polled := pollChunk answers chunk st in
  (q (address w) = None ->
     initChunk answers chunk (balanceCache st) !! address w = Some 0
     /\ cached (balanceCache (fst polled)) (address w) = 0
     /\ (forall b, cached (balanceCache st) (address w) = b ->
           (NOISE < lamportsToSol b)%Q ->
           exists u, u ∈ concat (snd polled)
                     /\ address (u_wallet u) = address w
                     /\ u_cur u = 0
                     /\ u_diffSol u = lamportsToSol (- b)))
  /\ (forall b, q (address w) = Some {| lamports := b |} ->
        cached (balanceCache st) (address w) = 0 ->
        (NOISE < lamportsToSol b)%Q ->
        exists u, u ∈ concat (snd polled)
                  /\ address (u_wallet u) = address w
                  /\ u_cur u = b
                  /\ u_diffSol u = lamportsToSol b).
Proof.
  intros Hw answers polled.
  assert (Ha : address w ∈ address <$> chunk) by (by apply list_elem_of_fmap_2).
  destruct (pollChunk_answers q chunk st)
    as (cache' & recs & Hcache & Hrecs & Hin & _ & Hrec & Hex).
  subst polled answers. rewrite Hcache, Hrecs.
  assert (Habs : forall b, (NOISE < lamportsToSol b)%Q ->
                   (NOISE < Qabs (lamportsToSol b))%Q
                   /\ (NOISE < Qabs (lamportsToSol (- b)))%Q).
  { intros b Hb. unfold lamportsToSol, NOISE, Qlt in *. cbn in *.
    destruct b; cbn in *; lia. }
  split.
  - intros Hq. split; [|split].
    + unfold initChunk.
      destruct (initBatch_answers q chunk (balanceCache st)) as (_ & Hinit & _).
      rewrite (Hinit _ Ha), Hq. reflexivity.
    + rewrite (Hin _ Ha), Hq. reflexivity.
    + intros b Hold Hb.
      destruct (Hex (address w) Ha) as (u & Hu & Hua).
      { rewrite Hq, Hold. cbn [balanceOfInfo]. rewrite Z.sub_0_l.
        by apply Habs. }
      exists u. destruct (Hrec u Hu) as (_ & Hc & Hd & _).
      rewrite Hua, Hq in Hc, Hd. cbn [balanceOfInfo] in Hc, Hd.
      rewrite Hold, Z.sub_0_l in Hd. done.
  - intros b Hq Hold Hb.
    destruct (Hex (address w) Ha) as (u & Hu & Hua).
    { rewrite Hq, Hold. cbn [balanceOfInfo lamports]. rewrite Z.sub_0_r.
      by apply Habs. }
    exists u. destruct (Hrec u Hu) as (_ & Hc & Hd & _).
    rewrite Hua, Hq in Hc, Hd. cbn [balanceOfInfo lamports] in Hc, Hd.
    rewrite Hold, Z.sub_0_r in Hd. done.
Qed.

Lemma missing_account_counts_as_zero_witness :
  let w1 := {| address := "A"; name := "a"; emoji := "" |} in
  let w2 := {| address := "B"; name := "b"; emoji := "" |} in
  let q := fun a : string =>
             if String.eqb a "A" then None else Some {| lamports := 2500 |} in
  let st := {| balanceCache := <["A" := 1000]> (<["B" := 0]> ∅);
               dynamicInterval := 1000 |} in
  let answers := RpcOk ((fun w => q (address w)) <$> [w1; w2]) in
  let polled := pollChunk answers [w1; w2] st in
  (initChunk answers [w1; w2] (balanceCache st) !! "A" = Some 0
   /\ exists u, u ∈ concat (snd polled) /\ address (u_wallet u) = "A"
                /\ u_cur u = 0 /\ u_diffSol u = lamportsToSol (- 1000))
  /\ (exists u, u ∈ concat (snd polled) /\ address (u_wallet u) = "B"
                /\ u_cur u = 2500 /\ u_diffSol u = lamportsToSol 2500).
Proof.
  intros w1 w2 q st answers polled. split.
  - destruct (missing_account_counts_as_zero q [w1; w2] st w1) as [Hgone _].
    { apply elem_of_cons. by left. }
    destruct (Hgone eq_refl) as (Hinit & _ & Hrec).
    split; [exact Hinit|]. apply (Hrec 1000); reflexivity.
  - destruct (missing_account_counts_as_zero q [w1; w2] st w2) as [_ Happ].
    { apply elem_of_cons. right. apply elem_of_cons. by left. }
    apply (Happ 2500); reflexivity.
Defined.
End DetectorClaims.

(** ** Bounded dispatch *)

Section DispatchFacts.
Import Dispatch.
Context {T : Type}.

Lemma inflight_app (a b : list (event T)) :
  inflight (a ++ b) = inflight a + inflight b.
Proof.
  induction a as [|[t|t] a IH]; cbn [app inflight]; lia.
Qed.

Lemma inflight_take_starts (l : list T) (k : nat) :
  inflight (take k (Start <$> l)) = Z.of_nat (k `min` length l).
Proof.
  revert k. induction l as [|x l IH]; intros [|k]; cbn; try reflexivity.
  rewrite IH. lia.
Qed.

Lemma inflight_take_finishes (l : list T) (k : nat) :
  inflight (take k (Finish <$> l)) = - Z.of_nat (k `min` length l).
Proof.
  revert k. induction l as [|x l IH]; intros [|k]; cbn; try reflexivity.
  rewrite IH. lia.
Qed.

Lemma dispatch_run_settles (batches : list (list T)) (tr : list (event T)) :
  dispatch_run batches tr -> inflight tr = 0.
Proof.
  induction 1 as [|batch finished batches tr Hperm Hrun IH]; [reflexivity|].
  rewrite !inflight_app, IH.
  pose proof (inflight_take_starts batch (length batch)) as Hs.
  pose proof (inflight_take_finishes finished (length finished)) as Hf.
  rewrite <- (length_fmap Start), firstn_all in Hs.
  rewrite <- (length_fmap Finish), firstn_all in Hf.
  rewrite Hs, Hf, !length_fmap, (Permutation_length Hperm). lia.
Qed.

Lemma dispatch_run_bounded (permits : nat) (batches : list (list T))
    (tr : list (event T)) :
  Forall (fun b => (length b <= permits)%nat) batches ->
  dispatch_run batches tr ->
  forall n, 0 <= inflight (take n tr) <= Z.of_nat permits.
Proof.
  intros Hall Hrun. induction Hrun as [|batch finished batches tr Hperm Hrun IH].
  - intros n. rewrite take_nil. cbn. lia.
  - apply Forall_cons in Hall as [Hb Hall]. specialize (IH Hall).
    intros n. rewrite !take_app, !inflight_app, !length_fmap.
    rewrite inflight_take_starts, inflight_take_finishes.
    pose proof (Permutation_length Hperm) as Hlen.
    destruct (decide (n <= length batch + length finished)%nat) as [Hn|Hn].
    + replace (n - length batch - length finished)%nat with 0%nat by lia.
      rewrite take_0. cbn [inflight]. lia.
    + specialize (IH (n - length batch - length finished)%nat). lia.
Qed.

Lemma dispatch_run_split (before after : list (list T)) (tr : list (event T)) :
  dispatch_run (before ++ after) tr ->
  exists tr1 tr2,
    tr = tr1 ++ tr2 /\ dispatch_run before tr1 /\ dispatch_run after tr2.
Proof.
  revert tr. induction before as [|b before IH]; intros tr Hrun.
  - exists [], tr. repeat split; [constructor | exact Hrun].
  - inversion Hrun as [|batch finished batches tr' Hperm Hrun' Eb Et]; subst.
    destruct (IH _ Hrun') as (tr1 & tr2 & -> & H1 & H2).
    exists ((Start <$> b) ++ (Finish <$> finished) ++ tr1), tr2.
    split; [by rewrite <- !app_assoc|].
    split; [by constructor | exact H2].
Qed.

Lemma run_in_order_is_run (batches : list (list T)) :
  dispatch_run batches (run_in_order batches).
Proof.
  induction batches as [|b batches IH]; cbn [run_in_order]; by constructor.
Qed.
End DispatchFacts.

Section DispatchClaims.
Import Detector Dispatch.

Lemma pollChunk_bounded (resp : rpc_result) (chunk : list WalletConfig)
    (st : poll_state) :
  Forall (fun b : list update => (length b <= MAX_CONCURRENT_TASKS)%nat)
    (snd (pollChunk resp chunk st)).
Proof.
  destruct resp as [infos|message]; [|constructor].
  unfold pollChunk.
  destruct (scanBatch infos chunk (balanceCache st) []) as [[c ups] threw].
  cbn [snd]. destruct threw; [constructor|].
  destruct ups; [constructor|]. apply chunkArray_bounded.
Qed.

Lemma pollChunks_bounded (batches : list (list WalletConfig * rpc_result)) :
  forall st,
    Forall (fun b : list update => (length b <= MAX_CONCURRENT_TASKS)%nat)
      (snd (pollChunks batches st)).
Proof.
  induction batches as [|[chunk resp] batches IH]; intros st; [constructor|].
  cbn [pollChunks].
  pose proof (pollChunk_bounded resp chunk st) as H1.
  destruct (pollChunk resp chunk st) as [st1 d1].
  specialize (IH st1). destruct (pollChunks batches st1) as [st2 d2].
  cbn [snd] in *. apply Forall_app. by split.
Qed.

(** C9.  In every polling round the change records are dispatched in
    batches of at most MAX_CONCURRENT_TASKS = 5 (the batches of a chunk
    partition its records), a batch is started only when no task of an
    earlier batch is still running, and so at no point of the round are
    more than 5 resolve-and-classify tasks in flight, however many records
    the round produces. *)
Theorem inflight_never_exceeds_permits
    (wallets : list WalletConfig) (rpc : nat -> rpc_result) (st : poll_state)
    (tr : list (event update)) :
  dispatch_run (snd (pollCycle wallets rpc st)) tr ->
  (forall updates : list update,
     concat (chunkArray updates MAX_CONCURRENT_TASKS) = updates
     /\ Forall (fun b => (length b <= MAX_CONCURRENT_TASKS)%nat)
          (chunkArray updates MAX_CONCURRENT_TASKS))
  /\ Forall (fun b => (length b <= MAX_CONCURRENT_TASKS)%nat)
       (snd (pollCycle wallets rpc st))
  /\ (forall before batch after,
        snd (pollCycle wallets rpc st) = before ++ batch :: after ->
        exists tr1 tr2,
          tr = tr1 ++ tr2 /\ dispatch_run before tr1 /\ inflight tr1 = 0
          /\ dispatch_run (batch :: after) tr2)
  /\ (forall n, 0 <= inflight (take n tr) <= Z.of_nat MAX_CONCURRENT_TASKS).
Proof.
  intros Hrun.
  assert (Hb : Forall (fun b : list update => (length b <= MAX_CONCURRENT_TASKS)%nat)
                 (snd (pollCycle wallets rpc st)))
    by apply pollChunks_bounded.
  split; [|split; [exact Hb|split]].
  - intros updates. split; [|apply chunkArray_bounded].
    apply chunkArray_concat. unfold MAX_CONCURRENT_TASKS. lia.
  - intros before batch after Heq. rewrite Heq in Hrun.
    destruct (dispatch_run_split _ _ _ Hrun) as (tr1 & tr2 & -> & H1 & H2).
    exists tr1, tr2. repeat split; try done.
    by apply dispatch_run_settles in H1.
  - by apply dispatch_run_bounded with (batches := snd (pollCycle wallets rpc st)).
Qed.

Lemma inflight_never_exceeds_permits_witness :
  let wallet := fun a : string => {| address := a; name := a; emoji := "" |} in
  let wallets := wallet <$> ["w1"; "w2"; "w3"; "w4"; "w5"; "w6"; "w7"]%string in
  let rpc := fun _ : nat => RpcOk (replicate 7 (Some {| lamports := 10 |})) in
  let st := {| balanceCache := ∅; dynamicInterval := 1000 |} in
  let tr := run_in_order (snd (pollCycle wallets rpc st)) in
  length <$> snd (pollCycle wallets rpc st) = [5; 2]%nat
  /\ forall n, 0 <= inflight (take n tr) <= 5.
Proof.
  intros wallet wallets rpc st tr. split; [reflexivity|].
  apply (inflight_never_exceeds_permits wallets rpc st tr).
  apply run_in_order_is_run.
Defined.
End DispatchClaims.

(** ** Signature resolution retrier *)

Section RetrierFacts.
Import Retrier.

Lemma slept_app (a b : list effect) : slept (a ++ b) = slept a + slept b.
Proof. induction a as [|[|ms] a IH]; cbn [app slept]; lia. Qed.

Lemma queries_app (a b : list effect) :
  queries (a ++ b) = (queries a + queries b)%nat.
Proof. induction a as [|[|ms] a IH]; cbn [app queries]; lia. Qed.

Lemma attempt_stops_iff (resp : sig_response) (st : retry_state) :
  snd (attempt resp st) = true <-> exists sigs, resp = SigOk sigs /\ usable sigs = true.
Proof.
  destruct resp as [sigs|message]; cbn.
  - destruct (usable sigs) eqn:E; cbn; split; try done.
    + intros _. by exists sigs.
    + intros (sigs' & [= <-] & H). congruence.
  - split; [done|]. intros (sigs & [=] & _).
Qed.

Lemma attempt_failed_counts (resp : sig_response) (st : retry_state) :
  snd (attempt resp st) = false ->
  attempts (fst (attempt resp st)) = S (attempts st)
  /\ queries (log (fst (attempt resp st))) = S (queries (log st)).
Proof.
  destruct resp as [sigs|message]; cbn.
  - destruct (usable sigs); cbn; [done|]. intros _.
    rewrite queries_app. cbn. lia.
  - intros _. rewrite !queries_app. destruct (rateLimited message); cbn; lia.
Qed.

Lemma attempt_stop_queries (resp : sig_response) (st : retry_state) :
  snd (attempt resp st) = true ->
  attempts (fst (attempt resp st)) = attempts st
  /\ queries (log (fst (attempt resp st))) = S (queries (log st)).
Proof.
  destruct resp as [sigs|message]; cbn; [|done].
  destruct (usable sigs); cbn; [|done]. intros _.
  rewrite queries_app. cbn. lia.
Qed.

Lemma retryLoop_budget (rpc : nat -> sig_response) (fuel : nat) :
  forall st,
    queries (log st) = attempts st ->
    (attempts st <= MAX_ATTEMPTS)%nat ->
    (queries (log (retryLoop fuel rpc st)) <= MAX_ATTEMPTS)%nat
    /\ (attempts (retryLoop fuel rpc st) <= MAX_ATTEMPTS)%nat.
Proof.
  induction fuel as [|fuel IH]; intros st Hq Ha; cbn [retryLoop]; [lia|].
  destruct (attempts st <? MAX_ATTEMPTS)%nat eqn:E; [|lia].
  apply Nat.ltb_lt in E.
  destruct (attempt (rpc (attempts st)) st) as [st' stop] eqn:Eat.
  destruct stop.
  - destruct (attempt_stop_queries (rpc (attempts st)) st) as [H1 H2];
      rewrite Eat in *; cbn [fst snd] in *; [done|lia].
  - destruct (attempt_failed_counts (rpc (attempts st)) st) as [H1 H2];
      rewrite Eat in *; cbn [fst snd] in *; [done|].
    apply IH; lia.
Qed.

Lemma retryLoop_fuel (rpc : nat -> sig_response) (fuel1 : nat) :
  forall fuel2 st,
    (MAX_ATTEMPTS - attempts st <= fuel1)%nat ->
    (MAX_ATTEMPTS - attempts st <= fuel2)%nat ->
    retryLoop fuel1 rpc st = retryLoop fuel2 rpc st.
Proof.
  induction fuel1 as [|fuel1 IH]; intros fuel2 st H1 H2.
  - destruct fuel2 as [|fuel2]; [reflexivity|]. cbn [retryLoop].
    destruct (attempts st <? MAX_ATTEMPTS)%nat eqn:E; [|reflexivity].
    apply Nat.ltb_lt in E. lia.
  - cbn [retryLoop].
    destruct (attempts st <? MAX_ATTEMPTS)%nat eqn:E.
    + pose proof (proj1 (Nat.ltb_lt _ _) E) as Hlt.
      destruct fuel2 as [|fuel2]; [lia|]. cbn [retryLoop]. rewrite E.
      destruct (attempt (rpc (attempts st)) st) as [st' stop] eqn:Eat.
      destruct stop; [reflexivity|].
      destruct (attempt_failed_counts (rpc (attempts st)) st) as [Hs _];
        rewrite Eat in *; cbn [fst snd] in *; [done|].
      apply IH; lia.
    + destruct fuel2 as [|fuel2]; [reflexivity|]. cbn [retryLoop]. by rewrite E.
Qed.

(** C3 as stated fails: a rate-limited attempt is counted like any other
    failed attempt.  After fifteen rate-limited attempts the loop gives up
    with no signature, although the sixteenth query would have answered. *)
Lemma rate_limited_attempt_consumes_budget :
  let st0 := {| signatures := []; attempts := 0; log := [] |} in
  let limited := SigThrow (Some "429 Too Many Requests"%string) in
  let good := {| signature := "5sig"; err := false |} in
  let rpc := fun k : nat => if (k <? 15)%nat then limited else SigOk [good] in
  attempts (fst (attempt limited st0)) = 1%nat
  /\ signatures (resolveSignatures rpc) = []
  /\ attempts (resolveSignatures rpc) = 15%nat
  /\ queries (log (resolveSignatures rpc)) = 15%nat
  /\ ~ (forall st message,
          rateLimited message = true ->
          attempts (fst (attempt (SigThrow message) st)) = attempts st).
Proof.
  intros st0 limited good rpc.
  repeat split; try reflexivity.
  intros H. specialize (H st0 (Some "429 Too Many Requests"%string) eq_refl).
  discriminate H.
Qed.

(** C3, amended.  An attempt that fails on a rate-limit signal sleeps
    1000 ms + 200 ms before the next attempt, strictly longer than the
    200 ms after an attempt that returned no usable signature; every
    attempt that does not end the loop (no signature, an errored newest
    signature, a rate-limit signal or any other thrown error) consumes one
    attempt of the budget of 15; the loop ends only on a usable signature
    or an exhausted budget, and issues at most 15 queries. *)
Theorem every_failed_attempt_consumes_budget
    (st : retry_state) (message : option string) (sigs : list SignatureInfo) :
  rateLimited message = true ->
  usable sigs = false ->
  (let limited := fst (attempt (SigThrow message) st) in
   let nodata := fst (attempt (SigOk sigs) st) in
   slept (log limited) - slept (log st) = 1200
   /\ slept (log nodata) - slept (log st) = 200
   /\ attempts limited = S (attempts st)
   /\ attempts nodata = S (attempts st))
  /\ (forall resp st',
        snd (attempt resp st') = false ->
        attempts (fst (attempt resp st')) = S (attempts st'))
  /\ (forall resp st',
        snd (attempt resp st') = true <->
        exists sigs', resp = SigOk sigs' /\ usable sigs' = true)
  /\ (forall rpc,
        (queries (log (resolveSignatures rpc)) <= MAX_ATTEMPTS)%nat
        /\ (attempts (resolveSignatures rpc) <= MAX_ATTEMPTS)%nat
        /\ forall fuel, (MAX_ATTEMPTS <= fuel)%nat ->
             retryLoop fuel rpc {| signatures := []; attempts := 0; log := [] |}
             = resolveSignatures rpc).
Proof.
  intros Hlim Hno. split; [|split; [|split]].
  - cbn. rewrite Hlim, Hno. cbn. rewrite !slept_app. cbn. lia.
  - intros resp st' H. by apply attempt_failed_counts.
  - intros resp st'. apply attempt_stops_iff.
  - intros rpc. unfold resolveSignatures.
    destruct (retryLoop_budget rpc MAX_ATTEMPTS
                {| signatures := []; attempts := 0; log := [] |}) as [Hq Ha];
      [reflexivity | cbn; lia |].
    split; [exact Hq|]. split; [exact Ha|].
    intros fuel Hfuel. apply retryLoop_fuel; cbn [attempts]; lia.
Qed.

Lemma every_failed_attempt_consumes_budget_witness :
  let st := {| signatures := []; attempts := 3; log := [] |} in
  let limited := fst (attempt (SigThrow (Some "Server responded with 429"%string)) st) in
  let nodata := fst (attempt (SigOk []) st) in
  slept (log limited) - slept (log st) = 1200
  /\ slept (log nodata) - slept (log st) = 200
  /\ attempts limited = 4%nat
  /\ attempts nodata = 4%nat.
Proof.
  intros st limited nodata.
  exact (proj1 (every_failed_attempt_consumes_budget st
                  (Some "Server responded with 429"%string) [] eq_refl eq_refl)).
Defined.
End RetrierFacts.

(** ** Transaction classifier *)

Section FloatFacts.
Local Open Scope float_scope.

(** Adding a number of non-zero magnitude to [+0] returns it unchanged. *)
Lemma add_zero_l (d : float) : (0 <? abs d) = true -> 0 + d = d.
Proof.
  intros H. apply Prim2SF_inj. rewrite add_spec.
  rewrite ltb_spec, abs_spec in H.
  change (Prim2SF 0) with (S754_zero false) in *.
  destruct (Prim2SF d) as [s|s| |s m e]; cbn in *;
    try reflexivity; discriminate.
Qed.
End FloatFacts.

Section SetFacts.
Import Classifier.

Lemma existsb_eqb_elem (x : string) (set : list string) :
  existsb (String.eqb x) set = true <-> x ∈ set.
Proof.
  rewrite existsb_exists. split.
  - intros (y & Hy & Heq). apply String.eqb_eq in Heq as ->.
    by apply list_elem_of_In.
  - intros H. exists x. split; [by apply list_elem_of_In | apply String.eqb_refl].
Qed.

Lemma setAdd_elem (set : list string) (x y : string) :
  y ∈ setAdd set x <-> y ∈ set \/ y = x.
Proof.
  unfold setAdd. destruct (existsb (String.eqb x) set) eqn:E.
  - apply existsb_eqb_elem in E. split; [by left|]. intros [H| ->]; done.
  - rewrite elem_of_app, list_elem_of_singleton. done.
Qed.

Lemma setAdd_NoDup (set : list string) (x : string) :
  NoDup set -> NoDup (setAdd set x).
Proof.
  intros H. unfold setAdd. destruct (existsb (String.eqb x) set) eqn:E; [done|].
  apply NoDup_app. split; [done|]. split; [|apply NoDup_singleton].
  intros y Hy Hy'. apply list_elem_of_singleton in Hy' as ->.
  apply existsb_eqb_elem in Hy. congruence.
Qed.

Lemma fold_setAdd_elem (l : list string) :
  forall set y, y ∈ fold_left setAdd l set <-> y ∈ set \/ y ∈ l.
Proof.
  induction l as [|x l IH]; intros set y; cbn [fold_left].
  - split; [by left|]. intros [H|H]; [done|by apply elem_of_nil in H].
  - rewrite IH, setAdd_elem, elem_of_cons. tauto.
Qed.

Lemma fold_setAdd_NoDup (l : list string) :
  forall set, NoDup set -> NoDup (fold_left setAdd l set).
Proof.
  induction l as [|x l IH]; intros set H; cbn [fold_left]; [done|].
  apply IH. by apply setAdd_NoDup.
Qed.

Lemma allMints_elem (pre post : list TokenBalance) (m : string) :
  m ∈ allMints pre post <-> m ∈ mint <$> pre \/ m ∈ mint <$> post.
Proof.
  unfold allMints. rewrite !fold_setAdd_elem.
  split; [intros [[H|H]|H]; try tauto; by apply elem_of_nil in H | tauto].
Qed.

Lemma allMints_NoDup (pre post : list TokenBalance) : NoDup (allMints pre post).
Proof. unfold allMints. do 2 apply fold_setAdd_NoDup. apply NoDup_nil_2. Qed.

Lemma findBalance_mint (bals : list TokenBalance) (m pubKey : string) :
  m ∉ mint <$> bals -> findBalance bals m pubKey = None.
Proof.
  unfold findBalance. induction bals as [|b bals IH]; intros H; [reflexivity|].
  apply not_elem_of_cons in H as [Hne H]. cbn [List.find].
  destruct (String.eqb (mint b) m) eqn:E.
  - apply String.eqb_eq in E. congruence.
  - cbn [andb]. by apply IH.
Qed.

(** A mint that no token balance mentions has no delta. *)
Lemma tokenDiff_unlisted (pre post : list TokenBalance) (pubKey m : string) :
  m ∉ allMints pre post ->
  (0 <? abs (tokenDiff pre post pubKey m))%float = false.
Proof.
  intros H. rewrite allMints_elem in H.
  unfold tokenDiff. rewrite !findBalance_mint by tauto. reflexivity.
Qed.
End SetFacts.

Section ScanFacts.
Import Classifier.
Local Open Scope float_scope.

Variables (pre post : list TokenBalance) (pubKey : string).

Let diff := tokenDiff pre post pubKey.
Let step := scanMint pre post pubKey.

Lemma truthy_nonempty (s : string) : truthy s = true <-> s ≠ ""%string.
Proof. destruct s; cbn; split; congruence. Qed.

Let target_ok := scan_invariant pre post pubKey.

Lemma step_target_ok (st : scan_state) (m : string) :
  m ≠ ""%string -> target_ok st -> target_ok (step st m).
Proof.
  intros Hm Hok. unfold step, scanMint. fold (diff m).
  destruct (0 <? abs (diff m)) eqn:Hnz; [|exact Hok].
  destruct (String.eqb m WSOL_MINT) eqn:Hw; [exact Hok|].
  apply String.eqb_neq in Hw.
  destruct (abs (targetChange st) <? abs (diff m)); [|exact Hok].
  right. cbn. done.
Qed.

Lemma step_candidate (st : scan_state) (m : string) :
  m ≠ ""%string -> target_ok st ->
  m ≠ WSOL_MINT -> (0 <? abs (diff m)) = true ->
  targetMint (step st m) ≠ ""%string.
Proof.
  intros Hm Hok Hw Hnz. unfold step, scanMint. fold (diff m).
  rewrite Hnz. apply String.eqb_neq in Hw. rewrite Hw.
  destruct Hok as [[_ Hzero]|[Hne _]].
  - rewrite Hzero. change (abs 0) with 0. rewrite Hnz. exact Hm.
  - destruct (abs (targetChange st) <? abs (diff m)); [exact Hm | exact Hne].
Qed.

Lemma scan_keeps_target (l : list string) :
  forall st,
    (forall m, m ∈ l -> m ≠ ""%string) ->
    target_ok st -> targetMint st ≠ ""%string ->
    targetMint (fold_left step l st) ≠ ""%string.
Proof.
  induction l as [|a l IH]; intros st Hl Hok Hne; cbn [fold_left]; [exact Hne|].
  assert (Ha : a ≠ ""%string) by (apply Hl, elem_of_cons; by left).
  apply IH.
  - intros m Hm. apply Hl, elem_of_cons. by right.
  - by apply step_target_ok.
  - unfold step, scanMint. fold (diff a).
    destruct (0 <? abs (diff a)); [|exact Hne].
    destruct (String.eqb a WSOL_MINT); [exact Hne|].
    destruct (abs (targetChange st) <? abs (diff a)); [exact Ha | exact Hne].
Qed.

Lemma scan_target_ok (l : list string) :
  forall st,
    (forall m, m ∈ l -> m ≠ ""%string) ->
    target_ok st -> target_ok (fold_left step l st).
Proof.
  induction l as [|a l IH]; intros st Hl Hok; cbn [fold_left]; [exact Hok|].
  apply IH.
  - intros m Hm. apply Hl, elem_of_cons. by right.
  - apply step_target_ok; [|exact Hok]. apply Hl, elem_of_cons. by left.
Qed.

Lemma scan_finds_candidate (l : list string) :
  forall st,
    (forall m, m ∈ l -> m ≠ ""%string) ->
    target_ok st ->
    (exists m, m ∈ l /\ m ≠ WSOL_MINT /\ (0 <? abs (diff m)) = true) ->
    targetMint (fold_left step l st) ≠ ""%string.
Proof.
  induction l as [|a l IH]; intros st Hl Hok (m & Hm & Hw & Hnz).
  - by apply elem_of_nil in Hm.
  - cbn [fold_left].
    assert (Ha : a ≠ ""%string) by (apply Hl, elem_of_cons; by left).
    assert (Hl' : forall x, x ∈ l -> x ≠ ""%string)
      by (intros x Hx; apply Hl, elem_of_cons; by right).
    apply elem_of_cons in Hm as [->|Hm].
    + apply scan_keeps_target; [exact Hl' | by apply step_target_ok |].
      by apply step_candidate.
    + apply IH; [exact Hl' | by apply step_target_ok |].
      by exists m.
Qed.

Lemma scan_without_candidate (l : list string) :
  forall st,
    (forall m, m ∈ l -> m ≠ WSOL_MINT -> (0 <? abs (diff m)) = false) ->
    targetMint (fold_left step l st) = targetMint st
    /\ targetChange (fold_left step l st) = targetChange st.
Proof.
  induction l as [|a l IH]; intros st Hl; cbn [fold_left]; [done|].
  destruct (IH (step st a)) as [H1 H2].
  { intros m Hm. apply Hl, elem_of_cons. by right. }
  rewrite H1, H2. unfold step, scanMint. fold (diff a).
  destruct (0 <? abs (diff a)) eqn:Hnz; [|done].
  destruct (String.eqb a WSOL_MINT) eqn:Hw; [done|].
  apply String.eqb_neq in Hw.
  rewrite Hl in Hnz; [done | apply elem_of_cons; by left | done].
Qed.

Lemma scan_wrapped (l : list string) :
  forall st,
    NoDup l ->
    wSolDiff (fold_left step l st)
    = if (bool_decide (WSOL_MINT ∈ l) && (0 <? abs (diff WSOL_MINT)))%bool
      then wSolDiff st + diff WSOL_MINT
      else wSolDiff st.
Proof.
  induction l as [|a l IH]; intros st Hnd; cbn [fold_left]; [done|].
  apply NoDup_cons in Hnd as [Ha Hnd]. rewrite (IH _ Hnd).
  destruct (String.eqb a WSOL_MINT) eqn:Hw.
  - apply String.eqb_eq in Hw as ->.
    rewrite (bool_decide_eq_false_2 _ Ha).
    rewrite bool_decide_eq_true_2 by (apply elem_of_cons; by left).
    cbn [andb]. unfold step, scanMint. fold (diff WSOL_MINT).
    destruct (0 <? abs (diff WSOL_MINT)); [|done].
    by rewrite String.eqb_refl.
  - assert (Hsame : wSolDiff (step st a) = wSolDiff st).
    { unfold step, scanMint. rewrite Hw. fold (diff a).
      destruct (0 <? abs (diff a)); [|reflexivity].
      destruct (abs (targetChange st) <? abs (diff a)); reflexivity. }
    rewrite Hsame. apply String.eqb_neq in Hw.
    destruct (decide (WSOL_MINT ∈ l)) as [Hin|Hout].
    + rewrite !bool_decide_eq_true_2; [done | apply elem_of_cons; by right | done].
    + rewrite !bool_decide_eq_false_2; [done | | done].
      intros [?|?]%elem_of_cons; congruence.
Qed.

(** The wrapped-native delta the loop accumulates is the delta of the
    wrapped-native mint when that delta has a non-zero magnitude, and 0
    otherwise. *)
Lemma scanMints_wrapped :
  wSolDiff (scanMints pre post pubKey)
  = if 0 <? abs (diff WSOL_MINT) then diff WSOL_MINT else 0.
Proof.
  unfold scanMints. fold step.
  rewrite scan_wrapped by apply allMints_NoDup. cbn [wSolDiff].
  destruct (0 <? abs (diff WSOL_MINT)) eqn:Hnz.
  - destruct (decide (WSOL_MINT ∈ allMints pre post)) as [Hin|Hout].
    + rewrite bool_decide_eq_true_2 by done. cbn [andb]. by apply add_zero_l.
    + apply (tokenDiff_unlisted _ _ pubKey) in Hout. fold diff in Hout. congruence.
  - by rewrite andb_false_r.
Qed.

Lemma scanMints_candidate :
  (forall b, b ∈ pre ++ post -> mint b ≠ ""%string) ->
  (exists m, m ≠ WSOL_MINT /\ (0 <? abs (diff m)) = true) ->
  let st := scanMints pre post pubKey in
  truthy (targetMint st) = true
  /\ targetMint st ≠ WSOL_MINT
  /\ targetChange st = diff (targetMint st)
  /\ (0 <? abs (targetChange st)) = true.
Proof.
  intros Hmints (m & Hw & Hnz) st.
  assert (Hl : forall x, x ∈ allMints pre post -> x ≠ ""%string).
  { intros x Hx. apply allMints_elem in Hx.
    assert (Hb : exists b, x = mint b /\ b ∈ pre ++ post).
    { destruct Hx as [Hx|Hx]; apply list_elem_of_fmap in Hx as (b & -> & Hb);
        exists b; (split; [done|]); apply elem_of_app; tauto. }
    destruct Hb as (b & -> & Hb). by apply Hmints. }
  assert (Hinit : target_ok {| targetMint := ""; targetChange := 0; wSolDiff := 0 |})
    by (left; done).
  assert (Hne : targetMint st ≠ ""%string).
  { subst st. unfold scanMints. fold step.
    apply scan_finds_candidate; [exact Hl | exact Hinit |].
    exists m. split; [|done].
    destruct (decide (m ∈ allMints pre post)) as [Hin|Hout]; [done|].
    apply (tokenDiff_unlisted _ _ pubKey) in Hout. fold diff in Hout. congruence. }
  split; [by apply truthy_nonempty|].
  destruct (scan_target_ok (allMints pre post) _ Hl Hinit) as [[He _]|(_ & H2 & H3 & H4)].
  - exfalso. apply Hne. exact He.
  - exact (conj H2 (conj H3 H4)).
Qed.

Lemma scanMints_no_candidate :
  (forall m, m ≠ WSOL_MINT -> (0 <? abs (diff m)) = false) ->
  targetMint (scanMints pre post pubKey) = ""%string.
Proof.
  intros H. unfold scanMints. fold step.
  destruct (scan_without_candidate (allMints pre post)
              {| targetMint := ""; targetChange := 0; wSolDiff := 0 |}) as [H1 _].
  - intros m _ Hw. by apply H.
  - exact H1.
Qed.
End ScanFacts.

Section ClassifierClaims.
Import Classifier.
Local Open Scope float_scope.

Ltac details := cbn [type isBuy tokenMint tokenChange solChange].

Variables (fetchToken : string -> option TokenMarketData)
          (fetchRug : string -> RugCheckData).

(** C1.  When some token other than wrapped-native has a delta of non-zero
    magnitude for the watched account, the classifier returns SWAP exactly
    when the log trace carries a recognised swap-program marker or the
    absolute native delta exceeds 0.05, and TRANSFER otherwise; both
    results report the same target token and token delta; in the SWAP
    result isBuy is true exactly when that delta is positive. *)
Theorem swap_candidate_is_swap_or_transfer
    (pubKey sig : string) (t : ParsedTransaction) (m : TxMeta) (i : nat) :
  meta t = Some m ->
  findIndex (accountKeys t) pubKey = Some i ->
  let pre := default [] (preTokenBalances m) in
  let post := default [] (postTokenBalances m) in
  (forall b, b ∈ pre ++ post -> mint b ≠ ""%string) ->
  (exists tok, tok ≠ WSOL_MINT
               /\ (0 <? abs (tokenDiff pre post pubKey tok)) = true) ->
  exists d,
    classify fetchToken fetchRug pubKey sig (Some t) = Some d
    /\ (type d = SWAP <->
        isSwapProgram (default [] (logMessages m)) = true
        \/ (0.05 <? abs (nativeDiffOf m i)) = true)
    /\ (type d ≠ SWAP -> type d = TRANSFER)
    /\ tokenMint d ≠ WSOL_MINT
    /\ tokenChange d = tokenDiff pre post pubKey (tokenMint d)
    /\ (0 <? abs (tokenChange d)) = true
    /\ (type d = SWAP ->
        isBuy d = (0 <? tokenDiff pre post pubKey (tokenMint d))).
Proof.
  intros Hmeta Hidx pre post Hmints Hcand.
  destruct (scanMints_candidate pre post pubKey Hmints Hcand)
    as (Htruthy & Hw & Hchange & Hnz).
  unfold classify. rewrite Hmeta, Hidx. fold pre post. rewrite Htruthy.
  destruct (isSwapProgram (default [] (logMessages m))) eqn:Hprog; cbn [negb andb].
  - eexists. split; [reflexivity|]. details.
    split; [split; [by left|done]|]. split; [done|].
    split; [exact Hw|]. split; [exact Hchange|]. split; [exact Hnz|].
    intros _. by rewrite <- Hchange.
  - destruct (0.05 <? abs (nativeDiffOf m i)) eqn:Hbig.
    + eexists. split; [reflexivity|]. details.
      split; [split; [by right|done]|]. split; [done|].
      split; [exact Hw|]. split; [exact Hchange|]. split; [exact Hnz|].
      intros _. by rewrite <- Hchange.
    + eexists. split; [reflexivity|]. details.
      split; [split; [done|intros [?|?]; done]|]. split; [done|].
      split; [exact Hw|]. split; [exact Hchange|]. split; [exact Hnz|]. done.
Qed.

(** C4.  When no token other than wrapped-native has a delta of non-zero
    magnitude, the classifier returns WRAP exactly when the absolute
    native delta and the absolute wrapped-native delta both exceed 0.001
    and the absolute value of their sum is below 0.01; isWrapping (isBuy)
    is then true exactly when the wrapped-native delta is positive; in
    every other such case it returns TRANSFER reporting the sum of the
    native and the wrapped-native delta.  The wrapped-native delta is the
    delta of the wrapped-native mint, counted as 0 when it has no non-zero
    magnitude. *)
Theorem no_candidate_is_wrap_or_transfer
    (pubKey sig : string) (t : ParsedTransaction) (m : TxMeta) (i : nat) :
  meta t = Some m ->
  findIndex (accountKeys t) pubKey = Some i ->
  let pre := default [] (preTokenBalances m) in
  let post := default [] (postTokenBalances m) in
  (forall tok, tok ≠ WSOL_MINT ->
               (0 <? abs (tokenDiff pre post pubKey tok)) = false) ->
  let native := nativeDiffOf m i in
  let wrapped :=
    if 0 <? abs (tokenDiff pre post pubKey WSOL_MINT)
    then tokenDiff pre post pubKey WSOL_MINT else 0 in
  exists d,
    classify fetchToken fetchRug pubKey sig (Some t) = Some d
    /\ (type d = WRAP <->
        (0.001 <? abs native) = true
        /\ (0.001 <? abs wrapped) = true
        /\ (abs (native + wrapped) <? 0.01) = true)
    /\ (type d = WRAP ->
        isBuy d = (0 <? wrapped)
        /\ tokenChange d = wrapped /\ solChange d = native)
    /\ (type d ≠ WRAP ->
        type d = TRANSFER
        /\ solChange d = native + wrapped
        /\ tokenChange d = native + wrapped
        /\ isBuy d = (0 <? native + wrapped)).
Proof.
  intros Hmeta Hidx pre post Hnone native wrapped.
  pose proof (scanMints_no_candidate pre post pubKey Hnone) as Htarget.
  pose proof (scanMints_wrapped pre post pubKey) as Hwrapped.
  fold wrapped in Hwrapped.
  unfold classify. rewrite Hmeta, Hidx. fold pre post native.
  rewrite Htarget, Hwrapped. cbn [truthy].
  destruct (0.001 <? abs native) eqn:H1; cbn [andb].
  - destruct (0.001 <? abs wrapped) eqn:H2; cbn [andb].
    + destruct (abs (native + wrapped) <? 0.01) eqn:H3.
      * eexists. split; [reflexivity|]. details. done.
      * eexists. split; [reflexivity|]. details.
        split; [split; [done|intros (_ & _ & ?); done]|]. done.
    + eexists. split; [reflexivity|]. details.
      split; [split; [done|intros (_ & ? & _); done]|]. done.
  - eexists. split; [reflexivity|]. details.
    split; [split; [done|intros (? & _ & _); done]|]. done.
Qed.
End ClassifierClaims.

Section ClassifierWitnesses.
Import Classifier Scenarios.
Local Open Scope float_scope.

Lemma swap_candidate_is_swap_or_transfer_witness :
  exists d,
    classify noToken goodRug watched "sig" (Some buyTx) = Some d
    /\ type d = SWAP /\ isBuy d = true /\ tokenChange d = 1000000
    /\ solChange d = -0.5.
Proof.
  destruct (swap_candidate_is_swap_or_transfer noToken goodRug watched "sig"
              buyTx buyMeta 1 eq_refl eq_refl)
    as (d & Hd & Hswap & _).
  - intros b Hb. cbn in Hb. apply list_elem_of_singleton in Hb as ->. discriminate.
  - exists someToken. split; [discriminate | reflexivity].
  - exists d. split; [exact Hd|].
    vm_compute in Hd. injection Hd as <-. repeat split; reflexivity.
Defined.

Lemma no_candidate_is_wrap_or_transfer_witness :
  exists d,
    classify noToken goodRug watched "sig" (Some unwrapTx) = Some d
    /\ type d = WRAP /\ isBuy d = false.
Proof.
  destruct (no_candidate_is_wrap_or_transfer noToken goodRug watched "sig"
              unwrapTx unwrapMeta 0 eq_refl eq_refl)
    as (d & Hd & Hwrap & Hbuy & _).
  - intros tok Htok. apply tokenDiff_unlisted. rewrite allMints_elem. cbn.
    intros [H|H]; apply list_elem_of_singleton in H; congruence.
  - exists d. split; [exact Hd|].
    assert (Ht : type d = WRAP) by (apply Hwrap; repeat split; reflexivity).
    split; [exact Ht|]. rewrite (proj1 (Hbuy Ht)). reflexivity.
Defined.
End ClassifierWitnesses.

(** ** Comparisons of binary64 numbers *)

Section FloatOrderFacts.
Import FloatOrder.

Ltac decide_Z :=
  repeat match goal with
         | |- context [Z.ltb ?a ?b] => destruct (Z.ltb_spec a b)
         | |- context [Z.eqb ?a ?b] => destruct (Z.eqb_spec a b)
         end;
  cbn [orb andb negb]; try reflexivity; try lia.

Lemma SFcompare_rank (f1 f2 : spec_float) :
  SFcompare f1 f2
  = match rank f1, rank f2 with
    | Some r1, Some r2 =>
        Some (if lt3b r1 r2 then Lt else if lt3b r2 r1 then Gt else Eq)
    | _, _ => None
    end.
Proof.
  destruct f1 as [s1|s1| |s1 m1 e1], f2 as [s2|s2| |s2 m2 e2];
    try destruct s1; try destruct s2; try reflexivity.
  - cbn [SFcompare rank]. f_equal. unfold lt3b.
    destruct (Z.compare_spec e1 e2) as [->|H|H];
      [change (Pos.compare_cont Eq m1 m2) with (Pos.compare m1 m2);
       destruct (Pos.compare_spec m1 m2) as [->|H'|H']|..];
      cbn [CompOpp]; decide_Z.
  - cbn [SFcompare rank]. f_equal. unfold lt3b.
    destruct (Z.compare_spec e1 e2) as [->|H|H];
      [change (Pos.compare_cont Eq m1 m2) with (Pos.compare m1 m2);
       destruct (Pos.compare_spec m1 m2) as [->|H'|H']|..];
      decide_Z.
Qed.

Lemma ltb_rank (x y : float) :
  (x <? y)%float
  = match frank x, frank y with
    | Some r1, Some r2 => lt3b r1 r2
    | _, _ => false
    end.
Proof.
  rewrite ltb_spec. unfold SFltb, frank. rewrite SFcompare_rank.
  destruct (rank (Prim2SF x)) as [r1|], (rank (Prim2SF y)) as [r2|]; try reflexivity.
  destruct (lt3b r1 r2); [reflexivity|]. by destruct (lt3b r2 r1).
Qed.

Lemma lt3b_asym (a b : key) : lt3b a b = true -> lt3b b a = false.
Proof.
  destruct a as [[a1 a2] a3], b as [[b1 b2] b3]. unfold lt3b.
  intros H. revert H. decide_Z; discriminate.
Qed.

Lemma leb_rank (x y : float) :
  (x <=? y)%float
  = match frank x, frank y with
    | Some r1, Some r2 => negb (lt3b r2 r1)
    | _, _ => false
    end.
Proof.
  rewrite leb_spec. unfold SFleb, frank. rewrite SFcompare_rank.
  destruct (rank (Prim2SF x)) as [r1|], (rank (Prim2SF y)) as [r2|]; try reflexivity.
  destruct (lt3b r1 r2) eqn:E; [by rewrite (lt3b_asym _ _ E)|].
  by destruct (lt3b r2 r1).
Qed.

Lemma eqb_rank (x y : float) :
  (x =? y)%float
  = match frank x, frank y with
    | Some r1, Some r2 => negb (lt3b r1 r2) && negb (lt3b r2 r1)
    | _, _ => false
    end.
Proof.
  rewrite FloatAxioms.eqb_spec. unfold SFeqb, frank. rewrite SFcompare_rank.
  destruct (rank (Prim2SF x)) as [r1|], (rank (Prim2SF y)) as [r2|]; try reflexivity.
  destruct (lt3b r1 r2); [reflexivity|]. by destruct (lt3b r2 r1).
Qed.

Lemma frank_abs (x : float) :
  frank (abs x)
  = match frank x with
    | Some (a, b, c) => Some (Z.abs a, if a <? 0 then - b else b, Z.abs c)
    | None => None
    end.
Proof.
  unfold frank. rewrite abs_spec.
  destruct (Prim2SF x) as [s|s| |s m e]; try destruct s; cbn; try reflexivity.
  by rewrite Z.opp_involutive.
Qed.
End FloatOrderFacts.

(** ** Price formatting *)

Section DigitFacts.
Import Format.
Local Open Scope string_scope.

Lemma append_cons (c : ascii) (a b : string) :
  String c a ++ b = String c (a ++ b).
Proof. reflexivity. Qed.

Lemma allDigits_app (a b : string) :
  allDigits (a ++ b) = (allDigits a && allDigits b)%bool.
Proof.
  induction a as [|c a IH]; [reflexivity|].
  rewrite append_cons. cbn [allDigits]. rewrite IH. by rewrite andb_assoc.
Qed.

Lemma hasExponent_app (a b : string) :
  hasExponent (a ++ b) = (hasExponent a || hasExponent b)%bool.
Proof.
  induction a as [|c a IH]; [reflexivity|].
  rewrite append_cons. cbn [hasExponent]. rewrite IH. by rewrite !orb_assoc.
Qed.

Lemma allDigits_no_exponent (s : string) :
  allDigits s = true -> hasExponent s = false.
Proof.
  induction s as [|c s IH]; cbn [allDigits hasExponent]; [reflexivity|].
  intros [Hc Hs]%andb_true_iff. rewrite (IH Hs). unfold isDigit in Hc.
  apply andb_true_iff in Hc as [H1 H2].
  apply Nat.leb_le in H1, H2.
  destruct (Nat.eqb_spec (nat_of_ascii c) 101); [lia|].
  destruct (Nat.eqb_spec (nat_of_ascii c) 69); [lia|]. reflexivity.
Qed.

Lemma length_app (a b : string) :
  String.length (a ++ b) = (String.length a + String.length b)%nat.
Proof.
  induction a as [|c a IH]; [reflexivity|].
  rewrite append_cons. cbn [String.length]. by rewrite IH.
Qed.

Lemma zeros_digits (k : nat) : allDigits (zeros k) = true.
Proof. induction k as [|k IH]; cbn; [reflexivity | exact IH]. Qed.

Lemma zeros_length (k : nat) : String.length (zeros k) = k.
Proof. induction k as [|k IH]; cbn; [reflexivity | by rewrite IH]. Qed.

Lemma take_drop_chars (k : nat) (s : string) :
  takeChars k s ++ dropChars k s = s.
Proof.
  revert s. induction k as [|k IH]; intros [|c s]; try reflexivity.
  cbn [takeChars dropChars]. rewrite append_cons. by rewrite IH.
Qed.

Lemma dropChars_length (k : nat) (s : string) :
  String.length (dropChars k s) = (String.length s - k)%nat.
Proof.
  revert s. induction k as [|k IH]; intros [|c s]; cbn; try reflexivity.
  apply IH.
Qed.

Lemma takeChars_length (k : nat) (s : string) :
  String.length (takeChars k s) = (k `min` String.length s)%nat.
Proof.
  revert s. induction k as [|k IH]; intros [|c s]; cbn; try reflexivity.
  by rewrite IH.
Qed.

Lemma digitChar_digit (d : Z) : 0 <= d < 10 -> isDigit (digitChar d) = true.
Proof.
  intros H.
  assert (Hd : d = 0 \/ d = 1 \/ d = 2 \/ d = 3 \/ d = 4 \/ d = 5 \/ d = 6
               \/ d = 7 \/ d = 8 \/ d = 9) by lia.
  repeat (destruct Hd as [->|Hd]; [reflexivity|]). by subst.
Qed.

Lemma decimal_loop_digits (fuel : nat) :
  forall n acc,
    allDigits acc = true -> allDigits (decimal_loop fuel n acc) = true.
Proof.
  induction fuel as [|fuel IH]; intros n acc Hacc; cbn [decimal_loop]; [exact Hacc|].
  assert (Hacc' : allDigits (String (digitChar (n mod 10)) acc) = true).
  { cbn [allDigits]. rewrite Hacc, digitChar_digit; [reflexivity|].
    apply Z.mod_pos_bound. lia. }
  destruct (n / 10 =? 0)%Z; [exact Hacc' | by apply IH].
Qed.

Lemma decimal_loop_length (fuel : nat) :
  forall n acc,
    (String.length acc + (if fuel is O then 0 else 1)
     <= String.length (decimal_loop fuel n acc))%nat.
Proof.
  induction fuel as [|fuel IH]; intros n acc; cbn [decimal_loop]; [lia|].
  destruct (n / 10 =? 0)%Z; [cbn; lia|].
  specialize (IH (n / 10) (String (digitChar (n mod 10)) acc)).
  cbn [String.length] in IH. destruct fuel; lia.
Qed.

Lemma decimal_digits (n : Z) : allDigits (decimal n) = true.
Proof. by apply decimal_loop_digits. Qed.

Lemma decimal_length (n : Z) : (1 <= String.length (decimal n))%nat.
Proof.
  unfold decimal.
  pose proof (decimal_loop_length (S (Z.to_nat (Z.log2 n))) n "") as H.
  cbn [String.length] in H. lia.
Qed.

(** The fixed-point rendering has a non-empty run of digits, a point and
    exactly [f] digits after it. *)
Lemma pointed_shape (n : Z) (f : nat) :
  f ≠ O ->
  exists whole frac,
    pointed n f = whole ++ "." ++ frac
    /\ allDigits whole = true /\ whole ≠ ""
    /\ allDigits frac = true /\ String.length frac = f.
Proof.
  intros Hf. destruct f as [|f']; [done|]. unfold pointed.
  set (f := S f') in *.
  set (m := decimal n).
  set (m' := if (String.length m <=? f)%nat
             then zeros (S f - String.length m) ++ m else m).
  assert (Hdig : allDigits m' = true).
  { subst m'. destruct (_ <=? _)%nat; [|apply decimal_digits].
    rewrite allDigits_app, zeros_digits. apply decimal_digits. }
  assert (Hlen : (f < String.length m')%nat).
  { subst m'. destruct (Nat.leb_spec (String.length m) f) as [H|H]; [|exact H].
    rewrite length_app, zeros_length.
    pose proof (decimal_length n). fold m in H0. lia. }
  exists (takeChars (String.length m' - f) m'), (dropChars (String.length m' - f) m').
  split; [reflexivity|].
  rewrite <- (take_drop_chars (String.length m' - f) m'), allDigits_app in Hdig.
  apply andb_true_iff in Hdig as [Ha Hb].
  split; [exact Ha|]. split.
  - intros Hempty.
    pose proof (takeChars_length (String.length m' - f) m') as Hl.
    rewrite Hempty in Hl. cbn in Hl. lia.
  - split; [exact Hb|]. rewrite dropChars_length. lia.
Qed.
End DigitFacts.

Section FormatFacts.
Import Format FloatOrder.
Local Open Scope float_scope.

Ltac rank_of c :=
  let v := eval vm_compute in (frank c) in
  change (frank c) with v.

Ltac decide_key :=
  unfold lt3b;
  repeat match goal with
         | |- context [Z.ltb ?a ?b] => destruct (Z.ltb_spec a b)
         | |- context [Z.eqb ?a ?b] => destruct (Z.eqb_spec a b)
         | H : context [Z.ltb ?a ?b] |- _ => destruct (Z.ltb_spec a b)
         | H : context [Z.eqb ?a ?b] |- _ => destruct (Z.eqb_spec a b)
         end;
  cbn [orb andb negb] in *; try reflexivity; try discriminate; try lia.

Lemma lt3b_irrefl (r : key) : lt3b r r = false.
Proof. destruct r as [[a b] c]. decide_key. Qed.

Lemma formatPrice_chosen (priceStr : string) :
  noPrice (parseFloat priceStr) = false ->
  formatPrice priceStr
  = ("$" ++ toFixed (parseFloat priceStr) (chosenDecimals (parseFloat priceStr)))%string.
Proof.
  intros H. unfold formatPrice, chosenDecimals. rewrite H.
  destruct (_ <? 0.00000001); [reflexivity|].
  destruct (_ <? 0.00001); [reflexivity|].
  destruct (_ <? 0.01); [reflexivity|].
  destruct (_ <? 1); reflexivity.
Qed.

(** For a number (not NaN) the branch taken is the one of the bracket the
    specification names. *)
Lemma chosenDecimals_bracket (price : float) (r : key) :
  frank price = Some r -> chosenDecimals price = bracketDecimals price.
Proof.
  intros Hr. unfold chosenDecimals, bracketDecimals.
  rewrite !ltb_rank, !leb_rank, Hr.
  rank_of 0.00000001. rank_of 0.00001. rank_of 0.01. rank_of 1.
  destruct r as [[a b] c]. cbv beta iota. decide_key.
Qed.

Lemma chosenDecimals_positive (price : float) : chosenDecimals price ≠ O.
Proof.
  unfold chosenDecimals.
  destruct (_ <? 0.00000001); [done|].
  destruct (_ <? 0.00001); [done|].
  destruct (_ <? 0.01); [done|].
  destruct (_ <? 1); done.
Qed.

(** A non-zero number of magnitude below 1e21 is finite; [toFixed]
    renders it in fixed-point form. *)
Lemma toFixed_fixed (x : float) (f : nat) :
  (x =? 0) = false -> (abs x <? 1e21) = true ->
  exists s m e,
    Prim2SF x = S754_finite s m e
    /\ (x <? 0) = s
    /\ is_nan x = false
    /\ toFixed x f
       = ((if s then "-" else "") ++ pointed (scaledRound m e f) f)%string.
Proof.
  intros Hnz Hlt.
  assert (Hge : (1e21 <=? abs x) = false).
  { rewrite leb_rank. rewrite ltb_rank in Hlt.
    destruct (frank (abs x)) as [ra|]; [|discriminate].
    destruct (frank 1e21) as [rb|]; [|discriminate].
    by rewrite Hlt. }
  rewrite ltb_rank, frank_abs in Hlt. rewrite eqb_rank in Hnz.
  unfold is_nan. rewrite eqb_rank, (ltb_rank x 0).
  unfold toFixed. rewrite Hge. unfold frank in *.
  revert Hnz Hlt. rank_of 1e21. change (Prim2SF 0) with (S754_zero false).
  destruct (Prim2SF x) as [s|s| |s m e]; try destruct s; cbn [rank];
    intros Hnz Hlt; try discriminate.
  - exists true, m, e. repeat split; try reflexivity.
    by rewrite lt3b_irrefl.
  - exists false, m, e. repeat split; try reflexivity.
    by rewrite lt3b_irrefl.
Qed.

Lemma scaledRound_nonneg (m : positive) (e : Z) (f : nat) :
  (0 <= scaledRound m e f)%Z.
Proof.
  unfold scaledRound.
  assert (0 < 10 ^ Z.of_nat f)%Z by (apply Z.pow_pos_nonneg; lia).
  destruct (0 <=? e)%Z eqn:E.
  - apply Z.leb_le in E. assert (0 < 2 ^ e)%Z by (apply Z.pow_pos_nonneg; lia). nia.
  - apply Z.leb_gt in E.
    assert (0 < 2 ^ (- e))%Z by (apply Z.pow_pos_nonneg; lia).
    assert (0 < 2 ^ (- e + 1))%Z by (apply Z.pow_pos_nonneg; lia).
    apply Z.div_pos; nia.
Qed.
End FormatFacts.

Section FormatClaims.
Import Format FloatOrder.
Local Open Scope float_scope.

(** [parseFloat] skips leading white space, whatever its encoded
    length. *)
Lemma parseFloat_skips_white_space (a b c : ascii) (s : string) :
  (isWhite a = true -> parseFloat (String a s) = parseFloat s)
  /\ (isWhite2 a b = true -> parseFloat (String a (String b s)) = parseFloat s)
  /\ (isWhite3 a b c = true ->
      parseFloat (String a (String b (String c s))) = parseFloat s).
Proof.
  assert (Hbyte : forall (x : ascii) (n : nat),
             (nat_of_ascii x =? n)%nat = true -> x = ascii_of_nat n).
  { intros x n H. apply Nat.eqb_eq in H. by rewrite <- H, ascii_nat_embedding. }
  split; [|split].
  - intros H. unfold parseFloat. cbn [trimStart]. by rewrite H.
  - intros H. unfold isWhite2 in H. apply andb_true_iff in H as [Ha Hb].
    apply Hbyte in Ha, Hb. by subst a b.
  - intros H. unfold parseFloat.
    assert (Ht : trimStart (String a (String b (String c s))) = trimStart s);
      [|by rewrite Ht].
    assert (H1 : isWhite a = false /\ isWhite2 a b = false).
    { unfold isWhite3 in H. cbv zeta beta iota in H.
      repeat (apply orb_true_iff in H as [H|H]);
        repeat (apply andb_true_iff in H as [H ?]);
        apply Hbyte in H; by subst a. }
    destruct H1 as [H1 H2]. cbn [trimStart]. by rewrite H1, H2, H.
Qed.

(** A price string written after a no-break space, a byte-order mark or
    an ideographic space is read like the bare number. *)
Lemma white_space_before_a_price :
  formatPrice (String "194" (String "160" "5")) = "$5.00"%string
  /\ formatPrice (String "160" "5") = "$5.00"%string
  /\ formatPrice (String "239" (String "187" (String "191" " 0.5"))) = "$0.5000"%string
  /\ formatPrice (String "227" (String "128" (String "128" "1234.5"))) = "$1234.50"%string
  /\ formatPrice (String "226" (String "128" (String "168" "0.0005"))) = "$0.000500"%string.
Proof. repeat split; vm_compute; reflexivity. Qed.

(** C6 as stated fails: a price input that parses to 0 (or to no number)
    is below every bracket, for which the rule promises 10 decimals, but
    is rendered as "$0" with no decimals at all; and an input of
    magnitude 1e21 is rendered with an exponent. *)
Lemma zero_price_has_no_decimals :
  formatPrice "0" = "$0"%string
  /\ bracketDecimals (parseFloat "0") = 10%nat
  /\ formatPrice "not a price" = "$0"%string
  /\ formatPrice "1e21" = "$1e+21"%string
  /\ hasExponent (formatPrice "1e21") = true.
Proof. repeat split; vm_compute; reflexivity. Qed.

(** C6, amended.  An input that parses to 0 or to NaN is rendered as
    "$0".  Every input that parses to a non-zero number of magnitude
    below 1e21 is rendered as "$", a minus sign if it is negative, a
    non-empty run of digits, a point and a run of digits whose length is
    fixed by the bracket of the price alone (2 for values >= 1, 4 for
    [0.01, 1), 6 for [0.00001, 0.01), 8 for [0.00000001, 0.00001), 10
    below that), with no exponent marker.  In particular "0.0000000031"
    gives "$0.0000000031", "1234.5" gives "$1234.50" and "0.0005" gives
    "$0.000500". *)
Theorem formatPrice_fixed_point (priceStr : string) :
  let price := parseFloat priceStr in
  (noPrice price = true -> formatPrice priceStr = "$0"%string)
  /\ ((price =? 0) = false -> (abs price <? 1e21) = true ->
      exists whole frac,
        formatPrice priceStr
        = ("$" ++ (if (price <? 0)%float then "-" else "") ++ whole ++ "." ++ frac)%string
        /\ allDigits whole = true /\ whole ≠ ""%string
        /\ allDigits frac = true
        /\ String.length frac = bracketDecimals price
        /\ hasExponent (formatPrice priceStr) = false)
  /\ formatPrice "0.0000000031" = "$0.0000000031"%string
  /\ formatPrice "1234.5" = "$1234.50"%string
  /\ formatPrice "0.0005" = "$0.000500"%string.
Proof.
  intros price. split; [|split; [|repeat split; vm_compute; reflexivity]].
  - intros H. unfold formatPrice. fold price. by rewrite H.
  - intros Hnz Hlt.
    destruct (toFixed_fixed price (chosenDecimals price) Hnz Hlt)
      as (s & m & e & HP & Hsign & Hnan & Hfixed).
    assert (Hno : noPrice price = false).
    { unfold noPrice, falsy. by rewrite Hnz, Hnan. }
    assert (Hr : exists r, frank price = Some r).
    { unfold frank. rewrite HP. destruct s; eexists; reflexivity. }
    destruct Hr as [r Hr].
    destruct (pointed_shape (scaledRound m e (chosenDecimals price))
                (chosenDecimals price) (chosenDecimals_positive price))
      as (whole & frac & Hshape & Hw & Hwne & Hf & Hlen).
    assert (Heq : formatPrice priceStr
                  = ("$" ++ (if (price <? 0)%float then "-" else "")
                         ++ whole ++ "." ++ frac)%string).
    { rewrite (formatPrice_chosen priceStr Hno). fold price.
      by rewrite Hfixed, Hshape, Hsign. }
    exists whole, frac. split; [exact Heq|].
    split; [exact Hw|]. split; [exact Hwne|]. split; [exact Hf|].
    split; [by rewrite Hlen, (chosenDecimals_bracket price r Hr)|].
    rewrite Heq, !hasExponent_app.
    rewrite (allDigits_no_exponent whole Hw), (allDigits_no_exponent frac Hf).
    by destruct (price <? 0).
Qed.

Lemma formatPrice_fixed_point_witness :
  exists whole frac,
    formatPrice "0.99995" = ("$" ++ whole ++ "." ++ frac)%string
    /\ String.length frac = 4%nat
    /\ hasExponent (formatPrice "0.99995") = false.
Proof.
  destruct (formatPrice_fixed_point "0.99995") as (_ & H & _).
  destruct (H eq_refl eq_refl) as (whole & frac & Heq & _ & _ & _ & Hlen & Hexp).
  exists whole, frac. split; [exact Heq|]. split; [exact Hlen | exact Hexp].
Defined.
End FormatClaims.

(** ** Token metadata and risk resolvers *)

Section ResolverFacts.
Import Resolver.

Lemma insertPair_perm (x : DexPair) (sorted : list DexPair) :
  pairLiquidity x ≠ None ->
  (forall p, p ∈ sorted -> pairLiquidity p ≠ None) ->
  exists l, insertPair x sorted = Some l /\ Permutation (x :: sorted) l.
Proof.
  intros Hx. induction sorted as [|y rest IH]; intros Hs.
  - by exists [x].
  - cbn [insertPair]. unfold compareLiquidity.
    assert (Hy : pairLiquidity y ≠ None) by (apply Hs, elem_of_cons; by left).
    destruct (pairLiquidity y) as [ly|]; [|done].
    destruct (pairLiquidity x) as [lx|]; [|done].
    destruct (0 <? _)%float.
    + by eexists.
    + destruct IH as (l & -> & Hperm).
      { intros p Hp. apply Hs, elem_of_cons. by right. }
      exists (y :: l). split; [reflexivity|].
      rewrite <- Hperm. apply perm_swap.
Qed.

Lemma sortPairs_perm (ps : list DexPair) :
  forall sorted,
    (forall p, p ∈ ps ++ sorted -> pairLiquidity p ≠ None) ->
    exists l, sortPairs ps sorted = Some l /\ Permutation (ps ++ sorted) l.
Proof.
  induction ps as [|p ps IH]; intros sorted Hall.
  - by exists sorted.
  - cbn [sortPairs].
    destruct (insertPair_perm p sorted) as (l1 & -> & Hperm1).
    + apply Hall. apply elem_of_cons. by left.
    + intros q Hq. apply Hall. apply elem_of_cons. right. apply elem_of_app. by right.
    + destruct (IH l1) as (l & -> & Hperm).
      { intros q Hq. apply elem_of_app in Hq as [Hq|Hq].
        - apply Hall. apply elem_of_cons. right. apply elem_of_app. by left.
        - rewrite <- Hperm1 in Hq. apply Hall.
          apply elem_of_cons in Hq as [->|Hq]; [apply elem_of_cons; by left|].
          apply elem_of_cons. right. apply elem_of_app. by right. }
      exists l. split; [reflexivity|].
      rewrite <- Hperm, <- Hperm1. cbn. apply Permutation_middle.
Qed.

(** The secondary source yields a best pair whenever it lists one pair, or
    several pairs that all carry a [liquidity] object. *)
Lemma bestPair_exists (dexRes : settled (Response DexBody)) (ps : list DexPair) :
  dexPairs dexRes = Some ps ->
  length ps = 1%nat \/ (forall p, p ∈ ps -> pairLiquidity p ≠ None) ->
  exists best, bestPair dexRes = Some best /\ best ∈ ps.
Proof.
  intros Hps Hcond. unfold bestPair. rewrite Hps.
  destruct Hcond as [Hone|Hall].
  - destruct ps as [|p [|q ps]]; try discriminate.
    exists p. split; [reflexivity | apply elem_of_cons; by left].
  - destruct (sortPairs_perm ps []) as (l & -> & Hperm).
    { intros p Hp. rewrite app_nil_r in Hp. by apply Hall. }
    rewrite app_nil_r in Hperm.
    destruct l as [|best l].
    + apply Permutation_nil_r in Hperm. subst ps.
      unfold dexPairs in Hps.
      destruct dexRes as [r|]; [|done]. destruct (ok r); [|done].
      destruct (body r) as [b|]; [|done]. by destruct (pairs b) as [[|]|].
    + exists best. split; [reflexivity|].
      rewrite Hperm. apply elem_of_cons. by left.
Qed.

Lemma parseJupiter_found (jupRes : settled (Response JupBody)) (mint : string) :
  v_found (parseJupiter jupRes mint initialVars) = true
  <-> exists info extra,
        jupiterInfo jupRes mint = Some info /\ extraInfo info = Some extra.
Proof.
  unfold parseJupiter.
  destruct (jupiterInfo jupRes mint) as [info|].
  - destruct (extraInfo info) as [extra|] eqn:He; cbn.
    + split; [intros _; by exists info, extra | done].
    + split; [done|]. intros (i & e & [= <-] & He'). congruence.
  - cbn. split; [done|]. intros (i & e & H & _). done.
Qed.

Lemma parseDex_found (dexRes : settled (Response DexBody)) (v : market_vars) :
  v_found (parseDex dexRes v) = true
  <-> v_found v = true \/ exists best, bestPair dexRes = Some best.
Proof.
  unfold parseDex. destruct (bestPair dexRes) as [best|]; cbn.
  - split; [intros _; right; by exists best | done].
  - split; [by left|]. intros [H|(b & H)]; done.
Qed.

Lemma fetchToken_found (mint : string) (now later : Z)
    (jupRes : settled (Response JupBody)) (dexRes : settled (Response DexBody))
    (tokenCache : gmap string (cached TokenMarketData)) :
  fresh (tokenCache !! mint) now = None ->
  let out := fetchTokenMarketData mint now jupRes dexRes later tokenCache in
  let v := parseDex dexRes (parseJupiter jupRes mint initialVars) in
  (v_found v = false
   /\ tokenResult out = None /\ tokenCacheAfter out = tokenCache)
  \/ (v_found v = true
      /\ exists d, tokenResult out = Some d
                   /\ tokenCacheAfter out
                      = <[mint := {| cachedData := d; timestamp := later |}]> tokenCache).
Proof.
  intros Hmiss out v. subst out. unfold fetchTokenMarketData. rewrite Hmiss.
  fold v. destruct (v_found v); cbn [negb].
  - right. split; [done|]. eexists. split; reflexivity.
  - left. done.
Qed.
End ResolverFacts.

Section ResolverClaims.
Import Resolver Upstream.

(** C5 as stated fails in both directions: a primary response that
    supplies a price alone, with no pair from the secondary source, gives
    not-found; and a primary response with an [extraInfo] object but
    neither symbol nor price gives found. *)
Lemma price_alone_is_not_found :
  tokenResult (fetchTokenMarketData aMint 0 priceOnly noPairs 10 ∅) = None
  /\ tokenResult (fetchTokenMarketData aMint 0 extraOnly noPairs 10 ∅)
     = Some {| symbol := "UNKNOWN"; name := "UNKNOWN"; priceUsd := "0";
               fdv := 0%float; liquidity := 0%float |}.
Proof. split; reflexivity. Qed.

(** C5, amended.  On a lookup that is not served from the cache, the
    resolver returns found exactly when the primary response carries an
    [extraInfo] object for the token or the secondary response yields a
    best pair, which it does whenever it lists one pair, or several pairs
    that all have a liquidity object.  A primary response that supplies a
    price alone is not sufficient: without a best pair from the secondary
    source the caller receives not-found. *)
Theorem found_iff_extra_info_or_pair
    (mint : string) (now later : Z)
    (jupRes : settled (Response JupBody)) (dexRes : settled (Response DexBody))
    (tokenCache : gmap string (cached TokenMarketData)) :
  fresh (tokenCache !! mint) now = None ->
  let out := fetchTokenMarketData mint now jupRes dexRes later tokenCache in
  (tokenResult out ≠ None
   <-> (exists info extra,
          jupiterInfo jupRes mint = Some info /\ extraInfo info = Some extra)
       \/ (exists best, bestPair dexRes = Some best))
  /\ (forall ps,
        dexPairs dexRes = Some ps ->
        length ps = 1%nat \/ (forall p, p ∈ ps -> pairLiquidity p ≠ None) ->
        tokenResult out ≠ None)
  /\ (forall info,
        jupiterInfo jupRes mint = Some info ->
        extraInfo info = None ->
        bestPair dexRes = None ->
        tokenResult out = None).
Proof.
  intros Hmiss out.
  pose proof (fetchToken_found mint now later jupRes dexRes tokenCache Hmiss) as Hout.
  cbv zeta in Hout. fold out in Hout.
  pose proof (parseDex_found dexRes (parseJupiter jupRes mint initialVars)) as Hdex.
  rewrite parseJupiter_found in Hdex.
  assert (Hiff : tokenResult out ≠ None
          <-> (exists info extra,
                 jupiterInfo jupRes mint = Some info /\ extraInfo info = Some extra)
              \/ (exists best, bestPair dexRes = Some best)).
  { rewrite <- Hdex.
    destruct Hout as [(Hf & Hr & _)|(Hf & d & Hr & _)]; rewrite Hf, Hr; split; done. }
  split; [exact Hiff|]. split.
  - intros ps Hps Hcond. apply Hiff. right.
    destruct (bestPair_exists dexRes ps Hps Hcond) as (best & Hb & _). by exists best.
  - intros info Hinfo Hextra Hbest.
    destruct (tokenResult out) as [d|] eqn:Hres; [|reflexivity].
    exfalso. assert (Hne : Some d ≠ None) by done.
    apply Hiff in Hne as [(i & e & Hi & He)|(b & Hb)]; congruence.
Qed.

Lemma found_iff_extra_info_or_pair_witness :
  tokenResult (fetchTokenMarketData aMint 0 priceOnly onePair 10 ∅) ≠ None
  /\ tokenResult (fetchTokenMarketData aMint 0 priceOnly noPairs 10 ∅) = None.
Proof.
  assert (Hmiss : fresh ((∅ : gmap string (cached TokenMarketData)) !! aMint) 0 = None)
    by reflexivity.
  split.
  - destruct (found_iff_extra_info_or_pair aMint 0 10 priceOnly onePair ∅ Hmiss)
      as (_ & Hpairs & _).
    eapply Hpairs; [reflexivity | left; reflexivity].
  - destruct (found_iff_extra_info_or_pair aMint 0 10 priceOnly noPairs ∅ Hmiss)
      as (_ & _ & Hnone).
    eapply Hnone; reflexivity.
Defined.

(** C7.  A resolution that obtains token market data stores it in the
    cache with the time of storing; a lookup made less than 60 seconds
    (CACHE_TTL) after that time returns the stored data, issues no
    network call and leaves the cache as it is; an entry that is 60
    seconds old or older is never returned: the lookup issues the network
    calls and answers as if the entry were absent.  The risk-score cache
    follows the same discipline, a resolution being successful when the
    service answers with an ok status and a parseable report. *)
Theorem ttl_cache_discipline (mint : string) :
  (* token market data *)
  (forall now later jupRes dexRes tokenCache d,
     let out := fetchTokenMarketData mint now jupRes dexRes later tokenCache in
     fresh (tokenCache !! mint) now = None ->
     tokenResult out = Some d ->
     tokenCacheAfter out !! mint = Some {| cachedData := d; timestamp := later |}
     /\ forall now' later' jupRes' dexRes',
          now' - later < CACHE_TTL ->
          fetchTokenMarketData mint now' jupRes' dexRes' later' (tokenCacheAfter out)
          = {| tokenResult := Some d; tokenCacheAfter := tokenCacheAfter out;
               tokenRequests := [] |})
  /\ (forall now later jupRes dexRes tokenCache entry,
        tokenCache !! mint = Some entry ->
        CACHE_TTL <= now - timestamp entry ->
        let out := fetchTokenMarketData mint now jupRes dexRes later tokenCache in
        tokenRequests out = [JupiterPrice mint; DexTokens mint]
        /\ tokenResult out
           = tokenResult (fetchTokenMarketData mint now jupRes dexRes later
                            (delete mint tokenCache)))
  (* risk score *)
  /\ (forall now later r b rugCache,
        let out := fetchRugCheckData mint now (Fulfilled r) later rugCache in
        fresh (rugCache !! mint) now = None ->
        status r ≠ 404 -> ok r = true -> body r = Some b ->
        rugResult out = rugReport b
        /\ rugCacheAfter out !! mint
           = Some {| cachedData := rugReport b; timestamp := later |}
        /\ forall now' later' res',
             now' - later < CACHE_TTL ->
             fetchRugCheckData mint now' res' later' (rugCacheAfter out)
             = {| rugResult := rugReport b; rugCacheAfter := rugCacheAfter out;
                  rugRequests := [] |})
  /\ (forall now later res rugCache entry,
        rugCache !! mint = Some entry ->
        CACHE_TTL <= now - timestamp entry ->
        let out := fetchRugCheckData mint now res later rugCache in
        rugRequests out = [RugSummary mint]
        /\ rugResult out
           = rugResult (fetchRugCheckData mint now res later (delete mint rugCache)))
  (* a lookup that resolves nothing stores nothing *)
  /\ (forall now later jupRes dexRes tokenCache,
        tokenResult (fetchTokenMarketData mint now jupRes dexRes later tokenCache) = None ->
        tokenCacheAfter (fetchTokenMarketData mint now jupRes dexRes later tokenCache)
        = tokenCache)
  /\ (forall now later res rugCache,
        fresh (rugCache !! mint) now = None ->
        res = Rejected
        \/ (exists r, res = Fulfilled r
                      /\ (status r = 404 \/ ok r = false \/ body r = None)) ->
        rugCacheAfter (fetchRugCheckData mint now res later rugCache) = rugCache).
Proof.
  split; [|split; [|split; [|split; [|split]]]].
  - intros now later jupRes dexRes tokenCache d out Hmiss Hres.
    pose proof (fetchToken_found mint now later jupRes dexRes tokenCache Hmiss) as Hout.
    cbv zeta in Hout. fold out in Hout.
    destruct Hout as [(_ & Hnone & _)|(_ & d' & Hd & Hcache)]; [congruence|].
    assert (d' = d) as -> by congruence.
    rewrite Hcache. split; [apply lookup_insert_eq|].
    intros now' later' jupRes' dexRes' Hsoon.
    unfold fetchTokenMarketData. rewrite lookup_insert_eq. unfold fresh.
    cbn [timestamp cachedData].
    destruct (Z.ltb_spec (now' - later) CACHE_TTL) as [_|Hge]; [reflexivity | lia].
  - intros now later jupRes dexRes tokenCache entry Hentry Hold out.
    subst out. unfold fetchTokenMarketData.
    rewrite Hentry, lookup_delete_eq. unfold fresh.
    destruct (Z.ltb_spec (now - timestamp entry) CACHE_TTL) as [Hlt|_]; [lia|].
    destruct (negb _); done.
  - intros now later r b rugCache out Hmiss Hstatus Hok Hbody.
    subst out. unfold fetchRugCheckData. rewrite Hmiss, Hok, Hbody.
    destruct (Z.eqb_spec (status r) 404) as [?|_]; [done|].
    cbn [negb rugResult rugCacheAfter].
    split; [reflexivity|]. split; [apply lookup_insert_eq|].
    intros now' later' res' Hsoon.
    rewrite lookup_insert_eq. unfold fresh. cbn [timestamp cachedData].
    destruct (Z.ltb_spec (now' - later) CACHE_TTL) as [_|Hge]; [reflexivity | lia].
  - intros now later res rugCache entry Hentry Hold out.
    subst out. unfold fetchRugCheckData.
    rewrite Hentry, lookup_delete_eq. unfold fresh.
    destruct (Z.ltb_spec (now - timestamp entry) CACHE_TTL) as [Hlt|_]; [lia|].
    destruct res as [r|]; [|done].
    destruct (status r =? 404); [done|].
    destruct (negb (ok r)); [done|]. destruct (body r); done.
  - intros now later jupRes dexRes tokenCache. unfold fetchTokenMarketData.
    destruct (fresh (tokenCache !! mint) now); [done|].
    destruct (negb _); done.
  - intros now later res rugCache Hmiss Hfail.
    unfold fetchRugCheckData. rewrite Hmiss.
    destruct Hfail as [->|(r & -> & Hr)]; [done|].
    destruct (Z.eqb_spec (status r) 404) as [_|Hs]; [done|].
    destruct (ok r) eqn:Hok; cbn [negb]; [|done].
    destruct (body r) eqn:Hb; [|done].
    destruct Hr as [?|[?|?]]; done.
Qed.

Lemma ttl_cache_discipline_witness :
  let first := fetchTokenMarketData aMint 1000 priceOnly onePair 1400 ∅ in
  let again := fetchTokenMarketData aMint 61399 Rejected Rejected 61399
                 (tokenCacheAfter first) in
  let stale := fetchTokenMarketData aMint 61400 Rejected Rejected 61400
                 (tokenCacheAfter first) in
  tokenResult again = tokenResult first
  /\ tokenRequests again = []
  /\ tokenRequests stale = [JupiterPrice aMint; DexTokens aMint]
  /\ rugRequests
       (fetchRugCheckData aMint 30000 Rejected 30000
          (rugCacheAfter (fetchRugCheckData aMint 0 rugOk 5 ∅))) = [].
Proof.
  intros first again stale.
  destruct (ttl_cache_discipline aMint) as (Htok & Hstale & Hrug & _).
  pose proof (Htok 1000 1400 priceOnly onePair ∅) as Hfirst.
  cbv zeta in Hfirst. fold first in Hfirst.
  edestruct Hfirst as [Hstored Hhit]; [reflexivity | reflexivity |].
  assert (Hagain : again = {| tokenResult := tokenResult first;
                              tokenCacheAfter := tokenCacheAfter first;
                              tokenRequests := [] |}).
  { apply Hhit. reflexivity. }
  pose proof (Hstale 61400 61400 Rejected Rejected (tokenCacheAfter first) _ Hstored)
    as Hold.
  cbv zeta in Hold. fold stale in Hold.
  split; [by rewrite Hagain|]. split; [by rewrite Hagain|].
  split; [apply Hold; discriminate|].
  pose proof (Hrug 0 5 {| status := 200; ok := true;
                          body := Some {| rugScore := Some 700%float |} |}
                {| rugScore := Some 700%float |} ∅) as Hr.
  cbv zeta in Hr.
  destruct Hr as (_ & _ & Hrhit); [reflexivity | discriminate | reflexivity | reflexivity |].
  unfold rugOk, okResponse. rewrite (Hrhit 30000 30000 Rejected); reflexivity.
Defined.
End ResolverClaims.

(* ===================================================================== *)
(** * Further properties of the code *)
(* ===================================================================== *)

(** ** [chunkArray] as slices *)

Section ChunkSlices.
Context {T : Type}.

Lemma chunk_loop_lookup (size fuel : nat) :
  (0 < size)%nat ->
  forall (l : list T) (i : nat),
    (length l <= fuel)%nat ->
    chunk_loop size fuel l !! i
    = if (i * size <? length l)%nat
      then Some (take size (drop (i * size) l)) else None.
Proof.
  intros Hsize. induction fuel as [|fuel IH]; intros l i Hlen.
  - destruct l; [|simpl in Hlen; lia]. cbn.
    destruct (Nat.ltb_spec (i * size) 0); [lia | reflexivity].
  - destruct l as [|x l'].
    + cbn. destruct (Nat.ltb_spec (i * size) 0); [lia | reflexivity].
    + cbn [chunk_loop]. destruct i as [|j].
      * cbn [lookup list_lookup Nat.mul]. rewrite drop_0.
        destruct (Nat.ltb_spec 0 (length (x :: l'))); [reflexivity|simpl in *; lia].
      * cbn [lookup list_lookup]. change (chunk_loop size fuel (drop size (x :: l')) !! j
          = if (S j * size <? length (x :: l'))%nat
            then Some (take size (drop (S j * size) (x :: l'))) else None).
        rewrite IH by (rewrite length_drop; simpl in *; lia).
        rewrite length_drop, drop_drop.
        replace (size + j * size)%nat with (S j * size)%nat by lia.
        destruct (Nat.ltb_spec (j * size) (length (x :: l') - size)),
                 (Nat.ltb_spec (S j * size) (length (x :: l'))); try reflexivity; lia.
Qed.

(** X1.  With a positive size, [chunkArray] cuts the array into its
    consecutive slices of [size] elements: chunk [i] is
    [array.slice(i * size, i * size + size)] as long as [i * size] is
    inside the array, there is no further chunk, and the chunks put
    together give the array back. *)
Theorem chunkArray_slices (array : list T) (size : nat) :
  (0 < size)%nat ->
  concat (chunkArray array size) = array
  /\ forall i,
       chunkArray array size !! i
       = if (i * size <? length array)%nat
         then Some (take size (drop (i * size) array)) else None.
Proof.
  intros Hsize. split; [by apply chunkArray_concat|].
  intros i. unfold chunkArray. by apply chunk_loop_lookup.
Qed.
End ChunkSlices.

Lemma chunkArray_slices_witness :
  concat (chunkArray [1; 2; 3; 4; 5; 6; 7] 3) = [1; 2; 3; 4; 5; 6; 7]
  /\ chunkArray [1; 2; 3; 4; 5; 6; 7] 3 !! 2%nat = Some [7]
  /\ chunkArray [1; 2; 3; 4; 5; 6; 7] 3 !! 3%nat = None.
Proof.
  destruct (chunkArray_slices [1; 2; 3; 4; 5; 6; 7] 3 ltac:(lia)) as [Hc Hl].
  split; [exact Hc|]. split; [exact (Hl 2%nat) | exact (Hl 3%nat)].
Defined.

(** ** More on the balance change detector *)

Section DetectorExtras.
Import Detector.

Lemma pollChunk_interval (resp : rpc_result) (chunk : list WalletConfig)
    (st : poll_state) :
  1000 <= dynamicInterval st <= 10000 /\ dynamicInterval st mod 100 = 0 ->
  1000 <= dynamicInterval (fst (pollChunk resp chunk st)) <= 10000
  /\ dynamicInterval (fst (pollChunk resp chunk st)) mod 100 = 0.
Proof.
  intros [Hr Hm]. destruct resp as [infos|message]; unfold pollChunk.
  - destruct (scanBatch infos chunk (balanceCache st) []) as [[c u] t].
    cbn [fst dynamicInterval].
    destruct (Z.ltb_spec 1000 (dynamicInterval st)) as [Hgt|Hle]; [|done].
    assert (Hdiv : dynamicInterval st = 100 * (dynamicInterval st / 100))
      by (apply Z_div_exact_full_2; [lia | exact Hm]).
    split; [lia|].
    rewrite Hdiv.
    replace (100 * (dynamicInterval st / 100) - 100)
      with ((dynamicInterval st / 100 - 1) * 100) by lia.
    apply Z_mod_mult.
  - cbn [fst dynamicInterval].
    destruct (includes message "429"); [|done].
    destruct (Z.ltb_spec 10000 (dynamicInterval st + 1000)) as [Hgt|Hle]; [done|].
    split; [lia|].
    assert (Hdiv : dynamicInterval st = 100 * (dynamicInterval st / 100))
      by (apply Z_div_exact_full_2; [lia | exact Hm]).
    rewrite Hdiv.
    replace (100 * (dynamicInterval st / 100) + 1000)
      with ((dynamicInterval st / 100 + 10) * 100) by lia.
    apply Z_mod_mult.
Qed.

(** X2.  The pause between polling rounds, once between 1000 ms and
    10000 ms and a multiple of 100 ms (it starts at 1000), stays so
    through every round, whatever the balance queries answer: neither the
    decrease by 100 ms on an answered query nor the increase by 1000 ms on
    a 429 error takes it out of that range. *)
Theorem polling_interval_stays_in_range
    (batches : list (list WalletConfig * rpc_result)) (st : poll_state) :
  1000 <= dynamicInterval st <= 10000 /\ dynamicInterval st mod 100 = 0 ->
  1000 <= dynamicInterval (fst (pollChunks batches st)) <= 10000
  /\ dynamicInterval (fst (pollChunks batches st)) mod 100 = 0.
Proof.
  revert st. induction batches as [|[chunk resp] batches IH]; intros st Hst; [done|].
  cbn [pollChunks].
  pose proof (pollChunk_interval resp chunk st Hst) as H1.
  destruct (pollChunk resp chunk st) as [st1 d1]. cbn [fst] in H1.
  specialize (IH st1 H1).
  destruct (pollChunks batches st1) as [st2 d2]. exact IH.
Qed.

Lemma polling_interval_stays_in_range_witness :
  let w := {| address := "A"; name := "a"; emoji := "" |} in
  let batches := replicate 12 ([w], RpcErr "429 Too Many Requests")
                 ++ [([w], RpcOk [None])] in
  let st := {| balanceCache := ∅; dynamicInterval := 1000 |} in
  dynamicInterval (fst (pollChunks batches st)) = 9900
  /\ 1000 <= dynamicInterval (fst (pollChunks batches st)) <= 10000.
Proof.
  intros w batches st. split; [reflexivity|].
  apply (polling_interval_stays_in_range batches st). cbn. split; [lia | reflexivity].
Defined.

(** A pass over a chunk whose cached balances already are the queried
    ones changes nothing and records nothing. *)
Lemma scanBatch_settled (q : string -> option AccountInfo) (chunk : list WalletConfig) :
  forall (cache : gmap string Z) (ups : list update),
    (forall a, a ∈ address <$> chunk -> cached cache a = balanceOfInfo (q a)) ->
    scanBatch ((fun w => q (address w)) <$> chunk) chunk cache ups
    = (cache, ups, false).
Proof.
  induction chunk as [|w chunk IH]; intros cache ups Hsame; [reflexivity|].
  cbn [fmap list_fmap scanBatch].
  rewrite (Hsame (address w)) by (apply elem_of_cons; by left).
  rewrite Z.eqb_refl. cbn [negb].
  apply IH. intros a Ha. apply Hsame. apply elem_of_cons. by right.
Qed.

(** X3.  Polling a batch a second time with the same ledger answers
    produces no change record and leaves the cache as the first poll left
    it. *)
Theorem unchanged_balances_give_no_record
    (q : string -> option AccountInfo) (chunk : list WalletConfig)
    (st : poll_state) :
  let answers := RpcOk ((fun w => q (address w)) <$> chunk) in
  let st1 := fst (pollChunk answers chunk st) in
  snd (pollChunk answers chunk st1) = []
  /\ balanceCache (fst (pollChunk answers chunk st1)) = balanceCache st1.
Proof.
  intros answers st1.
  destruct (pollChunk_answers q chunk st) as (cache' & recs & Hcache & _ & Hin & _).
  fold answers in Hcache. fold st1 in Hcache.
  subst answers. unfold pollChunk.
  rewrite (scanBatch_settled q chunk (balanceCache st1) []).
  - done.
  - intros a Ha. rewrite Hcache. by apply Hin.
Qed.

(** X4.  The initial pass over a chunk whose query answers sets the entry
    of every account of the chunk to its queried balance (0 for a missing
    account) and touches no other entry; a failed query leaves the cache
    untouched; and the first polling round after an initial pass with the
    same answers records no change. *)
Theorem initial_snapshot_is_baseline
    (q : string -> option AccountInfo) (chunk : list WalletConfig)
    (balanceCache0 : gmap string Z) (interval : Z) (message : string) :
  let answers := RpcOk ((fun w => q (address w)) <$> chunk) in
  let snapshot := initChunk answers chunk balanceCache0 in
  (forall a, a ∈ address <$> chunk ->
             snapshot !! a = Some (balanceOfInfo (q a)))
  /\ (forall a, a ∉ address <$> chunk -> snapshot !! a = balanceCache0 !! a)
  /\ initChunk (RpcErr message) chunk balanceCache0 = balanceCache0
  /\ snd (pollChunk answers chunk
            {| balanceCache := snapshot; dynamicInterval := interval |}) = [].
Proof.
  intros answers snapshot.
  destruct (initBatch_answers q chunk balanceCache0) as (_ & Hin & Hout).
  split; [exact Hin|]. split; [exact Hout|]. split; [reflexivity|].
  subst answers. unfold pollChunk. cbn [balanceCache].
  rewrite (scanBatch_settled q chunk snapshot []); [done|].
  intros a Ha. unfold cached. subst snapshot. unfold initChunk.
  by rewrite (Hin a Ha).
Qed.
End DetectorExtras.

(** ** More on the signature resolution retrier *)

Section RetrierExtras.
Import Retrier RetrierViews.

Variable rpc : nat -> sig_response.

Lemma attempt_unusable (r : sig_response) (st : retry_state) :
  usableResponse r = false ->
  snd (attempt r st) = false
  /\ attempts (fst (attempt r st)) = S (attempts st)
  /\ queries (log (fst (attempt r st))) = S (queries (log st))
  /\ (forall sigs, r = SigOk sigs -> signatures (fst (attempt r st)) = sigs)
  /\ (signatures st = [] -> noSignature r = true ->
      signatures (fst (attempt r st)) = []).
Proof.
  intros Hr. destruct r as [sigs|message]; cbn in Hr |- *.
  - rewrite Hr. cbn. rewrite queries_app. cbn.
    repeat split; try lia.
    + intros s [= <-]. reflexivity.
    + intros _ Hn. by destruct sigs.
  - rewrite !queries_app. cbn.
    repeat split; try done.
    destruct (rateLimited message); cbn; lia.
Qed.

(** [n] rounds on outcomes that are not usable. *)
Lemma retryLoop_unusable_rounds (n : nat) :
  forall fuel st,
    (n <= fuel)%nat ->
    (attempts st + n <= MAX_ATTEMPTS)%nat ->
    (forall j, (attempts st <= j < attempts st + n)%nat ->
               usableResponse (rpc j) = false) ->
    exists st',
      retryLoop fuel rpc st = retryLoop (fuel - n) rpc st'
      /\ attempts st' = (attempts st + n)%nat
      /\ queries (log st') = (queries (log st) + n)%nat
      /\ (n = O -> st' = st)
      /\ (forall sigs, (0 < n)%nat ->
            rpc (attempts st + n - 1)%nat = SigOk sigs -> signatures st' = sigs)
      /\ (signatures st = [] ->
          (forall j, (attempts st <= j < attempts st + n)%nat ->
                     noSignature (rpc j) = true) ->
          signatures st' = []).
Proof.
  induction n as [|n IH]; intros fuel st Hfuel Hmax Hun.
  - exists st. rewrite Nat.sub_0_r, !Nat.add_0_r.
    repeat split; try done. intros sigs H. lia.
  - destruct fuel as [|fuel]; [lia|]. cbn [retryLoop].
    destruct (Nat.ltb_spec (attempts st) MAX_ATTEMPTS) as [Hlt|Hge]; [|lia].
    destruct (attempt_unusable (rpc (attempts st)) st)
      as (Hstop & Hatt & Hq & Hsig & Hnone).
    { apply Hun. lia. }
    destruct (attempt (rpc (attempts st)) st) as [st1 stop]. cbn [fst snd] in *.
    subst stop.
    destruct (IH fuel st1) as (st' & Hrun & Hatt' & Hq' & Hzero & Hsig' & Hnone').
    { lia. } { lia. } { intros j Hj. apply Hun. lia. }
    exists st'. split; [exact Hrun|]. split; [lia|]. split; [lia|].
    split; [intros; lia|]. split.
    + intros sigs _ Hlast.
      destruct n as [|n].
      * replace (attempts st + 1 - 1)%nat with (attempts st) in Hlast by lia.
        rewrite (Hzero eq_refl). by apply Hsig.
      * apply Hsig'; [lia|].
        replace (attempts st1 + S n - 1)%nat with (attempts st + S (S n) - 1)%nat by lia.
        exact Hlast.
    + intros Hempty Hall. apply Hnone'.
      * apply Hnone; [exact Hempty|]. apply Hall. lia.
      * intros j Hj. apply Hall. lia.
Qed.

Lemma retryLoop_exhausted (fuel : nat) (st : retry_state) :
  attempts st = MAX_ATTEMPTS -> retryLoop fuel rpc st = st.
Proof.
  intros H. destruct fuel as [|fuel]; [reflexivity|]. cbn [retryLoop].
  rewrite H. reflexivity.
Qed.

(** X5.  The loop returns the first usable answer: when the answers
    before attempt [k] (below the budget of 15) are not usable and answer
    [k] has signatures whose newest carries no error, the loop ends with
    exactly those signatures after [k] failed attempts and [k + 1]
    queries. *)
Theorem first_usable_answer_wins (k : nat) (sigs : list SignatureInfo) :
  (k < MAX_ATTEMPTS)%nat ->
  (forall j, (j < k)%nat -> usableResponse (rpc j) = false) ->
  rpc k = SigOk sigs ->
  usable sigs = true ->
  signatures (resolveSignatures rpc) = sigs
  /\ attempts (resolveSignatures rpc) = k
  /\ queries (log (resolveSignatures rpc)) = S k.
Proof.
  intros Hk Hbefore Hrpc Husable. unfold resolveSignatures.
  destruct (retryLoop_unusable_rounds k MAX_ATTEMPTS
              {| signatures := []; attempts := 0; log := [] |})
    as (st' & -> & Hatt & Hq & _).
  { lia. } { cbn. lia. } { intros j Hj. apply Hbefore. cbn in Hj. lia. }
  cbn in Hatt, Hq.
  destruct (MAX_ATTEMPTS - k)%nat as [|fuel] eqn:Hfuel; [lia|].
  cbn [retryLoop]. rewrite Hatt.
  destruct (Nat.ltb_spec k MAX_ATTEMPTS) as [_|?]; [|lia].
  rewrite Hrpc. cbn [attempt]. rewrite Husable. cbn.
  rewrite queries_app. cbn. split; [done|]. split; [done|]. lia.
Qed.

(** X6.  With no usable answer within the budget the loop stops after
    exactly 15 attempts and 15 queries.  It then holds no signature when
    every answer was empty or an error, so that
    [fetchLastTransactionDetails] returns null without fetching any
    transaction; but when the last answer carried signatures whose newest
    is marked as failed, the loop keeps them and the function goes on to
    fetch and classify that failed transaction. *)
Theorem exhausted_budget_outcome
    (fetchToken : string -> option TokenMarketData)
    (fetchRug : string -> RugCheckData)
    (getParsedTransaction : string -> option (option Classifier.ParsedTransaction))
    (pubKey : string) :
  (forall j, (j < MAX_ATTEMPTS)%nat -> usableResponse (rpc j) = false) ->
  attempts (resolveSignatures rpc) = MAX_ATTEMPTS
  /\ queries (log (resolveSignatures rpc)) = MAX_ATTEMPTS
  /\ ((forall j, (j < MAX_ATTEMPTS)%nat -> noSignature (rpc j) = true) ->
      signatures (resolveSignatures rpc) = []
      /\ Classifier.fetchLastTransactionDetails fetchToken fetchRug rpc
           getParsedTransaction pubKey = None)
  /\ (forall newest rest,
        rpc (MAX_ATTEMPTS - 1)%nat = SigOk (newest :: rest) ->
        signatures (resolveSignatures rpc) = newest :: rest
        /\ Classifier.fetchLastTransactionDetails fetchToken fetchRug rpc
             getParsedTransaction pubKey
           = match getParsedTransaction (signature newest) with
             | Some tx => Classifier.classify fetchToken fetchRug pubKey
                            (signature newest) tx
             | None => None
             end).
Proof.
  intros Hun. unfold Classifier.fetchLastTransactionDetails, resolveSignatures.
  destruct (retryLoop_unusable_rounds MAX_ATTEMPTS MAX_ATTEMPTS
              {| signatures := []; attempts := 0; log := [] |})
    as (st' & -> & Hatt & Hq & _ & Hlast & Hnone).
  { lia. } { cbn. lia. } { intros j Hj. apply Hun. cbn in Hj. lia. }
  cbn [attempts log queries signatures] in Hatt, Hq, Hlast, Hnone.
  rewrite retryLoop_exhausted by exact Hatt.
  split; [exact Hatt|]. split; [exact Hq|]. split.
  - intros Hall. rewrite Hnone; [done | done |].
    intros j Hj. apply Hall. cbn in Hj. lia.
  - intros newest rest Hrpc.
    rewrite (Hlast (newest :: rest)); [done | unfold MAX_ATTEMPTS; lia | exact Hrpc].
Qed.

(** X7.  The loop sleeps 200 ms after every failed attempt and a further
    1000 ms after a rate-limited one, and never after the attempt that
    succeeds: the total sleep lies between 200 ms and 1200 ms per failed
    attempt, at most 18 seconds in all. *)
Theorem retry_sleep_is_bounded :
  200 * Z.of_nat (attempts (resolveSignatures rpc))
  <= slept (log (resolveSignatures rpc))
  <= 1200 * Z.of_nat (attempts (resolveSignatures rpc))
  /\ slept (log (resolveSignatures rpc)) <= 18000.
Proof.
  assert (Hinv : forall fuel st,
            200 * Z.of_nat (attempts st) <= slept (log st)
                                         <= 1200 * Z.of_nat (attempts st) ->
            200 * Z.of_nat (attempts (retryLoop fuel rpc st))
            <= slept (log (retryLoop fuel rpc st))
            <= 1200 * Z.of_nat (attempts (retryLoop fuel rpc st))).
  { induction fuel as [|fuel IH]; intros st Hst; cbn [retryLoop]; [exact Hst|].
    destruct (attempts st <? MAX_ATTEMPTS)%nat; [|exact Hst].
    destruct (rpc (attempts st)) as [sigs|message]; cbn [attempt].
    - destruct (usable sigs); cbn.
      + rewrite slept_app. cbn. lia.
      + apply IH. cbn. rewrite slept_app. cbn. lia.
    - apply IH. cbn. rewrite !slept_app.
      destruct (rateLimited message); cbn; lia. }
  assert (Hb := Hinv MAX_ATTEMPTS {| signatures := []; attempts := 0; log := [] |}).
  fold (resolveSignatures rpc) in Hb.
  assert (Ha : (attempts (resolveSignatures rpc) <= MAX_ATTEMPTS)%nat).
  { apply (retryLoop_budget rpc MAX_ATTEMPTS); [reflexivity | cbn; lia]. }
  unfold MAX_ATTEMPTS in Ha.
  split; [apply Hb; cbn; lia|].
  specialize (Hb ltac:(cbn; lia)). lia.
Qed.
End RetrierExtras.

Section RetrierExtraWitnesses.
Import Retrier RetrierViews.

Lemma first_usable_answer_wins_witness :
  let good := {| signature := "5sig"; err := false |} in
  let rpc := fun k : nat =>
               if (k <? 2)%nat then SigOk []
               else if (k <? 3)%nat then SigThrow (Some "429"%string)
               else SigOk [good] in
  signatures (resolveSignatures rpc) = [good]
  /\ attempts (resolveSignatures rpc) = 3%nat
  /\ queries (log (resolveSignatures rpc)) = 4%nat.
Proof.
  intros good rpc.
  apply (first_usable_answer_wins rpc 3 [good]).
  - unfold MAX_ATTEMPTS. lia.
  - intros j Hj.
    assert (Hc : (j = 0 \/ j = 1 \/ j = 2)%nat) by lia.
    destruct Hc as [->|[->| ->]]; reflexivity.
  - reflexivity.
  - reflexivity.
Defined.

Lemma exhausted_budget_outcome_witness :
  let failed := {| signature := "4bad"; err := true |} in
  let rpc := fun k : nat => SigOk [failed] in
  attempts (resolveSignatures rpc) = 15%nat
  /\ Classifier.fetchLastTransactionDetails Scenarios.noToken Scenarios.goodRug rpc
       (fun _ => Some (Some Scenarios.buyTx)) Scenarios.watched
     = Classifier.classify Scenarios.noToken Scenarios.goodRug Scenarios.watched
         "4bad" (Some Scenarios.buyTx).
Proof.
  intros failed rpc.
  destruct (exhausted_budget_outcome rpc Scenarios.noToken Scenarios.goodRug
              (fun _ => Some (Some Scenarios.buyTx)) Scenarios.watched)
    as (Hatt & _ & _ & Hlast).
  - intros j Hj. reflexivity.
  - split; [exact Hatt|].
    exact (proj2 (Hlast failed [] eq_refl)).
Defined.
End RetrierExtraWitnesses.

(** ** More on the transaction classifier *)

Section ClassifierExtras.
Import Classifier FloatOrder.
Local Open Scope float_scope.

Lemma lt3b_true (a1 a2 a3 b1 b2 b3 : Z) :
  lt3b (a1, a2, a3) (b1, b2, b3) = true
  <-> (a1 < b1 \/ (a1 = b1 /\ (a2 < b2 \/ (a2 = b2 /\ a3 < b3))))%Z.
Proof.
  unfold lt3b.
  rewrite !orb_true_iff, !andb_true_iff, !orb_true_iff, !andb_true_iff,
    !Z.ltb_lt, !Z.eqb_eq.
  reflexivity.
Qed.

Lemma lt3b_false (a1 a2 a3 b1 b2 b3 : Z) :
  lt3b (a1, a2, a3) (b1, b2, b3) = false
  <-> ~ (a1 < b1 \/ (a1 = b1 /\ (a2 < b2 \/ (a2 = b2 /\ a3 < b3))))%Z.
Proof. rewrite <- lt3b_true. symmetry. apply not_true_iff_false. Qed.

Lemma findIndex_None (keys : list string) (k : string) :
  findIndex keys k = None <-> k ∉ keys.
Proof.
  induction keys as [|x keys IH]; cbn [findIndex].
  - split; [intros _ H; by apply elem_of_nil in H | done].
  - destruct (String.eqb_spec x k) as [->|Hne].
    + split; [done|]. intros H. exfalso. apply H. apply elem_of_cons. by left.
    + rewrite not_elem_of_cons, <- IH.
      destruct (findIndex keys k); cbn.
      * split; [done|]. intros [_ H]. done.
      * split; [|done]. intros _. split; [congruence | done].
Qed.

Lemma findIndex_Some (keys : list string) (k : string) :
  forall i, findIndex keys k = Some i ->
            keys !! i = Some k /\ forall j, (j < i)%nat -> keys !! j ≠ Some k.
Proof.
  induction keys as [|x keys IH]; intros i; cbn [findIndex]; [done|].
  destruct (String.eqb_spec x k) as [->|Hne].
  - intros [= <-]. split; [reflexivity|]. intros j Hj. lia.
  - destruct (findIndex keys k) as [i'|]; cbn; [|done].
    intros [= <-]. destruct (IH i' eq_refl) as [Hi Hfirst].
    split; [exact Hi|]. intros [|j] Hj; cbn; [congruence|].
    apply Hfirst. lia.
Qed.

(** X8.  Classification returns null only when there is no transaction,
    the transaction has no meta, or the watched account is not among its
    account keys; the account index it uses is the first position of the
    account in the keys. *)
Theorem classify_fails_only_without_account
    (fetchToken : string -> option TokenMarketData)
    (fetchRug : string -> RugCheckData)
    (pubKey sig : string) (tx : option ParsedTransaction) :
  (classify fetchToken fetchRug pubKey sig tx = None
   <-> tx = None
       \/ exists t, tx = Some t /\ (meta t = None \/ pubKey ∉ accountKeys t))
  /\ (forall t i, tx = Some t -> findIndex (accountKeys t) pubKey = Some i ->
        accountKeys t !! i = Some pubKey
        /\ forall j, (j < i)%nat -> accountKeys t !! j ≠ Some pubKey).
Proof.
  split.
  - unfold classify. destruct tx as [t|]; [|split; [by left | done]].
    destruct (meta t) as [m|] eqn:Hm.
    + destruct (findIndex (accountKeys t) pubKey) as [i|] eqn:Hi.
      * split.
        -- cbv zeta.
           repeat match goal with
                  | |- context [if ?c then _ else _] => destruct c
                  end; discriminate.
        -- intros [?|(t' & [= <-] & [?|Hno])]; try congruence.
           apply findIndex_None in Hno. congruence.
      * split; [|done]. intros _. right. exists t. split; [done|]. right.
        by apply findIndex_None.
    + split; [|done]. intros _. right. exists t. split; [done|]. by left.
  - intros t i _ Hi. by apply findIndex_Some.
Qed.

(** *** The target token has the largest absolute delta *)

Lemma abs_lt_positive (x y : float) :
  (abs x <? abs y) = true -> (0 <? abs y) = true.
Proof.
  rewrite !ltb_spec, !abs_spec. change (Prim2SF 0) with (S754_zero false).
  destruct (Prim2SF x) as [sx|sx| |sx mx ex], (Prim2SF y) as [sy|sy| |sy my ey];
    cbn; try discriminate; try reflexivity.
Qed.

Lemma ltb_irrefl (x : float) : (x <? x) = false.
Proof.
  rewrite ltb_rank. destruct (frank x) as [[[a b] c]|]; [|reflexivity].
  apply lt3b_false. lia.
Qed.

Lemma ltb_keeps_maximum (x y z : float) :
  (x <? y) = false -> (x <? z) = true -> (0 <? y) = true -> (z <? y) = false.
Proof.
  rewrite !ltb_rank.
  destruct (frank x) as [[[a1 a2] a3]|]; [|discriminate].
  destruct (frank z) as [[[c1 c2] c3]|]; [|discriminate].
  destruct (frank 0) as [r0|]; [|discriminate].
  destruct (frank y) as [[[b1 b2] b3]|]; [|discriminate].
  intros H1 H2 _. apply lt3b_false. apply lt3b_false in H1. apply lt3b_true in H2.
  lia.
Qed.

Variables (pre post : list TokenBalance) (pubKey : string).

Let diff := tokenDiff pre post pubKey.
Let step := scanMint pre post pubKey.

Lemma scan_maximum (l : list string) :
  forall st seen,
    (forall m, m ∈ seen -> m ≠ WSOL_MINT -> (0 <? abs (diff m)) = true ->
               (abs (targetChange st) <? abs (diff m)) = false) ->
    forall m, m ∈ seen ++ l -> m ≠ WSOL_MINT -> (0 <? abs (diff m)) = true ->
              (abs (targetChange (fold_left step l st)) <? abs (diff m)) = false.
Proof.
  induction l as [|a l IH]; intros st seen Hseen m Hm Hw Hnz.
  - rewrite app_nil_r in Hm. by apply Hseen.
  - cbn [fold_left]. apply (IH (step st a) (seen ++ [a])); [|by rewrite <- app_assoc|done|done].
    clear m Hm Hw Hnz. intros m Hm Hw Hnz.
    unfold step, scanMint. fold (diff a).
    apply elem_of_app in Hm as [Hm|Hm].
    + specialize (Hseen m Hm Hw Hnz).
      destruct (0 <? abs (diff a)); [|exact Hseen].
      destruct (String.eqb a WSOL_MINT); [exact Hseen|].
      destruct (abs (targetChange st) <? abs (diff a)) eqn:Hlt; [|exact Hseen].
      cbn [targetChange]. by apply (ltb_keeps_maximum (abs (targetChange st))).
    + apply list_elem_of_singleton in Hm as ->.
      rewrite Hnz. apply String.eqb_neq in Hw. rewrite Hw.
      destruct (abs (targetChange st) <? abs (diff a)) eqn:Hlt; [|exact Hlt].
      cbn [targetChange]. apply ltb_irrefl.
Qed.

(** X9.  After the scan of the token balances no token other than
    wrapped-native has an absolute delta larger than the one recorded for
    the target: the target is a token of largest absolute delta. *)
Theorem target_has_largest_delta (m : string) :
  m ≠ WSOL_MINT ->
  (abs (targetChange (scanMints pre post pubKey))
   <? abs (tokenDiff pre post pubKey m)) = false.
Proof.
  intros Hw. fold (diff m).
  destruct (0 <? abs (diff m)) eqn:Hnz.
  - unfold scanMints. fold step.
    apply (scan_maximum (allMints pre post) _ []); try done.
    + intros x Hx. by apply elem_of_nil in Hx.
    + cbn [app]. destruct (decide (m ∈ allMints pre post)) as [Hin|Hout]; [done|].
      apply (tokenDiff_unlisted _ _ pubKey) in Hout. fold diff in Hout. congruence.
  - destruct (abs (targetChange (scanMints pre post pubKey)) <? abs (diff m)) eqn:Hlt;
      [|reflexivity].
    apply abs_lt_positive in Hlt. congruence.
Qed.

(** The target, once chosen, is one of the scanned mints. *)
Lemma scan_target_member (l : list string) :
  forall st,
    targetMint (fold_left step l st) = targetMint st
    \/ targetMint (fold_left step l st) ∈ l.
Proof.
  induction l as [|a l IH]; intros st; cbn [fold_left]; [by left|].
  destruct (IH (step st a)) as [H|H].
  - rewrite H. unfold step, scanMint. fold (diff a).
    destruct (0 <? abs (diff a)); [|by left].
    destruct (String.eqb a WSOL_MINT); [by left|].
    destruct (abs (targetChange st) <? abs (diff a)); [|by left].
    right. apply elem_of_cons. by left.
  - right. apply elem_of_cons. by right.
Qed.

Lemma scanMints_target_listed :
  targetMint (scanMints pre post pubKey) ≠ ""%string ->
  exists b, b ∈ pre ++ post /\ mint b = targetMint (scanMints pre post pubKey).
Proof.
  intros Hne. unfold scanMints in Hne |- *. fold step in Hne |- *.
  destruct (scan_target_member (allMints pre post)
              {| targetMint := ""; targetChange := 0; wSolDiff := 0 |}) as [H|H].
  - cbn in H. congruence.
  - apply allMints_elem in H.
    destruct H as [H|H]; apply list_elem_of_fmap in H as (b & Hb & Hin);
      exists b; (split; [|done]); apply elem_of_app; tauto.
Qed.
End ClassifierExtras.

Lemma target_has_largest_delta_witness :
  (abs (Classifier.targetChange
          (Classifier.scanMints [] (default [] (Classifier.postTokenBalances Scenarios.buyMeta))
             Scenarios.watched))
   <? abs (Classifier.tokenDiff [] (default [] (Classifier.postTokenBalances Scenarios.buyMeta))
             Scenarios.watched Scenarios.someToken))%float = false.
Proof.
  apply (target_has_largest_delta [] _ Scenarios.watched Scenarios.someToken).
  discriminate.
Defined.

(** ** Notification of classified events *)

Section NotifyExtras.
Import Classifier Notify FloatOrder.
Local Open Scope float_scope.

(** No magnitude is below [MIN_SOL_THRESHOLD = 0]. *)
Lemma abs_not_below_zero (x : float) : (abs x <? 0) = false.
Proof.
  rewrite ltb_spec, abs_spec. change (Prim2SF 0) with (S754_zero false).
  destruct (Prim2SF x) as [s|s| |s m e]; reflexivity.
Qed.

(** X10.  A message is sent for a classified event exactly when it is a
    SWAP, or a TRANSFER whose mint is "SOL" and whose absolute value
    exceeds 0.001 SOL.  Nothing is sent for null, for a WRAP, for a
    TRANSFER of a token, or for a smaller native TRANSFER; the minimum
    threshold of 0 filters nothing. *)
Theorem notify_decision (d : TradeDetails) :
  notify None = None
  /\ (is_Some (notify (Some d))
      <-> type d = SWAP
          \/ (type d = TRANSFER /\ tokenMint d = "SOL"%string
              /\ (0.001 <? abs (solChange d)) = true))
  /\ (type d = TRANSFER -> forall n, notify (Some d) = Some n ->
        n = TransferNotice (0 <? solChange d) (Format.toFixed (solChange d) 2)).
Proof.
  split; [reflexivity|]. unfold notify, MIN_SOL_THRESHOLD.
  rewrite abs_not_below_zero.
  destruct (type d) eqn:Ht.
  - split; [split; [by left | by eexists]|]. done.
  - destruct (String.eqb_spec (tokenMint d) "SOL") as [Hsol|Hne]; cbn [negb].
    + destruct (0.001 <? abs (solChange d)) eqn:Hbig.
      * split; [split; [by right | by eexists]|]. intros _ n [= <-]. reflexivity.
      * split; [|done]. split; [intros [n Hn]; done|].
        intros [?|(_ & _ & ?)]; done.
    + split; [|done]. split; [intros [n Hn]; done|].
      intros [?|(_ & ? & _)]; done.
  - split; [|done]. split; [intros [n Hn]; done|].
    intros [?|(? & _)]; done.
Qed.

Variables (fetchToken : string -> option TokenMarketData)
          (fetchRug : string -> RugCheckData).

(** X11.  A transaction that moves a token of the watched account is
    notified exactly when it is classified as a swap, that is when the
    logs carry a swap marker or the native delta exceeds 0.05 in absolute
    value: a token that merely arrives or leaves (an airdrop or a
    distribution) never produces a message.  Mint identifiers are taken
    to be neither empty nor the word "SOL". *)
Theorem token_distribution_is_not_notified
    (pubKey sig : string) (t : ParsedTransaction) (m : TxMeta) (i : nat) :
  meta t = Some m ->
  findIndex (accountKeys t) pubKey = Some i ->
  let pre := default [] (preTokenBalances m) in
  let post := default [] (postTokenBalances m) in
  (forall b, b ∈ pre ++ post -> mint b ≠ ""%string /\ mint b ≠ "SOL"%string) ->
  (exists tok, tok ≠ WSOL_MINT
               /\ (0 <? abs (tokenDiff pre post pubKey tok)) = true) ->
  is_Some (notify (classify fetchToken fetchRug pubKey sig (Some t)))
  <-> isSwapProgram (default [] (logMessages m)) = true
      \/ (0.05 <? abs (nativeDiffOf m i)) = true.
Proof.
  intros Hmeta Hidx pre post Hmints Hcand.
  destruct (scanMints_candidate pre post pubKey) as (Htruthy & _); [|exact Hcand|].
  { intros b Hb. by apply Hmints. }
  assert (Hsol : String.eqb (targetMint (scanMints pre post pubKey)) "SOL" = false).
  { apply String.eqb_neq.
    destruct (scanMints_target_listed pre post pubKey) as (b & Hb & <-).
    - by apply truthy_nonempty.
    - by apply Hmints. }
  unfold classify. rewrite Hmeta, Hidx. fold pre post. rewrite Htruthy.
  destruct (isSwapProgram (default [] (logMessages m))); cbn [negb andb].
  - cbn [notify type]. split; [by left | by eexists].
  - destruct (0.05 <? abs (nativeDiffOf m i)).
    + cbn [notify type]. split; [by right | by eexists].
    + cbn [notify type tokenMint]. rewrite Hsol. cbn [negb].
      split; [intros [n Hn]; done | intros [?|?]; done].
Qed.

(** X12.  A transaction that moves no token other than wrapped-native is
    notified exactly when it is not a wrap or unwrap and the sum of the
    native and the wrapped-native delta exceeds 0.001 in absolute value;
    the message then tells the direction by the sign of that sum.  A wrap
    or unwrap is silent. *)
Theorem native_transfer_notification
    (pubKey sig : string) (t : ParsedTransaction) (m : TxMeta) (i : nat) :
  meta t = Some m ->
  findIndex (accountKeys t) pubKey = Some i ->
  let pre := default [] (preTokenBalances m) in
  let post := default [] (postTokenBalances m) in
  (forall tok, tok ≠ WSOL_MINT ->
               (0 <? abs (tokenDiff pre post pubKey tok)) = false) ->
  let native := nativeDiffOf m i in
  let wrapped :=
    if 0 <? abs (tokenDiff pre post pubKey WSOL_MINT)
    then tokenDiff pre post pubKey WSOL_MINT else 0 in
  let isWrap := ((0.001 <? abs native) && (0.001 <? abs wrapped)
                 && (abs (native + wrapped) <? 0.01))%bool in
  let sent := notify (classify fetchToken fetchRug pubKey sig (Some t)) in
  (is_Some sent <-> isWrap = false /\ (0.001 <? abs (native + wrapped)) = true)
  /\ (forall n, sent = Some n ->
        n = TransferNotice (0 <? native + wrapped)
              (Format.toFixed (native + wrapped) 2)).
Proof.
  intros Hmeta Hidx pre post Hnone native wrapped isWrap sent.
  pose proof (scanMints_no_candidate pre post pubKey Hnone) as Htarget.
  pose proof (scanMints_wrapped pre post pubKey) as Hwrapped.
  fold wrapped in Hwrapped.
  subst sent. unfold classify. rewrite Hmeta, Hidx. fold pre post native.
  rewrite Htarget, Hwrapped. cbn [truthy]. fold isWrap.
  destruct isWrap.
  - cbn [notify type]. split; [|done]. split; [intros [n Hn]; done | intros [? _]; done].
  - unfold notify. cbn [type tokenMint solChange]. cbn [String.eqb Ascii.eqb Bool.eqb negb].
    unfold MIN_SOL_THRESHOLD. rewrite abs_not_below_zero.
    destruct (0.001 <? abs (native + wrapped)).
    + split; [split; [done | by eexists]|]. by intros n [= <-].
    + split; [|done]. split; [intros [n Hn]; done | intros [_ ?]; done].
Qed.

Lemma risk_thresholds (s : float) :
  ((2000 <? s) = true ->
   (500 <? s) = true /\ (s <? 500) = false /\ (s <? 1500) = false)
  /\ ((500 <? s) = true -> (s <? 500) = false).
Proof.
  rewrite !ltb_rank.
  let v := eval vm_compute in (frank 2000) in change (frank 2000) with v.
  let v := eval vm_compute in (frank 500) in change (frank 500) with v.
  let v := eval vm_compute in (frank 1500) in change (frank 1500) with v.
  destruct (frank s) as [[[a1 a2] a3]|]; cbv beta iota; [|done].
  rewrite !lt3b_true, !lt3b_false. lia.
Qed.

(** X13.  The risk shown with a swap is never milder than the level
    stored with the report: a report stored as "danger" (score above
    2000) is shown as dangerous, one stored as "warn" (score above 500)
    as caution or dangerous, and a report shown as safe (score below 500)
    is stored as "good".  A report is never shown as a new pool. *)
Theorem shown_risk_is_not_milder (b : Resolver.RugBody) :
  let r := Resolver.rugReport b in
  (riskLevel r = "danger"%string -> riskBadge (Some r) = Dangerous (score r))
  /\ (riskLevel r = "warn"%string ->
      riskBadge (Some r) = Caution (score r)
      \/ riskBadge (Some r) = Dangerous (score r))
  /\ (forall s, riskBadge (Some r) = Safe s -> riskLevel r = "good"%string)
  /\ riskBadge (Some r) ≠ NewPool.
Proof.
  intros r. subst r. unfold Resolver.rugReport, riskBadge. cbn [isNew score riskLevel].
  set (s := orZero (Resolver.rugScore b)).
  destruct (risk_thresholds s) as [Hdanger Hwarn].
  destruct (2000 <? s) eqn:E1.
  - destruct (Hdanger eq_refl) as (_ & -> & ->). repeat split; done.
  - destruct (500 <? s) eqn:E2.
    + rewrite (Hwarn eq_refl).
      destruct (s <? 1500); repeat split; try done; intros _; by eauto.
    + destruct (s <? 500); [|destruct (s <? 1500)]; repeat split; done.
Qed.
End NotifyExtras.

Section NotifyWitnesses.
Import Classifier Notify Scenarios MoreScenarios.
Local Open Scope float_scope.

Lemma token_distribution_is_not_notified_witness :
  notify (classify noToken goodRug watched "sig" (Some airdropTx)) = None
  /\ is_Some (notify (classify noToken goodRug watched "sig" (Some buyTx))).
Proof.
  split.
  - destruct (notify (classify noToken goodRug watched "sig" (Some airdropTx)))
      as [n|] eqn:Hn; [|reflexivity].
    exfalso.
    assert (Hsome : is_Some (notify (classify noToken goodRug watched "sig"
                                       (Some airdropTx)))) by (rewrite Hn; by eexists).
    apply (token_distribution_is_not_notified noToken goodRug watched "sig"
             airdropTx airdropMeta 1 eq_refl eq_refl) in Hsome.
    + destruct Hsome as [H|H]; vm_compute in H; discriminate.
    + intros b Hb. cbn in Hb. apply list_elem_of_singleton in Hb as ->.
      split; discriminate.
    + exists someToken. split; [discriminate | reflexivity].
  - apply (token_distribution_is_not_notified noToken goodRug watched "sig"
             buyTx buyMeta 1 eq_refl eq_refl).
    + intros b Hb. cbn in Hb. apply list_elem_of_singleton in Hb as ->.
      split; discriminate.
    + exists someToken. split; [discriminate | reflexivity].
    + left. reflexivity.
Defined.

Lemma native_transfer_notification_witness :
  notify (classify noToken goodRug watched "sig" (Some incomeTx))
  = Some (TransferNotice true "2.00")
  /\ notify (classify noToken goodRug watched "sig" (Some unwrapTx)) = None.
Proof.
  split.
  - destruct (native_transfer_notification noToken goodRug watched "sig"
                incomeTx incomeMeta 1 eq_refl eq_refl) as [Hiff Hshape].
    + intros tok _. reflexivity.
    + destruct (proj2 Hiff) as [n Hn]; [split; reflexivity|].
      rewrite Hn. f_equal. rewrite (Hshape n Hn). reflexivity.
  - destruct (native_transfer_notification noToken goodRug watched "sig"
                unwrapTx unwrapMeta 0 eq_refl eq_refl) as [Hiff _].
    + intros tok Htok. apply tokenDiff_unlisted. rewrite allMints_elem. cbn.
      intros [H|H]; apply list_elem_of_singleton in H; congruence.
    + destruct (notify (classify noToken goodRug watched "sig" (Some unwrapTx)))
        as [n|] eqn:Hn; [|reflexivity].
      exfalso. destruct (proj1 Hiff) as [Hw _]; [by eexists|].
      vm_compute in Hw. discriminate.
Defined.
End NotifyWitnesses.

(** ** [formatNumber] *)

Section FormatNumberExtras.
Import Format Notify FloatOrder.
Local Open Scope float_scope.

(** [toFixed] of any number of magnitude below 1e21, zero included, is a
    fixed-point rendering. *)
Lemma toFixed_shape (x : float) (f : nat) :
  f ≠ O -> (abs x <? 1e21) = true ->
  exists sign whole frac,
    toFixed x f = (sign ++ whole ++ "." ++ frac)%string
    /\ (sign = ""%string \/ sign = "-"%string)
    /\ allDigits whole = true /\ whole ≠ ""%string
    /\ allDigits frac = true /\ String.length frac = f.
Proof.
  intros Hf Hlt. destruct (x =? 0) eqn:Hz.
  - rewrite FloatAxioms.eqb_spec in Hz. unfold toFixed.
    change (Prim2SF 0) with (S754_zero false) in Hz.
    destruct (Prim2SF x) as [s|s| |s m e]; try destruct s; try discriminate;
      destruct (pointed_shape 0 f Hf) as (whole & frac & -> & Hrest);
      exists ""%string, whole, frac; (split; [reflexivity|]);
      (split; [by left | exact Hrest]).
  - destruct (toFixed_fixed x f Hz Hlt) as (s & m & e & _ & _ & _ & ->).
    destruct (pointed_shape (scaledRound m e f) f Hf) as (whole & frac & -> & Hrest).
    exists (if s then "-" else "")%string, whole, frac.
    split; [reflexivity|]. split; [destruct s; by auto | exact Hrest].
Qed.

Lemma append_empty_r (s : string) : (s ++ "")%string = s.
Proof.
  induction s as [|c s IH]; [reflexivity|]. by rewrite append_cons, IH.
Qed.

Lemma append_assoc (a b c : string) :
  ((a ++ b) ++ c)%string = (a ++ (b ++ c))%string.
Proof.
  induction a as [|x a IH]; [reflexivity|]. by rewrite !append_cons, IH.
Qed.

Lemma formatNumber_bracket (num : float) :
  falsy num = false ->
  formatNumber num
  = ("$" ++ toFixed (fst (numberBracket num)) 2 ++ snd (numberBracket num))%string.
Proof.
  intros H. unfold formatNumber, numberBracket. rewrite H.
  destruct (1000000000 <=? num); [reflexivity|].
  destruct (1000000 <=? num); [reflexivity|].
  destruct (1000 <=? num); [reflexivity|].
  cbn [fst snd]. by rewrite append_empty_r.
Qed.

Lemma numberBracket_suffix (num : float) :
  hasExponent (snd (numberBracket num)) = false.
Proof.
  unfold numberBracket.
  destruct (1000000000 <=? num); [reflexivity|].
  destruct (1000000 <=? num); [reflexivity|].
  destruct (1000 <=? num); reflexivity.
Qed.

(** X14.  [formatNumber] renders 0 and NaN as "$0".  Any other number is
    divided by 1e9, 1e6 or 1e3 according to the largest of these it
    reaches, and, as long as the scaled value stays below 1e21 in
    magnitude, rendered as "$", an optional minus sign, a non-empty run of
    digits, a point, exactly two digits and the suffix B, M, K or none,
    without an exponent. *)
Theorem formatNumber_two_decimals (num : float) :
  (falsy num = true -> formatNumber num = "$0"%string)
  /\ (falsy num = false ->
      (abs (fst (numberBracket num)) <? 1e21) = true ->
      exists sign whole frac,
        formatNumber num
        = ("$" ++ sign ++ whole ++ "." ++ frac ++ snd (numberBracket num))%string
        /\ (sign = ""%string \/ sign = "-"%string)
        /\ allDigits whole = true /\ whole ≠ ""%string
        /\ allDigits frac = true /\ String.length frac = 2%nat
        /\ hasExponent (formatNumber num) = false).
Proof.
  split.
  - intros H. unfold formatNumber. by rewrite H.
  - intros Hnum Hlt.
    destruct (toFixed_shape (fst (numberBracket num)) 2 ltac:(done) Hlt)
      as (sign & whole & frac & Hfix & Hsign & Hw & Hwne & Hf & Hlen).
    assert (Heq : formatNumber num
                  = ("$" ++ sign ++ whole ++ "." ++ frac
                         ++ snd (numberBracket num))%string).
    { rewrite (formatNumber_bracket num Hnum), Hfix.
      rewrite !append_assoc. reflexivity. }
    exists sign, whole, frac. split; [exact Heq|].
    split; [exact Hsign|]. split; [exact Hw|]. split; [exact Hwne|].
    split; [exact Hf|]. split; [exact Hlen|].
    rewrite Heq, !hasExponent_app, numberBracket_suffix.
    rewrite (allDigits_no_exponent whole Hw), (allDigits_no_exponent frac Hf).
    destruct Hsign as [-> | ->]; reflexivity.
Qed.

Lemma formatNumber_two_decimals_witness :
  exists sign whole frac,
    formatNumber 1234567 = ("$" ++ sign ++ whole ++ "." ++ frac ++ "M")%string
    /\ String.length frac = 2%nat
    /\ formatNumber 1234567 = "$1.23M"%string.
Proof.
  destruct (formatNumber_two_decimals 1234567) as [_ H].
  destruct (H eq_refl eq_refl) as (sign & whole & frac & Heq & _ & _ & _ & _ & Hlen & _).
  exists sign, whole, frac. split; [exact Heq|]. split; [exact Hlen | reflexivity].
Defined.
End FormatNumberExtras.

(** ** Wallet list loading and hot reload *)

Section WalletExtras.
Import Detector Wallets.

Variable isPublicKey : string -> bool.

Lemma loadLoop_items (items : list RawItem) :
  forall valid,
    loadLoop isPublicKey (Some <$> items) valid
    = Some (valid ++ omap (loadItem isPublicKey) items).
Proof.
  induction items as [|item items IH]; intros valid.
  - cbn. by rewrite app_nil_r.
  - cbn [fmap list_fmap loadLoop omap list_omap].
    destruct (loadItem isPublicKey item) as [w|].
    + change (loadLoop isPublicKey (Some <$> items) (valid ++ [w])
              = Some (valid ++ w :: omap (loadItem isPublicKey) items)).
      rewrite IH. by rewrite <- app_assoc.
    + apply IH.
Qed.

Lemma loadLoop_null (raw : list (option RawItem)) :
  forall valid, None ∈ raw -> loadLoop isPublicKey raw valid = None.
Proof.
  induction raw as [|[item|] raw IH]; intros valid Hin.
  - by apply elem_of_nil in Hin.
  - apply elem_of_cons in Hin as [?|Hin]; [done|].
    cbn [loadLoop]. destruct (loadItem isPublicKey item); by apply IH.
  - reflexivity.
Qed.

Lemma truthyString_nonempty (s : option string) (a : string) :
  truthyString s = Some a -> a ≠ ""%string.
Proof. destruct s as [[|c r]|]; cbn; intros [= <-]; done. Qed.

Lemma default_truthy_nonempty (d : string) (s : option string) :
  d ≠ ""%string -> default d (truthyString s) ≠ ""%string.
Proof. intros Hd. destruct s as [[|c r]|]; cbn; done. Qed.

Lemma loadItem_valid (item : RawItem) (w : WalletConfig) :
  loadItem isPublicKey item = Some w ->
  itemAddress item = Some (address w)
  /\ isPublicKey (address w) = true
  /\ address w ≠ ""%string /\ name w ≠ ""%string /\ emoji w ≠ ""%string.
Proof.
  unfold loadItem. destruct (itemAddress item) as [addr|] eqn:Ha; [|done].
  destruct (isPublicKey addr) eqn:Hpk; [|done].
  intros [= <-]. cbn [address name emoji].
  split; [done|]. split; [done|]. split.
  - unfold itemAddress in Ha.
    destruct (truthyString (r_address item)) eqn:H1.
    + injection Ha as ->. by apply truthyString_nonempty in H1.
    + by apply truthyString_nonempty in Ha.
  - split; by apply default_truthy_nonempty.
Qed.

(** X15.  From a parsed array without null elements [loadWalletConfigs]
    returns, in file order, one wallet for each element that has a
    non-empty address (or, failing that, a non-empty trackedWalletAddress)
    accepted as a public key, and nothing else: every wallet returned has
    a valid, non-empty address and a non-empty name and emoji, and no
    element with a valid address is dropped. *)
Theorem loaded_wallets_are_valid
    (items : list RawItem) (GLOBAL_WALLETS : list WalletConfig) :
  let loaded := loadWalletConfigs isPublicKey (Parsed (Some <$> items)) GLOBAL_WALLETS in
  loaded = omap (loadItem isPublicKey) items
  /\ (forall w, w ∈ loaded ->
        isPublicKey (address w) = true
        /\ address w ≠ ""%string /\ name w ≠ ""%string /\ emoji w ≠ ""%string
        /\ exists item, item ∈ items /\ itemAddress item = Some (address w))
  /\ (forall item a, item ∈ items -> itemAddress item = Some a ->
        isPublicKey a = true -> exists w, w ∈ loaded /\ address w = a)
  /\ (length loaded <= length items)%nat.
Proof.
  intros loaded.
  assert (Heq : loaded = omap (loadItem isPublicKey) items).
  { subst loaded. unfold loadWalletConfigs. by rewrite loadLoop_items. }
  split; [exact Heq|]. rewrite Heq. split; [|split].
  - intros w Hw. apply list_elem_of_omap in Hw as (item & Hitem & Hload).
    destruct (loadItem_valid item w Hload) as (Ha & Hpk & H1 & H2 & H3).
    repeat split; try done. by exists item.
  - intros item a Hitem Ha Hpk.
    eexists. split.
    + apply list_elem_of_omap. exists item. split; [exact Hitem|].
      unfold loadItem. rewrite Ha, Hpk. reflexivity.
    + reflexivity.
  - clear. induction items as [|item items IH]; [done|].
    cbn [omap list_omap length]. destruct (loadItem isPublicKey item); cbn [length]; lia.
Qed.

(** X16.  A reload never replaces a non-empty wallet list by an empty one,
    and it keeps the current list unchanged whenever the file is missing,
    cannot be read or parsed, contains a null element, or yields no valid
    wallet; otherwise the list becomes the wallets loaded from the
    file. *)
Theorem reload_never_empties_the_list
    (file : file_state) (GLOBAL_WALLETS : list WalletConfig) :
  (GLOBAL_WALLETS ≠ [] -> reload isPublicKey file GLOBAL_WALLETS ≠ [])
  /\ (file = Missing \/ file = Unreadable
      \/ (exists raw, file = Parsed raw /\ None ∈ raw) ->
      reload isPublicKey file GLOBAL_WALLETS = GLOBAL_WALLETS)
  /\ (forall items,
        file = Parsed (Some <$> items) ->
        reload isPublicKey file GLOBAL_WALLETS
        = match omap (loadItem isPublicKey) items with
          | [] => GLOBAL_WALLETS
          | w :: ws => w :: ws
          end).
Proof.
  split; [|split].
  - intros Hne. unfold reload.
    destruct (loadWalletConfigs isPublicKey file GLOBAL_WALLETS) as [|w ws];
      cbn; done.
  - intros [->|[->|(raw & -> & Hnull)]]; unfold reload, loadWalletConfigs.
    + reflexivity.
    + by destruct (0 <? length GLOBAL_WALLETS)%nat.
    + rewrite (loadLoop_null raw [] Hnull).
      by destruct (0 <? length GLOBAL_WALLETS)%nat.
  - intros items ->. unfold reload, loadWalletConfigs.
    rewrite loadLoop_items. cbn [app].
    by destruct (omap (loadItem isPublicKey) items).
Qed.
End WalletExtras.

Lemma reload_never_empties_the_list_witness :
  let w := {| Detector.address := "A"; Detector.name := "a"; Detector.emoji := "e" |} in
  Wallets.reload (fun _ => true) Wallets.Missing [w] = [w]
  /\ Wallets.reload (fun _ => false)
       (Wallets.Parsed [Some {| Wallets.r_address := Some "B"%string;
                                Wallets.r_trackedWalletAddress := None;
                                Wallets.r_name := None;
                                Wallets.r_emoji := None |}]) [w] ≠ [].
Proof.
  intros w. split.
  - apply (reload_never_empties_the_list (fun _ => true) Wallets.Missing [w]).
    by left.
  - apply (reload_never_empties_the_list (fun _ => false)). done.
Defined.

(** ** The resolver's caches and the merge of the two sources *)

Section ResolverExtras.
Import Resolver.

(** X17.  The risk cache only ever holds graded reports.  If every entry
    of the cache is a report that is not a new-pool verdict and carries one
    of the grades good, warn or danger, the same holds after any call of
    [fetchRugCheckData]; and then a call that answers with the new-pool
    verdict or with the error verdict has issued the network request and
    stored nothing.  The new-pool verdict is returned exactly when the
    lookup misses the cache and the service answers with status 404. *)
Theorem risk_cache_holds_graded_reports_only
    (mint : string) (now later : Z) (res : settled (Response RugBody))
    (rugCache : gmap string (cached RugCheckData)) :
  (forall m e, rugCache !! m = Some e ->
     isNew (cachedData e) = false
     /\ riskLevel (cachedData e) ∈ ["good"; "warn"; "danger"]%string) ->
  let out := fetchRugCheckData mint now res later rugCache in
  (forall m e, rugCacheAfter out !! m = Some e ->
     isNew (cachedData e) = false
     /\ riskLevel (cachedData e) ∈ ["good"; "warn"; "danger"]%string)
  /\ (isNew (rugResult out) = true \/ riskLevel (rugResult out) = "error"%string ->
      rugRequests out = [RugSummary mint] /\ rugCacheAfter out = rugCache)
  /\ (isNew (rugResult out) = true
      <-> fresh (rugCache !! mint) now = None
          /\ exists r, res = Fulfilled r /\ status r = 404).
Proof.
  intros Hinv out.
  assert (Hreport : forall b,
             isNew (rugReport b) = false
             /\ riskLevel (rugReport b) ∈ ["good"; "warn"; "danger"]%string).
  { intros b. unfold rugReport. cbn [isNew riskLevel]. split; [done|].
    rewrite !elem_of_cons.
    destruct (2000 <? orZero (rugScore b))%float; [by auto|].
    destruct (500 <? orZero (rugScore b))%float; by auto. }
  assert (Hnot_error : forall l : string,
             l ∈ ["good"; "warn"; "danger"]%string -> l ≠ "error"%string).
  { intros l Hl ->. rewrite !elem_of_cons, elem_of_nil in Hl.
    destruct Hl as [|[|[|]]]; done. }
  subst out. unfold fetchRugCheckData.
  destruct (fresh (rugCache !! mint) now) as [d|] eqn:Hfresh.
  - (* served from the cache *)
    cbn [rugResult rugCacheAfter rugRequests].
    assert (Hd : isNew d = false /\ riskLevel d ∈ ["good"; "warn"; "danger"]%string).
    { unfold fresh in Hfresh. destruct (rugCache !! mint) as [e|] eqn:He; [|done].
      destruct (now - timestamp e <? CACHE_TTL); [|done].
      injection Hfresh as <-. by apply (Hinv mint). }
    destruct Hd as [Hnew Hlevel].
    split; [exact Hinv|]. split.
    + intros [H|H]; [congruence | by apply Hnot_error in Hlevel].
    + rewrite Hnew. split; [done | intros [? _]; done].
  - destruct res as [r|]; cbn [rugResult rugCacheAfter rugRequests].
    + destruct (status r =? 404) eqn:H404;
        cbn [rugResult rugCacheAfter rugRequests].
      * apply Z.eqb_eq in H404.
        split; [exact Hinv|]. split; [done|].
        split; [intros _; split; [done | by exists r] | done].
      * apply Z.eqb_neq in H404. destruct (ok r); cbn [negb].
        -- destruct (body r) as [b|]; cbn [rugResult rugCacheAfter rugRequests].
           ++ destruct (Hreport b) as [Hnew Hlevel]. split; [|split].
              ** intros m e. destruct (decide (m = mint)) as [->|Hm].
                 --- rewrite lookup_insert_eq. intros [= <-]. cbn [cachedData].
                     by apply Hreport.
                 --- rewrite lookup_insert_ne by done. apply Hinv.
              ** intros [H|H]; [congruence | by apply Hnot_error in Hlevel].
              ** rewrite Hnew. split; [done|].
                 intros (_ & r' & [= <-] & H). done.
           ++ split; [exact Hinv|]. split; [done|]. cbn. split; [done|].
              intros (_ & r' & [= <-] & H). done.
        -- cbn [rugResult rugCacheAfter rugRequests].
           split; [exact Hinv|]. split; [done|]. cbn. split; [done|].
           intros (_ & r' & [= <-] & H). done.
    + split; [exact Hinv|]. split; [done|]. cbn. split; [done|].
      intros (_ & r' & H & _). done.
Qed.

(** X18.  A lookup for one token never touches another token's cache
    entry and never evicts anything: in both caches every other key keeps
    its entry, the looked-up key either keeps its entry or receives the
    returned data stamped with the time of storing, and every key that had
    an entry still has one. *)
Theorem lookups_never_evict
    (mint : string) (now later : Z)
    (jupRes : settled (Response JupBody)) (dexRes : settled (Response DexBody))
    (res : settled (Response RugBody))
    (tokenCache : gmap string (cached TokenMarketData))
    (rugCache : gmap string (cached RugCheckData)) :
  let tout := fetchTokenMarketData mint now jupRes dexRes later tokenCache in
  let rout := fetchRugCheckData mint now res later rugCache in
  (forall m, m ≠ mint -> tokenCacheAfter tout !! m = tokenCache !! m)
  /\ (tokenCacheAfter tout !! mint = tokenCache !! mint
      \/ exists d, tokenResult tout = Some d
                   /\ tokenCacheAfter tout !! mint
                      = Some {| cachedData := d; timestamp := later |})
  /\ (forall m, is_Some (tokenCache !! m) -> is_Some (tokenCacheAfter tout !! m))
  /\ (forall m, m ≠ mint -> rugCacheAfter rout !! m = rugCache !! m)
  /\ (rugCacheAfter rout !! mint = rugCache !! mint
      \/ rugCacheAfter rout !! mint
         = Some {| cachedData := rugResult rout; timestamp := later |})
  /\ (forall m, is_Some (rugCache !! m) -> is_Some (rugCacheAfter rout !! m)).
Proof.
  intros tout rout.
  assert (Htoken : tokenCacheAfter tout = tokenCache
                   \/ exists d, tokenResult tout = Some d
                        /\ tokenCacheAfter tout
                           = <[mint := {| cachedData := d; timestamp := later |}]> tokenCache).
  { subst tout. unfold fetchTokenMarketData.
    destruct (fresh (tokenCache !! mint) now); [by left|].
    destruct (v_found _); cbn [negb]; [|by left].
    right. eexists. split; reflexivity. }
  assert (Hrug : rugCacheAfter rout = rugCache
                 \/ rugCacheAfter rout
                    = <[mint := {| cachedData := rugResult rout; timestamp := later |}]> rugCache).
  { subst rout. unfold fetchRugCheckData.
    destruct (fresh (rugCache !! mint) now); [by left|].
    destruct res as [r|]; [|by left].
    destruct (status r =? 404); [by left|].
    destruct (ok r); cbn [negb]; [|by left].
    destruct (body r); [by right | by left]. }
  repeat split.
  - intros m Hm. destruct Htoken as [->|(d & _ & ->)]; [done|].
    by rewrite lookup_insert_ne.
  - destruct Htoken as [->|(d & Hd & ->)]; [by left|].
    right. exists d. by rewrite lookup_insert_eq.
  - intros m Hm. destruct Htoken as [->|(d & _ & ->)]; [done|].
    destruct (decide (m = mint)) as [->|Hne].
    + by rewrite lookup_insert_eq.
    + by rewrite lookup_insert_ne.
  - intros m Hm. destruct Hrug as [->| ->]; [done|].
    by rewrite lookup_insert_ne.
  - destruct Hrug as [->| ->]; [by left|].
    right. by rewrite lookup_insert_eq.
  - intros m Hm. destruct Hrug as [->| ->]; [done|].
    destruct (decide (m = mint)) as [->|Hne].
    + by rewrite lookup_insert_eq.
    + by rewrite lookup_insert_ne.
Qed.

End ResolverExtras.

Lemma risk_cache_holds_graded_reports_only_witness :
  let rugCache : gmap string (Resolver.cached RugCheckData) :=
    {[ "Other1111"%string :=
         {| Resolver.cachedData := Resolver.rugReport {| Resolver.rugScore := Some 700%float |};
            Resolver.timestamp := 0 |} ]} in
  let out := Resolver.fetchRugCheckData Upstream.aMint 5
               (Resolver.Fulfilled {| Resolver.status := 404; Resolver.ok := false;
                                      Resolver.body := None |})
               10 rugCache in
  Resolver.rugCacheAfter out = rugCache /\ isNew (Resolver.rugResult out) = true.
Proof.
  intros rugCache out.
  destruct (risk_cache_holds_graded_reports_only Upstream.aMint 5 10
              (Resolver.Fulfilled {| Resolver.status := 404; Resolver.ok := false;
                                     Resolver.body := None |}) rugCache)
    as (_ & Hstored & Hnew).
  { intros m e H. apply lookup_singleton_Some in H as [_ <-].
    split; [reflexivity|].
    change (riskLevel _) with "warn"%string. rewrite !elem_of_cons. by auto. }
  cbv zeta in Hstored, Hnew. fold out in Hstored, Hnew.
  assert (H : isNew (Resolver.rugResult out) = true).
  { apply Hnew. split; [reflexivity|]. eexists. split; reflexivity. }
  split; [|exact H]. by apply Hstored; left.
Defined.

(** ** The pair that the sort puts first *)

Section SortFacts.
Import Resolver SortOrder.

Lemma signIs_spec (x : option comparison) (s : comparison) :
  signIs x s = true <-> x = Some s.
Proof. destruct x as [[| |]|], s; cbn; split; congruence. Qed.

Lemma comparatorSign_test (a b : DexPair) (c : float) :
  compareLiquidity a b = Some c ->
  (0 <? c)%float = true <-> comparatorSign a b = Some Gt.
Proof.
  intros Hc. unfold comparatorSign. rewrite Hc.
  destruct (0 <? c)%float; [done|].
  destruct (c <? 0)%float; [done|]. destruct (c =? 0)%float; done.
Qed.

Lemma comparatorSign_defined (a b : DexPair) (s : comparison) :
  comparatorSign a b = Some s ->
  (exists c, compareLiquidity a b = Some c)
  /\ pairLiquidity a ≠ None /\ pairLiquidity b ≠ None.
Proof.
  unfold comparatorSign, compareLiquidity.
  destruct (pairLiquidity a), (pairLiquidity b); try done.
  intros _. split; [by eexists | done].
Qed.

Variable ps : list DexPair.
Hypothesis Hconsistent : consistentComparator ps = true.

Lemma consistent_opposite (a b : DexPair) :
  a ∈ ps -> b ∈ ps ->
  exists s, comparatorSign a b = Some s /\ comparatorSign b a = Some (CompOpp s).
Proof.
  intros Ha Hb. unfold consistentComparator in Hconsistent.
  rewrite forallb_forall in Hconsistent.
  apply list_elem_of_In in Ha, Hb.
  specialize (Hconsistent a Ha). rewrite forallb_forall in Hconsistent.
  specialize (Hconsistent b Hb).
  destruct (comparatorSign a b) as [s|]; [|done].
  apply andb_true_iff in Hconsistent as [Hopp _].
  exists s. split; [done|]. by apply signIs_spec.
Qed.

Lemma consistent_transitive (a b c : DexPair) (s : comparison) :
  a ∈ ps -> b ∈ ps -> c ∈ ps ->
  comparatorSign a b = Some s -> comparatorSign b c = Some s ->
  comparatorSign a c = Some s.
Proof.
  intros Ha Hb Hc Hab Hbc. unfold consistentComparator in Hconsistent.
  rewrite forallb_forall in Hconsistent.
  apply list_elem_of_In in Ha, Hb, Hc.
  specialize (Hconsistent a Ha). rewrite forallb_forall in Hconsistent.
  specialize (Hconsistent b Hb). rewrite Hab in Hconsistent.
  apply andb_true_iff in Hconsistent as [_ Htrans].
  rewrite forallb_forall in Htrans. specialize (Htrans c Hc).
  apply signIs_spec in Hbc. rewrite Hbc in Htrans. by apply signIs_spec.
Qed.

Lemma consistent_reflexive (a : DexPair) :
  a ∈ ps -> comparatorSign a a = Some Eq.
Proof.
  intros Ha. destruct (consistent_opposite a a Ha Ha) as (s & H1 & H2).
  rewrite H1 in H2. rewrite H1. by destruct s.
Qed.

Lemma insertPair_head (x h : DexPair) (s : list DexPair) :
  x ∈ ps -> (forall p, p ∈ h :: s -> p ∈ ps) ->
  exists l,
    insertPair x (h :: s)
    = Some ((if signIs (comparatorSign h x) Gt then x else h) :: l)
    /\ forall p, p ∈ (if signIs (comparatorSign h x) Gt then x else h) :: l ->
                 p ∈ x :: h :: s.
Proof.
  intros Hx Hs.
  assert (Hh : h ∈ ps) by (apply Hs, elem_of_cons; by left).
  destruct (consistent_opposite h x Hh Hx) as (sg & Hsg & _).
  destruct (comparatorSign_defined h x sg Hsg) as ((c & Hc) & _ & _).
  cbn [insertPair]. rewrite Hc.
  destruct (0 <? c)%float eqn:Htest.
  - apply (comparatorSign_test h x c Hc) in Htest. rewrite Htest. cbn [signIs].
    by exists (h :: s).
  - assert (Hnot : signIs (comparatorSign h x) Gt = false).
    { apply not_true_iff_false. rewrite signIs_spec.
      rewrite <- (comparatorSign_test h x c Hc). congruence. }
    rewrite Hnot.
    destruct (insertPair_perm x s) as (l & -> & Hperm).
    + destruct (comparatorSign_defined x x Eq (consistent_reflexive x Hx))
        as (_ & H & _). exact H.
    + intros p Hp.
      assert (Hpp : p ∈ ps) by (apply Hs, elem_of_cons; by right).
      destruct (comparatorSign_defined p p Eq (consistent_reflexive p Hpp))
        as (_ & H & _). exact H.
    + exists l. split; [reflexivity|].
      intros p Hp. apply elem_of_cons in Hp as [->|Hp].
      * apply elem_of_cons. right. apply elem_of_cons. by left.
      * rewrite <- Hperm in Hp. apply elem_of_cons in Hp as [->|Hp].
        -- apply elem_of_cons. by left.
        -- apply elem_of_cons. right. apply elem_of_cons. by right.
Qed.

Lemma first_greatest_step (seen : list DexPair) (h x : DexPair) :
  (forall p, p ∈ seen -> p ∈ ps) -> x ∈ ps ->
  first_greatest seen h ->
  first_greatest (seen ++ [x]) (if signIs (comparatorSign h x) Gt then x else h).
Proof.
  intros Hseen Hx (i & Hi & Hmax & Hfirst).
  assert (Hh : h ∈ ps) by (by apply Hseen, (list_elem_of_lookup_2 _ i)).
  assert (Hlt : (i < length seen)%nat) by (by apply (lookup_lt_Some _ _ h)).
  destruct (signIs (comparatorSign h x) Gt) eqn:Hgt.
  - apply signIs_spec in Hgt.
    exists (length seen). split; [|split].
    + rewrite lookup_app_r by lia. by rewrite Nat.sub_diag.
    + intros q Hq Hxq. apply elem_of_app in Hq as [Hq|Hq].
      * apply (Hmax q Hq).
        by apply (consistent_transitive h x q Gt Hh Hx (Hseen q Hq)).
      * apply list_elem_of_singleton in Hq as ->.
        rewrite (consistent_reflexive x Hx) in Hxq. done.
    + intros j q Hj Hjq. rewrite lookup_app_l in Hjq by lia.
      assert (Hq : q ∈ seen) by (by apply (list_elem_of_lookup_2 _ j)).
      assert (Hqp : q ∈ ps) by (by apply Hseen).
      destruct (decide (j < i)%nat) as [Hji|Hji].
      * apply (consistent_transitive q h x Gt Hqp Hh Hx); [|done].
        by apply (Hfirst j q).
      * destruct (decide (j = i)) as [->|Hne]; [congruence|].
        destruct (consistent_opposite h q Hh Hqp) as (s & Hhq & Hqh).
        destruct s; cbn [CompOpp] in Hqh.
        -- (* equally liquid *)
           destruct (consistent_opposite q x Hqp Hx) as (s' & Hqx & Hxq).
           destruct s'; cbn [CompOpp] in Hxq; [| |exact Hqx].
           ++ pose proof (consistent_transitive h q x Eq Hh Hqp Hx Hhq Hqx).
              congruence.
           ++ exfalso.
              pose proof (consistent_transitive h x q Gt Hh Hx Hqp Hgt Hxq).
              congruence.
        -- by apply (consistent_transitive q h x Gt Hqp Hh Hx).
        -- exfalso. by apply (Hmax q Hq).
  - exists i. split; [|split].
    + by rewrite lookup_app_l by lia.
    + intros q Hq. apply elem_of_app in Hq as [Hq|Hq]; [by apply Hmax|].
      apply list_elem_of_singleton in Hq as ->.
      intros H. apply signIs_spec in H. congruence.
    + intros j q Hj Hjq. rewrite lookup_app_l in Hjq by lia.
      by apply (Hfirst j q).
Qed.

Lemma sortPairs_head (rest : list DexPair) :
  forall seen h s,
    seen ++ rest = ps ->
    (forall p, p ∈ h :: s -> p ∈ seen) ->
    first_greatest seen h ->
    exists best s', sortPairs rest (h :: s) = Some (best :: s')
                    /\ first_greatest ps best.
Proof.
  induction rest as [|x rest IH]; intros seen h s Hps Hs Hinv.
  - rewrite app_nil_r in Hps. subst seen. by exists h, s.
  - assert (Hseen : forall p, p ∈ seen -> p ∈ ps).
    { intros p Hp. rewrite <- Hps. apply elem_of_app. by left. }
    assert (Hx : x ∈ ps).
    { rewrite <- Hps. apply elem_of_app. right. apply elem_of_cons. by left. }
    destruct (insertPair_head x h s Hx) as (l & Hins & Hl).
    { intros p Hp. by apply Hseen, Hs. }
    cbn [sortPairs]. rewrite Hins.
    apply (IH (seen ++ [x])).
    + by rewrite <- app_assoc.
    + intros p Hp. apply Hl in Hp. apply elem_of_app.
      apply elem_of_cons in Hp as [->|Hp].
      * right. apply elem_of_cons. by left.
      * left. by apply Hs.
    + by apply first_greatest_step.
Qed.

Lemma sortPairs_first_greatest (p0 : DexPair) (tl : list DexPair) :
  ps = p0 :: tl ->
  exists best s', sortPairs ps [] = Some (best :: s') /\ first_greatest ps best.
Proof.
  intros Heq.
  assert (Hp0 : p0 ∈ ps) by (rewrite Heq; apply elem_of_cons; by left).
  destruct (sortPairs_head tl [p0] p0 []) as (best & s' & Hsort & Hbest).
  - by rewrite Heq.
  - done.
  - exists O. split; [done|]. split.
    + intros q Hq. apply list_elem_of_singleton in Hq as ->.
      by rewrite (consistent_reflexive p0 Hp0).
    + intros j q Hj. lia.
  - exists best, s'. split; [|exact Hbest]. by rewrite Heq.
Qed.
End SortFacts.

(** A pair whose liquidity object has no [usd] makes the comparator
    inconsistent: its comparisons return NaN. *)
Lemma missing_usd_is_inconsistent (ps : list Resolver.DexPair) (p : Resolver.DexPair) :
  p ∈ ps ->
  Resolver.pairLiquidity p = Some {| Resolver.usd := None |} ->
  SortOrder.consistentComparator ps = false.
Proof.
  intros Hp Hl. apply not_true_iff_false. intros Hcons.
  pose proof (consistent_reflexive ps Hcons p Hp) as Hrefl.
  unfold SortOrder.comparatorSign, Resolver.compareLiquidity in Hrefl.
  rewrite Hl in Hrefl. vm_compute in Hrefl. discriminate.
Qed.

(** ** The merge of the two sources *)
Section MergeExtras.
Import Resolver SortOrder.

Lemma orString_nonempty (s : option string) (p fallback : string) :
  s = Some p -> p ≠ ""%string -> orString s fallback = p.
Proof. intros -> Hp. destruct p; done. Qed.

Lemma dexPairs_nonempty (dexRes : settled (Response DexBody)) (ps : list DexPair) :
  dexPairs dexRes = Some ps -> exists p0 tl, ps = p0 :: tl.
Proof.
  unfold dexPairs. destruct dexRes as [r|]; [|done].
  destruct (ok r); [|done]. destruct (body r) as [b|]; [|done].
  destruct (pairs b) as [[|p0 tl]|]; [done| |done].
  intros [= <-]. by exists p0, tl.
Qed.

(** The merge, in terms of the pair that the sort puts first. *)
Lemma merge_of_sources
    (mint : string) (now later : Z)
    (jupRes : settled (Response JupBody)) (dexRes : settled (Response DexBody))
    (tokenCache : gmap string (cached TokenMarketData)) (d : TokenMarketData) :
  fresh (tokenCache !! mint) now = None ->
  tokenResult (fetchTokenMarketData mint now jupRes dexRes later tokenCache) = Some d ->
  (forall info p,
     jupiterInfo jupRes mint = Some info -> price info = Some p ->
     p ≠ ""%string -> p ≠ "0"%string -> priceUsd d = p)
  /\ (forall info extra,
        jupiterInfo jupRes mint = Some info -> extraInfo info = Some extra ->
        orString (extraSymbol extra) "UNKNOWN" ≠ "Unknown Token"%string ->
        name d = orString (extraSymbol extra) "UNKNOWN"
        /\ (name d ≠ "UNKNOWN"%string -> symbol d = name d))
  /\ (bestPair dexRes = None -> fdv d = 0%float /\ liquidity d = 0%float)
  /\ (forall best,
        bestPair dexRes = Some best ->
        fdv d = orZero (pairFdv best)
        /\ liquidity d = orZero (match pairLiquidity best with
                                 | Some l => usd l
                                 | None => None
                                 end)
        /\ (jupiterInfo jupRes mint = None ->
            symbol d = baseSymbol best /\ name d = baseName best
            /\ priceUsd d = pairPriceUsd best)).
Proof.
  intros Hmiss Hres. unfold fetchTokenMarketData in Hres. rewrite Hmiss in Hres.
  cbv zeta in Hres.
  destruct (v_found (parseDex dexRes (parseJupiter jupRes mint initialVars)));
    cbn [negb] in Hres; [|done].
  cbn [tokenResult] in Hres. injection Hres as <-.
  cbn [symbol name priceUsd fdv liquidity].
  unfold parseDex, parseJupiter.
  destruct (bestPair dexRes) as [best|] eqn:Hbest;
    destruct (jupiterInfo jupRes mint) as [info|] eqn:Hinfo;
    try destruct (extraInfo info) as [extra|] eqn:Hextra;
    cbn [v_symbol v_name v_priceUsd v_fdv v_liquidity initialVars];
    (split; [|split; [|split]]); try done.
  all: try (intros i p [= <-] Hp Hne H0; rewrite (orString_nonempty _ p "0" Hp Hne);
            try done; destruct (String.eqb_spec p "0"); done).
  all: try (intros b [= <-]; repeat split; done).
  - intros i e [= <-] He Hplace. rewrite Hextra in He. injection He as <-.
    destruct (String.eqb_spec (orString (extraSymbol extra) "UNKNOWN") "Unknown Token");
      [done|].
    split; [done|]. intros Hname.
    by destruct (String.eqb_spec (orString (extraSymbol extra) "UNKNOWN") "UNKNOWN").
  - intros i e [= <-] He. congruence.
  - intros i e [= <-] He Hplace. rewrite Hextra in He. by injection He as <-.
  - intros i e [= <-] He. congruence.
Qed.

(** X19.  How the two sources are merged on a lookup that is not served
    from the cache and finds the token.  A non-empty primary price other
    than the string 0 is returned whatever the secondary source says.
    When the primary response has an [extraInfo] object, the returned name
    is the primary symbol (UNKNOWN when that symbol is missing or empty)
    and never the secondary source's name, unless the primary symbol is
    the literal placeholder Unknown Token; the returned symbol is that
    symbol too unless it is UNKNOWN.  Fully diluted value and liquidity
    come from the secondary source only: both are 0 when it yields no
    pair, and otherwise both are those of one listed pair (a missing
    value counting as 0), which without primary data for the token also
    gives symbol, name and price.  Which pair that is, is fixed when the
    comparator of the sort is consistent on the listed pairs, as it is
    when every pair has a finite liquidity: it is then the first of the
    most liquid pairs.  (Otherwise ECMAScript leaves the order of the
    sort, and so the pair, to the implementation.) *)
Theorem primary_source_takes_precedence
    (mint : string) (now later : Z)
    (jupRes : settled (Response JupBody)) (dexRes : settled (Response DexBody))
    (tokenCache : gmap string (cached TokenMarketData)) (d : TokenMarketData) :
  fresh (tokenCache !! mint) now = None ->
  tokenResult (fetchTokenMarketData mint now jupRes dexRes later tokenCache) = Some d ->
  let fromPair (p : DexPair) :=
    fdv d = orZero (pairFdv p)
    /\ liquidity d = orZero (match pairLiquidity p with
                            | Some l => usd l
                            | None => None
                            end)
    /\ (jupiterInfo jupRes mint = None ->
        symbol d = baseSymbol p /\ name d = baseName p
        /\ priceUsd d = pairPriceUsd p) in
  (forall info p,
     jupiterInfo jupRes mint = Some info -> price info = Some p ->
     p ≠ ""%string -> p ≠ "0"%string -> priceUsd d = p)
  /\ (forall info extra,
        jupiterInfo jupRes mint = Some info -> extraInfo info = Some extra ->
        orString (extraSymbol extra) "UNKNOWN" ≠ "Unknown Token"%string ->
        name d = orString (extraSymbol extra) "UNKNOWN"
        /\ (name d ≠ "UNKNOWN"%string -> symbol d = name d))
  /\ (bestPair dexRes = None -> fdv d = 0%float /\ liquidity d = 0%float)
  /\ (forall ps,
        dexPairs dexRes = Some ps ->
        length ps = 1%nat \/ (forall p, p ∈ ps -> pairLiquidity p ≠ None) ->
        exists p, p ∈ ps /\ fromPair p)
  /\ (forall ps,
        dexPairs dexRes = Some ps -> consistentComparator ps = true ->
        exists best, first_greatest ps best /\ fromPair best).
Proof.
  intros Hmiss Hres fromPair.
  destruct (merge_of_sources mint now later jupRes dexRes tokenCache d Hmiss Hres)
    as (Hprice & Hname & Hnone & Hbest).
  split; [exact Hprice|]. split; [exact Hname|]. split; [exact Hnone|]. split.
  - intros ps Hps Hcond.
    destruct (bestPair_exists dexRes ps Hps Hcond) as (best & Hb & Hin).
    exists best. split; [exact Hin|]. by apply Hbest.
  - intros ps Hps Hcons.
    destruct (dexPairs_nonempty dexRes ps Hps) as (p0 & tl & Heq).
    destruct (sortPairs_first_greatest ps Hcons p0 tl Heq)
      as (best & s' & Hsort & Hfirst).
    exists best. split; [exact Hfirst|]. apply Hbest.
    unfold bestPair. by rewrite Hps, Hsort.
Qed.
End MergeExtras.

Lemma primary_source_takes_precedence_witness :
  exists d,
    Resolver.tokenResult
      (Resolver.fetchTokenMarketData Upstream.aMint 0 Upstream.priceOnly
         MoreUpstream.threePairs 10 ∅) = Some d
    /\ priceUsd d = "0.5"%string /\ fdv d = 20%float /\ symbol d = "B"%string.
Proof.
  assert (Hmiss : Resolver.fresh
                    ((∅ : gmap string (Resolver.cached TokenMarketData)) !! Upstream.aMint) 0
                  = None) by reflexivity.
  eexists. split; [reflexivity|].
  edestruct (primary_source_takes_precedence Upstream.aMint 0 10 Upstream.priceOnly
               MoreUpstream.threePairs ∅ _ Hmiss ltac:(reflexivity))
    as (Hprice & _ & _ & _ & Hbest).
  split; [eapply Hprice; [reflexivity | reflexivity | done | done]|].
  edestruct Hbest as (best & (i & Hi & Hmax & Hfirst) & Hfdv & _ & _);
    [reflexivity | reflexivity |].
  assert (Hb : best = MoreUpstream.pairOf "B" 5 20).
  { destruct i as [|[|[|i]]]; cbn in Hi; [| |  |done]; injection Hi as <-.
    - exfalso. apply (Hmax (MoreUpstream.pairOf "B" 5 20)); [|reflexivity].
      apply elem_of_cons. right. apply elem_of_cons. by left.
    - reflexivity.
    - specialize (Hfirst 1%nat (MoreUpstream.pairOf "B" 5 20) ltac:(lia) eq_refl).
      vm_compute in Hfirst. discriminate. }
  subst best. split; [rewrite Hfdv; reflexivity | reflexivity].
Defined.

(** ** Market and risk data are requested for swaps only *)

Section SwapOnlyLookups.
Import Classifier.

(** X20.  The classifier consults the two resolvers for a SWAP result
    only.  Whatever it returns carries the signature it was given; the
    result holds a risk report exactly when its type is SWAP, and market
    data only then; and a result of another type is the same whatever the
    resolvers would have answered. *)
Theorem resolvers_are_consulted_for_swaps_only
    (fetchToken : string -> option TokenMarketData)
    (fetchRug : string -> RugCheckData)
    (pubKey sig : string) (tx : option ParsedTransaction) (d : TradeDetails) :
  classify fetchToken fetchRug pubKey sig tx = Some d ->
  signature d = sig
  /\ (type d = SWAP <-> rugData d ≠ None)
  /\ (tokenData d ≠ None -> type d = SWAP)
  /\ (type d = SWAP ->
      tokenData d = fetchToken (tokenMint d)
      /\ rugData d = Some (fetchRug (tokenMint d)))
  /\ (type d ≠ SWAP ->
      forall fetchToken' fetchRug',
        classify fetchToken' fetchRug' pubKey sig tx = Some d).
Proof.
  unfold classify. destruct tx as [t|]; [|done].
  destruct (meta t) as [m|]; [|done].
  destruct (findIndex (accountKeys t) pubKey) as [i|]; [|done].
  cbv zeta.
  destruct (truthy _).
  - destruct (if (negb _ && _)%bool then true else _).
    + intros [= <-]. cbn [signature type rugData tokenData tokenMint].
      repeat split; done.
    + intros [= <-]. cbn [signature type rugData tokenData tokenMint].
      repeat split; done.
  - destruct (_ && _ && _)%bool; intros [= <-];
      cbn [signature type rugData tokenData tokenMint]; repeat split; done.
Qed.
End SwapOnlyLookups.

Lemma resolvers_are_consulted_for_swaps_only_witness :
  exists d,
    Classifier.classify Scenarios.noToken Scenarios.goodRug Scenarios.watched "sig"
      (Some Scenarios.unwrapTx) = Some d
    /\ Classifier.signature d = "sig"%string
    /\ forall fetchToken fetchRug,
         Classifier.classify fetchToken fetchRug Scenarios.watched "sig"
           (Some Scenarios.unwrapTx) = Some d.
Proof.
  eexists. split; [reflexivity|].
  edestruct (resolvers_are_consulted_for_swaps_only Scenarios.noToken Scenarios.goodRug
               Scenarios.watched "sig" (Some Scenarios.unwrapTx) _ ltac:(reflexivity))
    as (Hsig & _ & _ & _ & Hother).
  split; [exact Hsig|]. apply Hother. cbn [Classifier.type]. discriminate.
Defined.
